(** * Genetic-algorithm insulation optimisers: cilindro_ga.py and placa_plana_ga.py

    A shallow embedding of the two scripts and the proofs of their
    specification.

    Numbers.  A numpy [float64] is modelled by [npfloat]: a finite value is
    an exact real, and the three IEEE specials [inf], [-inf] and [nan] are
    kept, because numpy produces them (with a warning) where the formula
    divides by zero or takes the logarithm of a non-positive number.
    Rounding, overflow and the sign of zero are not part of [npfloat]: a
    zero divisor is the positive zero.  Genes, bounds, rates and random
    draws are finite, so they are plain reals.  What the engines do with the
    numbers (comparisons, selection, copies, clamps, the bookkeeping of the
    histories) is proved on this model.  Where a property turns on
    rounding, absorption or overflow, the arithmetic of the source is
    evaluated on binary64 itself, in [Binary64].

    Randomness.  [np.random] is one process-wide generator.  Its state is
    threaded explicitly through every drawing function; the generator
    itself is an interface ([RandomSource]), so every theorem holds for
    every generator that respects the ranges numpy documents.

    Errors.  A Python exception is the [Raise] outcome. *)

From Stdlib Require Import Reals Lra Lia List ZArith Bool Arith.
From Stdlib Require Floats.
Import (notations) PrimFloat.
Import ListNotations.
Open Scope R_scope.
Set Warnings "-inexact-float".

(** ** numpy scalars *)

Inductive npfloat : Type :=
| Fin (x : R)
| PInf
| NInf
| NaN.

Definition Rltb (x y : R) : bool := if Rlt_dec x y then true else false.
Definition Rleb (x y : R) : bool := if Rle_dec x y then true else false.
Definition Reqb (x y : R) : bool := if Req_dec_T x y then true else false.

Definition is_nan (a : npfloat) : bool :=
  match a with NaN => true | _ => false end.

Definition is_finite (a : npfloat) : bool :=
  match a with Fin _ => true | _ => false end.

(** [a * inf] ([pos = true]) or [a * -inf] ([pos = false]) for a finite [a]. *)
Definition scaled_inf (a : R) (pos : bool) : npfloat :=
  if Rltb 0 a then (if pos then PInf else NInf)
  else if Rltb a 0 then (if pos then NInf else PInf)
  else NaN.

Definition fopp (a : npfloat) : npfloat :=
  match a with
  | Fin x => Fin (- x)
  | PInf => NInf
  | NInf => PInf
  | NaN => NaN
  end.

Definition fadd (a b : npfloat) : npfloat :=
  match a, b with
  | NaN, _ | _, NaN => NaN
  | Fin x, Fin y => Fin (x + y)
  | PInf, NInf | NInf, PInf => NaN
  | PInf, _ | _, PInf => PInf
  | NInf, _ | _, NInf => NInf
  end.

Definition fsub (a b : npfloat) : npfloat := fadd a (fopp b).

Definition fmul (a b : npfloat) : npfloat :=
  match a, b with
  | NaN, _ | _, NaN => NaN
  | Fin x, Fin y => Fin (x * y)
  | Fin x, PInf | PInf, Fin x => scaled_inf x true
  | Fin x, NInf | NInf, Fin x => scaled_inf x false
  | PInf, PInf | NInf, NInf => PInf
  | PInf, NInf | NInf, PInf => NInf
  end.

Definition fdiv (a b : npfloat) : npfloat :=
  match a, b with
  | NaN, _ | _, NaN => NaN
  | Fin x, Fin y => if Reqb y 0 then scaled_inf x true else Fin (x / y)
  | Fin _, PInf | Fin _, NInf => Fin 0
  | PInf, Fin y => if Rltb y 0 then NInf else PInf
  | NInf, Fin y => if Rltb y 0 then PInf else NInf
  | PInf, PInf | PInf, NInf | NInf, PInf | NInf, NInf => NaN
  end.

(** [x ** 2] *)
Definition fsquare (a : npfloat) : npfloat := fmul a a.

(** [np.log] *)
Definition flog (a : npfloat) : npfloat :=
  match a with
  | Fin x => if Rltb 0 x then Fin (ln x) else if Reqb x 0 then NInf else NaN
  | PInf => PInf
  | NInf | NaN => NaN
  end.

Definition fltb (a b : npfloat) : bool :=
  match a, b with
  | NaN, _ | _, NaN => false
  | Fin x, Fin y => Rltb x y
  | _, NInf => false
  | NInf, _ => true
  | PInf, _ => false
  | _, PInf => true
  end.

Definition fleb (a b : npfloat) : bool :=
  match a, b with
  | NaN, _ | _, NaN => false
  | Fin x, Fin y => Rleb x y
  | NInf, _ => true
  | _, PInf => true
  | _, NInf => false
  | PInf, _ => false
  end.

Definition fgtb (a b : npfloat) : bool := fltb b a.
Definition fgeb (a b : npfloat) : bool := fleb b a.

(** The order of the specification: [a <= b] as numpy evaluates it. *)
Definition fle (a b : npfloat) : Prop := fleb a b = true.
Definition flt (a b : npfloat) : Prop := fltb a b = true.

(** [np.clip(x, lo, hi)] is [minimum(maximum(x, lo), hi)]. *)
Definition clip (x lo hi : R) : R := Rmin (Rmax x lo) hi.

(** ** numpy reductions *)

(** [np.argmin]: the scan of numpy's inner loop.  [mp] is the running
    minimum, [min_ind] its index, [i] the index of the head of [ip].  A nan
    ends the scan and is the answer. *)
Fixpoint argmin_scan (mp : npfloat) (min_ind i : nat) (ip : list npfloat) : nat :=
  match ip with
  | [] => min_ind
  | x :: rest =>
      if is_nan mp then min_ind
      else if negb (fgeb x mp) then argmin_scan x i (S i) rest
      else argmin_scan mp min_ind (S i) rest
  end.

Fixpoint argmax_scan (mp : npfloat) (max_ind i : nat) (ip : list npfloat) : nat :=
  match ip with
  | [] => max_ind
  | x :: rest =>
      if is_nan mp then max_ind
      else if negb (fleb x mp) then argmax_scan x i (S i) rest
      else argmax_scan mp max_ind (S i) rest
  end.

(** [None] is numpy's [ValueError] on an empty array. *)
Definition argmin (ip : list npfloat) : option nat :=
  match ip with
  | [] => None
  | x :: rest => Some (argmin_scan x 0 1 rest)
  end.

Definition argmax (ip : list npfloat) : option nat :=
  match ip with
  | [] => None
  | x :: rest => Some (argmax_scan x 0 1 rest)
  end.

(** [np.maximum]: a nan operand wins. *)
Definition fmaximum (a b : npfloat) : npfloat :=
  if is_nan a then a else if is_nan b then b else if fgeb a b then a else b.

(** [arr.max()] *)
Definition fmax_list (l : list npfloat) : option npfloat :=
  match l with
  | [] => None
  | x :: rest => Some (fold_left fmaximum rest x)
  end.

(** [arr.mean()]: the sum of the entries divided by their number, on exact
    reals (numpy rounds every sum and the quotient). *)
Definition fsum (l : list npfloat) : npfloat := fold_left fadd l (Fin 0).
Definition fmean (l : list npfloat) : npfloat :=
  fdiv (fsum l) (Fin (INR (length l))).

(** ** binary64 *)

(** The arithmetic of the source on the binary64 numbers of the kernel,
    which round as numpy's [float64] does (to nearest, ties to even).  The
    logarithm is not an operation of the kernel: it is a parameter, of which
    only what is assumed of it is used. *)
Module Binary64.
Local Open Scope float_scope.

Abbreviation float := PrimFloat.float.

(** One gene of the two children of a crossover: cilindro_ga.py,
    [child1 = alpha * parent1 + (1 - alpha) * parent2] and
    [child2 = (1 - alpha) * parent1 + alpha * parent2]; placa_plana_ga.py
    has the same [c1], and [c2] is [child1] with the parents exchanged. *)
Definition child1 (alpha parent1 parent2 : float) : float :=
  alpha * parent1 + (1 - alpha) * parent2.

Definition child2 (alpha parent1 parent2 : float) : float :=
  (1 - alpha) * parent1 + alpha * parent2.

(** [np.random.rand()] returns a multiple of [2**-53] in [[0, 1)]; both
    coefficients below are such numbers. *)
Definition is_draw (alpha : float) : bool :=
  (0 <=? alpha) && (alpha <? 1) &&
  (let x := alpha * 0x1p53 in (0x1p52 <=? x) || ((x + 0x1p52) - 0x1p52 =? x)).

(** The constants of cilindro_ga.py. *)
Definition r1 : float := 0.5.
Definition L : float := 2.0.
Definition dT : float := 180.
Definition Q_max : float := 120.0.
Definition k_max : float := 0.084.

(** [np.pi] *)
Definition pi : float := 3.141592653589793.

Section Log.
(** [np.log] *)
Variable log : float -> float.

Definition heat_flow (k t : float) : float :=
  let r2 := r1 + t in
  (2 * pi * k * L * dT) / log (r2 / r1).

(** [objective] on the two genes of the individual.  [x ** 2] is written
    [x * x]. *)
Definition objective (k t penalty_factor : float) : float :=
  let Q := heat_flow k t in
  let fitness := t in
  let fitness :=
    if Q_max <? Q
    then fitness + penalty_factor * ((Q - Q_max) * (Q - Q_max))
    else fitness in
  let fitness :=
    if k_max <? k
    then fitness + penalty_factor * ((k - k_max) * (k - k_max))
    else fitness in
  fitness.
End Log.

(** placa_plana_ga.py, the end of [fitness]: the penalty for a heat flow
    [Q] and the sum with the base cost ([Q_max] is 120 in both scripts). *)
Definition penalised (base_obj Q penalty_factor : float) : float :=
  let penalty :=
    if Q_max <? Q then (Q - Q_max) * (Q - Q_max) * penalty_factor else 0.0 in
  base_obj + penalty.

End Binary64.

(** ** Exceptions and the two monads *)

Inductive exn : Type :=
| ValueError
| IndexError
| OutOfFuel.

Inductive outcome (A : Type) : Type :=
| Ok (a : A)
| Raise (e : exn).
Arguments Ok {A} a.
Arguments Raise {A} e.

Definition obind {A B : Type} (m : outcome A) (k : A -> outcome B) : outcome B :=
  match m with
  | Ok a => k a
  | Raise e => Raise e
  end.

(** [xs[i]] on a Python list or a numpy array, for an index that is not
    negative. *)
Definition index {A : Type} (xs : list A) (i : nat) : outcome A :=
  match nth_error xs i with
  | Some x => Ok x
  | None => Raise IndexError
  end.

Definition of_option {A : Type} (o : option A) : outcome A :=
  match o with
  | Some x => Ok x
  | None => Raise ValueError
  end.

Fixpoint omap {A B : Type} (f : A -> outcome B) (xs : list A) : outcome (list B) :=
  match xs with
  | [] => Ok []
  | x :: xs' =>
      obind (f x) (fun y => obind (omap f xs') (fun ys => Ok (y :: ys)))
  end.

(** ** The random source *)

(** The process-wide generator behind [np.random].  [seed] is the state
    [np.random.seed] installs, [random_sample] a draw from [[0, 1)],
    [random_below n] a draw from the integers [[0, n)], and
    [standard_normal] a draw from N(0, 1). *)
Class RandomSource : Type := {
  rng : Type;
  seed : Z -> rng;
  random_sample : rng -> R * rng;
  random_below : nat -> rng -> nat * rng;
  standard_normal : rng -> R * rng;
  random_sample_unit : forall g, 0 <= fst (random_sample g) < 1;
  random_below_range : forall n g, (0 < n)%nat -> (fst (random_below n g) < n)%nat
}.

Declare Scope rand_scope.
Delimit Scope rand_scope with rand.

Section Rand.
Context {RS : RandomSource}.

(** A computation that draws from the generator and may raise. *)
Definition M (A : Type) : Type := rng -> outcome (A * rng).

Definition ret {A : Type} (a : A) : M A := fun g => Ok (a, g).

Definition bind {A B : Type} (m : M A) (k : A -> M B) : M B :=
  fun g => match m g with
           | Ok (a, g') => k a g'
           | Raise e => Raise e
           end.

Definition raise {A : Type} (e : exn) : M A := fun _ => Raise e.

Definition lift {A : Type} (o : outcome A) : M A :=
  fun g => match o with
           | Ok a => Ok (a, g)
           | Raise e => Raise e
           end.

(** [np.random.seed(s)] for an integer [s].  numpy takes the seeds of
    [[0, 2**32 - 1]] and raises [ValueError] for every other integer.  The
    seed of a run is an integer, as in the Configuration of the
    specification ([None], which makes numpy read a state from the
    operating system, is not one). *)
Definition max_seed : Z := 4294967295.

Definition valid_seed (s : Z) : Prop := (0 <= s <= max_seed)%Z.

Definition np_seed (s : Z) : M unit :=
  fun _ =>
    if ((0 <=? s) && (s <=? max_seed))%Z then Ok (tt, seed s)
    else Raise ValueError.

(** [np.random.rand()] *)
Definition rand : M R := fun g => Ok (random_sample g).

(** [np.random.uniform(low, high, size=size)] *)
Fixpoint uniform (low high : R) (size : nat) : M (list R) :=
  match size with
  | O => ret []
  | S size' =>
      bind rand (fun u =>
      bind (uniform low high size') (fun us =>
      ret ((low + (high - low) * u) :: us)))
  end.

Fixpoint random_below_list (n size : nat) : M (list nat) :=
  match size with
  | O => ret []
  | S size' =>
      bind (fun g => Ok (random_below n g)) (fun i =>
      bind (random_below_list n size') (fun js =>
      ret (i :: js)))
  end.

(** [np.random.randint(0, high, size=size)] *)
Definition randint (high : Z) (size : nat) : M (list nat) :=
  if (high <=? 0)%Z then raise ValueError
  else random_below_list (Z.to_nat high) size.

(** [np.random.normal(loc, scale)] *)
Definition normal (loc scale : R) : M R :=
  if Rltb scale 0 then raise ValueError
  else bind (fun g => Ok (standard_normal g)) (fun z => ret (loc + scale * z)).
End Rand.

Notation "x <- m ;; k" := (bind m (fun x => k))
  (at level 61, m at next level, right associativity) : rand_scope.
Notation "' pat <- m ;; k" := (bind m (fun x => match x with pat => k end))
  (at level 61, pat pattern, m at next level, right associativity) : rand_scope.
Open Scope rand_scope.

(** [a * p + b * q] on two arrays of the same shape, on exact reals.  One
    gene of the blend as binary64 rounds it is [Binary64.child1]. *)
Definition lincomb (a : R) (p : list R) (b : R) (q : list R) : list R :=
  map (fun xy => a * fst xy + b * snd xy) (combine p q).

(** * cilindro_ga.py *)

Module Cilindro.

Definition r1 : R := 5 / 10.
Definition L : R := 2.
Definition dT : R := 180.
Definition Q_max : R := 120.
Definition k_max : R := 84 / 1000.

(** [heat_flow], on exact reals with the IEEE specials; as binary64
    rounds it, it is [Binary64.heat_flow]. *)
Definition heat_flow (k t : R) : npfloat :=
  let r2 := r1 + t in
  fdiv (Fin (2 * PI * k * L * dT)) (flog (fdiv (Fin r2) (Fin r1))).

(** [objective], on exact reals with the IEEE specials; unpacking anything
    but two genes is Python's [ValueError].  As binary64 rounds it, it is
    [Binary64.objective]. *)
Definition objective (individual : list R) (penalty_factor : R) : outcome npfloat :=
  match individual with
  | [k; t] =>
      let Q := heat_flow k t in
      let fitness := Fin t in
      let fitness :=
        if fgtb Q (Fin Q_max)
        then fadd fitness (fmul (Fin penalty_factor) (fsquare (fsub Q (Fin Q_max))))
        else fitness in
      let fitness :=
        if Rltb k_max k
        then fadd fitness (fmul (Fin penalty_factor) (fsquare (fsub (Fin k) (Fin k_max))))
        else fitness in
      Ok fitness
  | _ => Raise ValueError
  end.

(** The variables one generation hands to the next. *)
Record loop_state : Type := {
  population : list (list R);
  fitness : list npfloat;
  best_hist : list npfloat;
  worst_hist : list npfloat;
  avg_hist : list npfloat;
  best_t_hist : list R;
  best_Q_hist : list npfloat
}.

Record result : Type := {
  best_individual : list R;
  best_fitness : npfloat;
  res_best_hist : list npfloat;
  res_worst_hist : list npfloat;
  res_avg_hist : list npfloat;
  res_best_t_hist : list R;
  res_best_Q_hist : list npfloat
}.

Section GA.
Context {RS : RandomSource}.
Variable bounds : list (R * R).
Variables pop_size generations : Z.
Variables crossover_rate mutation_rate mutation_scale penalty_factor : R.

Definition n_var : nat := length bounds.

(** [population[:, i] = np.random.uniform(low, high, size=pop_size)],
    one column per bound, in order. *)
Fixpoint init_columns (bs : list (R * R)) : M (list (list R)) :=
  match bs with
  | [] => ret []
  | (low, high) :: bs' =>
      col <- uniform low high (Z.to_nat pop_size) ;;
      cols <- init_columns bs' ;;
      ret (col :: cols)
  end.

Definition rows_of_columns (n : nat) (cols : list (list R)) : list (list R) :=
  map (fun j => map (fun col => nth j col 0) cols) (seq 0 n).

(** [np.zeros((pop_size, n_var))] refuses a negative size. *)
Definition initial_population : M (list (list R)) :=
  if (pop_size <? 0)%Z then raise ValueError
  else
    cols <- init_columns bounds ;;
    ret (rows_of_columns (Z.to_nat pop_size) cols).

Definition evaluate (pop : list (list R)) : outcome (list npfloat) :=
  omap (fun ind => objective ind penalty_factor) pop.

(** The closure of the generation loop; the caller takes the copy. *)
Definition tournament_selection
    (population : list (list R)) (fitness : list npfloat) : M (list R) :=
  idx <- randint pop_size 2 ;;
  match idx with
  | [i1; i2] =>
      f1 <- lift (index fitness i1) ;;
      f2 <- lift (index fitness i2) ;;
      if fltb f1 f2 then lift (index population i1)
      else lift (index population i2)
  | _ => raise ValueError
  end.

(** The two nested [for] loops over the genes of one child. *)
Fixpoint mutation (bs : list (R * R)) (child : list R) : M (list R) :=
  match bs with
  | [] => ret child
  | (low, high) :: bs' =>
      match child with
      | [] => raise IndexError
      | x :: xs =>
          u <- rand ;;
          x' <- (if Rltb u mutation_rate
                 then
                   let var_range := high - low in
                   d <- normal 0 (mutation_scale * var_range) ;;
                   ret (clip (x + d) low high)
                 else ret x) ;;
          xs' <- mutation bs' xs ;;
          ret (x' :: xs')
      end
  end.

(** [while len(new_population) < pop_size: ...] *)
Fixpoint breed (fuel : nat) (population : list (list R)) (fitness : list npfloat)
    (new_population : list (list R)) : M (list (list R)) :=
  if (Z.of_nat (length new_population) <? pop_size)%Z then
    match fuel with
    | O => raise OutOfFuel
    | S fuel' =>
        parent1 <- tournament_selection population fitness ;;
        parent2 <- tournament_selection population fitness ;;
        u <- rand ;;
        '(child1, child2) <-
          (if Rltb u crossover_rate
           then
             alpha <- rand ;;
             ret (lincomb alpha parent1 (1 - alpha) parent2,
                  lincomb (1 - alpha) parent1 alpha parent2)
           else ret (parent1, parent2)) ;;
        child1 <- mutation bounds child1 ;;
        let new_population := new_population ++ [child1] in
        if (pop_size <=? Z.of_nat (length new_population))%Z
        then breed fuel' population fitness new_population
        else
          child2 <- mutation bounds child2 ;;
          let new_population := new_population ++ [child2] in
          breed fuel' population fitness new_population
    end
  else ret new_population.

(** The body of [for gen in range(generations)]. *)
Definition generation (st : loop_state) : M loop_state :=
  best_idx <- lift (of_option (argmin (fitness st))) ;;
  best_ind <- lift (index (population st) best_idx) ;;
  best_fit <- lift (index (fitness st) best_idx) ;;
  worst <- lift (of_option (fmax_list (fitness st))) ;;
  match best_ind with
  | [best_k_gen; best_t_gen] =>
      let best_Q_gen := heat_flow best_k_gen best_t_gen in
      new_population <-
        breed (Z.to_nat pop_size) (population st) (fitness st) [best_ind] ;;
      fitness' <- lift (evaluate new_population) ;;
      ret {| population := new_population;
             fitness := fitness';
             best_hist := best_hist st ++ [best_fit];
             worst_hist := worst_hist st ++ [worst];
             avg_hist := avg_hist st ++ [fmean (fitness st)];
             best_t_hist := best_t_hist st ++ [best_t_gen];
             best_Q_hist := best_Q_hist st ++ [best_Q_gen] |}
  | _ => raise ValueError
  end.

Fixpoint for_generations (n : nat) (st : loop_state) : M loop_state :=
  match n with
  | O => ret st
  | S n' => st' <- generation st ;; for_generations n' st'
  end.

Definition initial_state : M loop_state :=
  population <- initial_population ;;
  fitness <- lift (evaluate population) ;;
  ret {| population := population;
         fitness := fitness;
         best_hist := [];
         worst_hist := [];
         avg_hist := [];
         best_t_hist := [];
         best_Q_hist := [] |}.

Definition final_result (st : loop_state) : outcome result :=
  obind (of_option (argmin (fitness st))) (fun best_idx =>
  obind (index (population st) best_idx) (fun best_ind =>
  obind (index (fitness st) best_idx) (fun best_fit =>
  Ok {| best_individual := best_ind;
        best_fitness := best_fit;
        res_best_hist := best_hist st;
        res_worst_hist := worst_hist st;
        res_avg_hist := avg_hist st;
        res_best_t_hist := best_t_hist st;
        res_best_Q_hist := best_Q_hist st |}))).

Definition run_GA (seed : Z) : M result :=
  _ <- np_seed seed ;;
  st <- initial_state ;;
  st <- for_generations (Z.to_nat generations) st ;;
  lift (final_result st).
End GA.

End Cilindro.

(** ** The script *)

Module CilindroScript.
Import Cilindro.

(** The [__main__] block up to the line it prints about the constraint:
    the run with the default arguments of [run_GA] on the script's bounds,
    the heat flow of the returned design, and the verdict
    ['OK' if best_Q <= Q_max else 'VIOLADA']. *)
Inductive verdict : Type :=
| OK
| VIOLADA.

Record report : Type := {
  best_k : R;
  best_t : R;
  best_Q : npfloat;
  restricao : verdict
}.

Definition main {RS : RandomSource} : M report :=
  let bounds := [(2 / 100, k_max); (5 / 1000, 8 / 100)] in
  result <- run_GA bounds 50 100 (8 / 10) (3 / 10) (3 / 10) 10000 42 ;;
  match best_individual result with
  | [best_k; best_t] =>
      let best_Q := heat_flow best_k best_t in
      ret {| best_k := best_k;
             best_t := best_t;
             best_Q := best_Q;
             restricao := if fleb best_Q (Fin Q_max) then OK else VIOLADA |}
  | _ => raise ValueError
  end.

End CilindroScript.

(** * placa_plana_ga.py *)

Module PlacaPlana.

Definition r_i : R := 3 / 100.
Definition L : R := 1.
Definition T_i : R := 500.
Definition T_inf : R := 75.
Definition dT : R := T_i - T_inf.
Definition h : R := 10.
Definition Q_max : R := 120.
Definition t_min : R := 25 / 1000.
Definition t_max : R := 200 / 1000.
Definition k_min : R := 50 / 1000.
Definition k_max : R := 84 / 1000.

(** The sentinel [1e9]. *)
Definition sentinel : R := 1000000000.

(** [heat_flow], on exact reals with the IEEE specials. *)
Definition heat_flow (k t : R) : npfloat :=
  let r_o := r_i + t in
  let denom :=
    fadd (fdiv (flog (fdiv (Fin r_o) (Fin r_i))) (Fin k))
         (fdiv (Fin 1) (Fin (h * r_o))) in
  fdiv (Fin (2 * PI * L * dT)) denom.

(** A chromosome is the array [[t, k]]. *)
Definition individual : Type := (R * R)%type.

(** [fitness], on exact reals with the IEEE specials: the box test compares
    and does not round; the sum of base cost and penalty as binary64 rounds
    it is [Binary64.penalised]. *)
Definition fitness (ind : individual) (penalty_factor : R) : npfloat :=
  let '(t, k) := ind in
  if negb (Rleb t_min t && Rleb t t_max) || negb (Rleb k_min k && Rleb k k_max)
  then Fin sentinel
  else
    let Q := heat_flow k t in
    let t_norm := (t - t_min) / (t_max - t_min) in
    let k_norm := (k - k_min) / (k_max - k_min) in
    let base_obj := t_norm + k_norm in
    let penalty :=
      if fgtb Q (Fin Q_max)
      then fmul (fsquare (fsub Q (Fin Q_max))) (Fin penalty_factor)
      else Fin 0 in
    fadd (Fin base_obj) penalty.

(** The per-generation history lists and the returned dictionary. *)
Record history : Type := {
  hist_t : list R;
  hist_k : list R;
  hist_Q : list npfloat;
  best_fit : list npfloat;
  mean_fit : list npfloat;
  worst_fit : list npfloat
}.

Record loop_state : Type := {
  pop : list individual;
  fitnesses : list npfloat;
  hist : history
}.

Section GA.
Context {RS : RandomSource}.

Definition init_population (pop_size : Z) : M (list individual) :=
  if (pop_size <? 0)%Z then raise ValueError
  else
    ts <- uniform t_min t_max (Z.to_nat pop_size) ;;
    ks <- uniform k_min k_max (Z.to_nat pop_size) ;;
    ret (combine ts ks).

Definition tournament_selection
    (pop : list individual) (fitnesses : list npfloat) (k_tour : nat)
    : M individual :=
  idxs <- randint (Z.of_nat (length pop)) k_tour ;;
  drawn <- lift (omap (index fitnesses) idxs) ;;
  pos <- lift (of_option (argmin drawn)) ;;
  best_idx <- lift (index idxs pos) ;;
  lift (index pop best_idx).

(** [crossover]: the blend is on exact reals; one gene of it as binary64
    rounds it is [Binary64.child1]. *)
Definition crossover (parent1 parent2 : individual) (pc : R)
    : M (individual * individual) :=
  u <- rand ;;
  if Rltb u pc
  then
    alpha <- rand ;;
    let c1 := (alpha * fst parent1 + (1 - alpha) * fst parent2,
               alpha * snd parent1 + (1 - alpha) * snd parent2) in
    let c2 := (alpha * fst parent2 + (1 - alpha) * fst parent1,
               alpha * snd parent2 + (1 - alpha) * snd parent1) in
    ret (c1, c2)
  else ret (parent1, parent2).

Definition mutate (ind : individual) (pm sigma_t sigma_k : R) : M individual :=
  let '(t, k) := ind in
  u <- rand ;;
  t <- (if Rltb u pm then d <- normal 0 sigma_t ;; ret (t + d) else ret t) ;;
  u <- rand ;;
  k <- (if Rltb u pm then d <- normal 0 sigma_k ;; ret (k + d) else ret k) ;;
  let t := clip t t_min t_max in
  let k := clip k k_min k_max in
  ret (t, k).

Definition sigma_t : R := 5 / 1000.
Definition sigma_k : R := 2 / 1000.
Definition k_tour : nat := 3.

Variables pop_size generations : Z.
Variables pc pm penalty_factor : R.

Definition evaluate (pop : list individual) : list npfloat :=
  map (fun ind => fitness ind penalty_factor) pop.

(** [while len(new_pop) < pop_size: ...] *)
Fixpoint breed (fuel : nat) (pop : list individual) (fitnesses : list npfloat)
    (new_pop : list individual) : M (list individual) :=
  if (Z.of_nat (length new_pop) <? pop_size)%Z then
    match fuel with
    | O => raise OutOfFuel
    | S fuel' =>
        p1 <- tournament_selection pop fitnesses k_tour ;;
        p2 <- tournament_selection pop fitnesses k_tour ;;
        '(c1, c2) <- crossover p1 p2 pc ;;
        c1 <- mutate c1 pm sigma_t sigma_k ;;
        c2 <- mutate c2 pm sigma_t sigma_k ;;
        let new_pop := new_pop ++ [c1] in
        let new_pop :=
          if (Z.of_nat (length new_pop) <? pop_size)%Z
          then new_pop ++ [c2] else new_pop in
        breed fuel' pop fitnesses new_pop
    end
  else ret new_pop.

(** The body of [for gen in range(generations)]. *)
Definition generation (st : loop_state) : M loop_state :=
  best_idx <- lift (of_option (argmin (fitnesses st))) ;;
  worst_idx <- lift (of_option (argmax (fitnesses st))) ;;
  best_fit_gen <- lift (index (fitnesses st) best_idx) ;;
  worst_fit_gen <- lift (index (fitnesses st) worst_idx) ;;
  let mean_fit_gen := fmean (fitnesses st) in
  best_ind <- lift (index (pop st) best_idx) ;;
  let '(t_best, k_best) := best_ind in
  let Q_best := heat_flow k_best t_best in
  new_pop <- breed (Z.to_nat pop_size) (pop st) (fitnesses st) [best_ind] ;;
  ret {| pop := new_pop;
         fitnesses := evaluate new_pop;
         hist := {| hist_t := hist_t (hist st) ++ [t_best];
                    hist_k := hist_k (hist st) ++ [k_best];
                    hist_Q := hist_Q (hist st) ++ [Q_best];
                    best_fit := best_fit (hist st) ++ [best_fit_gen];
                    mean_fit := mean_fit (hist st) ++ [mean_fit_gen];
                    worst_fit := worst_fit (hist st) ++ [worst_fit_gen] |} |}.

Fixpoint for_generations (n : nat) (st : loop_state) : M loop_state :=
  match n with
  | O => ret st
  | S n' => st' <- generation st ;; for_generations n' st'
  end.

Definition initial_state : M loop_state :=
  pop <- init_population pop_size ;;
  ret {| pop := pop;
         fitnesses := evaluate pop;
         hist := {| hist_t := []; hist_k := []; hist_Q := [];
                    best_fit := []; mean_fit := []; worst_fit := [] |} |}.

(** The tuple [(t_best, k_best, Q_best, history)]. *)
Definition final_result (st : loop_state)
    : outcome (R * R * npfloat * history) :=
  obind (of_option (argmin (fitnesses st))) (fun best_idx =>
  obind (index (pop st) best_idx) (fun best =>
  let '(t_best, k_best) := best in
  let Q_best := heat_flow k_best t_best in
  Ok (t_best, k_best, Q_best, hist st))).

(** No call seeds the generator: the run starts from the state it finds. *)
Definition run_GA : M (R * R * npfloat * history) :=
  st <- initial_state ;;
  st <- for_generations (Z.to_nat generations) st ;;
  lift (final_result st).
End GA.

End PlacaPlana.

(** * Selection and the arrays it returns *)

(** numpy arrays are mutable and [population[i]] is a view of row [i], not
    a new array.  To tell a view from a copy the rows live in a store: a
    reference is a position in the store, a view of a row is the reference
    of that row, [.copy()] appends a new row with the same content and
    returns its reference. *)
Definition ref : Type := nat.

Definition store (A : Type) : Type := list A.

Section CopyAndView.
Context {RS : RandomSource}.

(** [a.copy()] *)
Definition np_copy {A : Type} (r : ref) (h : store A) : M (ref * store A) :=
  match nth_error h r with
  | Some v => ret (length h, h ++ [v])
  | None => raise IndexError
  end.

End CopyAndView.

Module CilindroStore.
Section Selection.
Context {RS : RandomSource}.
Variable pop_size : Z.

(** The closure [tournament_selection] on references: it returns the view
    [population[i1]] or [population[i2]] and touches no array. *)
Definition tournament_selection
    (population : list ref) (fitness : list npfloat) (h : store (list R))
    : M (ref * store (list R)) :=
  idx <- randint pop_size 2 ;;
  match idx with
  | [i1; i2] =>
      f1 <- lift (index fitness i1) ;;
      f2 <- lift (index fitness i2) ;;
      r <- (if fltb f1 f2 then lift (index population i1)
            else lift (index population i2)) ;;
      ret (r, h)
  | _ => raise ValueError
  end.

(** The call site: [parent = tournament_selection().copy()]. *)
Definition selected_parent
    (population : list ref) (fitness : list npfloat) (h : store (list R))
    : M (ref * store (list R)) :=
  ' (r, h1) <- tournament_selection population fitness h ;;
  np_copy r h1.

End Selection.
End CilindroStore.

Module PlacaPlanaStore.
Section Selection.
Context {RS : RandomSource}.

(** [tournament_selection] on references: it returns
    [pop[best_idx].copy()]. *)
Definition tournament_selection
    (pop : list ref) (fitnesses : list npfloat) (k_tour : nat)
    (h : store PlacaPlana.individual) : M (ref * store PlacaPlana.individual) :=
  idxs <- randint (Z.of_nat (length pop)) k_tour ;;
  drawn <- lift (omap (index fitnesses) idxs) ;;
  pos <- lift (of_option (argmin drawn)) ;;
  best_idx <- lift (index idxs pos) ;;
  r <- lift (index pop best_idx) ;;
  np_copy r h.

End Selection.
End PlacaPlanaStore.

(** The rows [refs] point at in the store [h] are the rows [rows]. *)
Definition holds {A : Type} (h : store A) (refs : list ref) (rows : list A) : Prop :=
  Forall2 (fun r v => nth_error h r = Some v) refs rows.

(** * A concrete random source *)

(** A generator that replays three scripts: the state is the number of
    draws made so far.  A scripted sample outside [[0, 1)] is replaced by
    zero and a scripted integer is reduced modulo the range, so the source
    respects the ranges whatever the scripts are. *)
Definition unit_sample (u : R) : R :=
  if Rleb 0 u && Rltb u 1 then u else 0.

Lemma unit_sample_range (u : R) : 0 <= unit_sample u < 1.
Proof.
  unfold unit_sample, Rleb, Rltb.
  destruct (Rle_dec 0 u); destruct (Rlt_dec u 1); simpl; lra.
Qed.

Definition scripted (us : nat -> R) (js : nat -> nat) (zs : nat -> R) : RandomSource :=
  {| rng := nat;
     seed := fun s => Z.to_nat s;
     random_sample := fun n => (unit_sample (us n), S n);
     random_below := fun m n => (js n mod m, S n)%nat;
     standard_normal := fun n => (zs n, S n);
     random_sample_unit := fun n => unit_sample_range (us n);
     random_below_range := fun m n (H : (0 < m)%nat) =>
       Nat.mod_upper_bound (js n) m (Nat.neq_sym _ _ (Nat.lt_neq _ _ H)) |}.

(** Every sample is one half, every integer zero, every normal draw -1. *)
Definition steady : RandomSource :=
  scripted (fun _ => 1 / 2) (fun _ => 0%nat) (fun _ => -1).

(** The samples depend on the state: zero at the first draw, one half at
    the later ones. *)
Definition drifting : RandomSource :=
  scripted (fun n => match n with O => 0 | S _ => 1 / 2 end)
           (fun _ => 0%nat) (fun _ => -1).

(** * Facts about the numeric layer *)

Lemma Rltb_true (x y : R) : Rltb x y = true <-> x < y.
Proof. unfold Rltb. destruct (Rlt_dec x y); split; intros; try discriminate; tauto. Qed.

Lemma Rltb_false (x y : R) : Rltb x y = false <-> y <= x.
Proof.
  unfold Rltb. destruct (Rlt_dec x y); split; intros; try discriminate; try lra; auto.
Qed.

Lemma Rleb_true (x y : R) : Rleb x y = true <-> x <= y.
Proof. unfold Rleb. destruct (Rle_dec x y); split; intros; try discriminate; tauto. Qed.

Lemma Rleb_false (x y : R) : Rleb x y = false <-> y < x.
Proof.
  unfold Rleb. destruct (Rle_dec x y); split; intros; try discriminate; try lra; auto.
Qed.

Lemma Reqb_true (x y : R) : Reqb x y = true <-> x = y.
Proof. unfold Reqb. destruct (Req_dec_T x y); split; intros; try discriminate; tauto. Qed.

Lemma Reqb_false (x y : R) : Reqb x y = false <-> x <> y.
Proof. unfold Reqb. destruct (Req_dec_T x y); split; intros; try discriminate; tauto. Qed.

(** Decide every real comparison in the goal and the context. *)
Ltac rcases :=
  repeat match goal with
  | H : context [Rltb ?x ?y] |- _ =>
      let E := fresh "E" in
      destruct (Rltb x y) eqn:E;
      [apply Rltb_true in E | apply Rltb_false in E]
  | |- context [Rltb ?x ?y] =>
      let E := fresh "E" in
      destruct (Rltb x y) eqn:E;
      [apply Rltb_true in E | apply Rltb_false in E]
  | H : context [Rleb ?x ?y] |- _ =>
      let E := fresh "E" in
      destruct (Rleb x y) eqn:E;
      [apply Rleb_true in E | apply Rleb_false in E]
  | |- context [Rleb ?x ?y] =>
      let E := fresh "E" in
      destruct (Rleb x y) eqn:E;
      [apply Rleb_true in E | apply Rleb_false in E]
  | H : context [Reqb ?x ?y] |- _ =>
      let E := fresh "E" in
      destruct (Reqb x y) eqn:E;
      [apply Reqb_true in E | apply Reqb_false in E]
  | |- context [Reqb ?x ?y] =>
      let E := fresh "E" in
      destruct (Reqb x y) eqn:E;
      [apply Reqb_true in E | apply Reqb_false in E]
  end.

Definition not_nan (a : npfloat) : Prop := a <> NaN.

Lemma fle_refl (a : npfloat) : not_nan a -> fle a a.
Proof.
  unfold not_nan, fle. destruct a; simpl; intros H; try reflexivity; try congruence.
  apply Rleb_true. lra.
Qed.

Lemma fle_trans (a b c : npfloat) : fle a b -> fle b c -> fle a c.
Proof.
  unfold fle. destruct a, b, c; simpl; try discriminate; try reflexivity.
  rewrite !Rleb_true. lra.
Qed.

Lemma fle_total (a b : npfloat) :
  not_nan a -> not_nan b -> fleb a b = false -> fle b a.
Proof.
  unfold not_nan, fle. destruct a, b; simpl; try discriminate; try reflexivity; try congruence.
  rewrite Rleb_false, Rleb_true. lra.
Qed.

Lemma fltb_fle (a b : npfloat) : fltb a b = true -> fle a b.
Proof.
  unfold fle. destruct a, b; simpl; try discriminate; try reflexivity.
  rewrite Rltb_true, Rleb_true. lra.
Qed.

Lemma fltb_false_fle (a b : npfloat) :
  not_nan a -> not_nan b -> fltb a b = false -> fle b a.
Proof.
  unfold not_nan, fle. destruct a, b; simpl; try discriminate; try reflexivity; try congruence.
  rewrite Rltb_false, Rleb_true. lra.
Qed.

Lemma fle_not_nan_l (a b : npfloat) : fle a b -> not_nan a.
Proof. unfold fle, not_nan. destruct a; simpl; try discriminate; congruence. Qed.

Lemma fle_not_nan_r (a b : npfloat) : fle a b -> not_nan b.
Proof. unfold fle, not_nan. destruct a, b; simpl; try discriminate; congruence. Qed.

Lemma is_nan_false (a : npfloat) : not_nan a -> is_nan a = false.
Proof. unfold not_nan. destruct a; simpl; congruence. Qed.

Lemma clip_range (x lo hi : R) : lo <= hi -> lo <= clip x lo hi <= hi.
Proof.
  intros H. unfold clip, Rmin, Rmax.
  destruct (Rle_dec x lo); destruct (Rle_dec _ hi); lra.
Qed.

Lemma clip_id (x lo hi : R) : lo <= x <= hi -> clip x lo hi = x.
Proof.
  intros H. unfold clip, Rmin, Rmax.
  destruct (Rle_dec x lo); destruct (Rle_dec _ hi); lra.
Qed.

(** ** [argmin] *)

Lemma argmin_scan_bound (ip : list npfloat) :
  forall mp min_ind i,
    (min_ind < i)%nat -> (argmin_scan mp min_ind i ip < i + length ip)%nat.
Proof.
  induction ip as [|x rest IH]; intros mp min_ind i Hlt; simpl.
  - lia.
  - destruct (is_nan mp); [lia|].
    destruct (negb (fgeb x mp)).
    + specialize (IH x i (S i)). lia.
    + specialize (IH mp min_ind (S i)). lia.
Qed.

Lemma argmin_bound (l : list npfloat) (r : nat) :
  argmin l = Some r -> (r < length l)%nat.
Proof.
  destruct l as [|x rest]; simpl; [discriminate|].
  intros H. injection H as <-.
  pose proof (argmin_scan_bound rest x 0%nat 1%nat). lia.
Qed.

Lemma argmax_scan_bound (ip : list npfloat) :
  forall mp max_ind i,
    (max_ind < i)%nat -> (argmax_scan mp max_ind i ip < i + length ip)%nat.
Proof.
  induction ip as [|x rest IH]; intros mp max_ind i Hlt; simpl.
  - lia.
  - destruct (is_nan mp); [lia|].
    destruct (negb (fleb x mp)).
    + specialize (IH x i (S i)). lia.
    + specialize (IH mp max_ind (S i)). lia.
Qed.

Lemma argmax_bound (l : list npfloat) (r : nat) :
  argmax l = Some r -> (r < length l)%nat.
Proof.
  destruct l as [|x rest]; simpl; [discriminate|].
  intros H. injection H as <-.
  pose proof (argmax_scan_bound rest x 0%nat 1%nat). lia.
Qed.

Lemma argmax_nonempty (l : list npfloat) :
  l <> [] -> exists r, argmax l = Some r.
Proof. destruct l; [congruence|]. intros _. eexists. reflexivity. Qed.

Lemma argmin_nonempty (l : list npfloat) :
  l <> [] -> exists r, argmin l = Some r.
Proof. destruct l; [congruence|]. intros _. eexists. reflexivity. Qed.

(** On an array without nan, the scan ends on a least element. *)
Lemma argmin_scan_least (l : list npfloat) (ip : list npfloat) :
  forall mp min_ind i,
    Forall not_nan l ->
    nth_error l min_ind = Some mp ->
    (forall j, nth_error ip j = nth_error l (i + j)) ->
    exists v, nth_error l (argmin_scan mp min_ind i ip) = Some v /\
              fle v mp /\ forall y, In y ip -> fle v y.
Proof.
  induction ip as [|x rest IH]; intros mp min_ind i Hnan Hmp Hsuf; simpl.
  - exists mp. split; [assumption|]. split.
    + apply fle_refl. rewrite Forall_forall in Hnan. apply Hnan.
      eapply nth_error_In; eauto.
    + intros y [].
  - assert (Hmpn : not_nan mp).
    { rewrite Forall_forall in Hnan. apply Hnan. eapply nth_error_In; eauto. }
    assert (Hx : nth_error l i = Some x).
    { specialize (Hsuf 0%nat). simpl in Hsuf. rewrite Nat.add_0_r in Hsuf. auto. }
    assert (Hxn : not_nan x).
    { rewrite Forall_forall in Hnan. apply Hnan. eapply nth_error_In; eauto. }
    assert (Hrest : forall j, nth_error rest j = nth_error l (S i + j)).
    { intros j. specialize (Hsuf (S j)). simpl in Hsuf.
      rewrite Hsuf. f_equal. lia. }
    rewrite (is_nan_false mp Hmpn).
    unfold fgeb. destruct (fleb mp x) eqn:Hle; simpl.
    + destruct (IH mp min_ind (S i) Hnan Hmp Hrest) as (v & Hv & Hvm & Hall).
      exists v. split; [assumption|]. split; [assumption|].
      intros y [<-|Hy]; [eapply fle_trans; eauto | auto].
    + pose proof (fle_total mp x Hmpn Hxn Hle) as Hxm.
      destruct (IH x i (S i) Hnan Hx Hrest) as (v & Hv & Hvx & Hall).
      exists v. split; [assumption|]. split; [eapply fle_trans; eauto|].
      intros y [<-|Hy]; auto.
Qed.

Lemma argmin_least (l : list npfloat) (r : nat) :
  Forall not_nan l -> argmin l = Some r ->
  exists v, nth_error l r = Some v /\ forall y, In y l -> fle v y.
Proof.
  destruct l as [|x rest]; simpl; [discriminate|].
  intros Hnan H. injection H as <-.
  destruct (argmin_scan_least (x :: rest) rest x 0%nat 1%nat Hnan eq_refl)
    as (v & Hv & Hvx & Hall).
  { intros j. reflexivity. }
  exists v. split; [assumption|].
  intros y [<-|Hy]; auto.
Qed.

(** * Reasoning about computations *)

Section MonadFacts.
Context {RS : RandomSource}.

Lemma bind_Ok {A B : Type} (m : M A) (k : A -> M B) g b g' :
  bind m k g = Ok (b, g') ->
  exists a g1, m g = Ok (a, g1) /\ k a g1 = Ok (b, g').
Proof.
  unfold bind. destruct (m g) as [[a g1]|e]; [|discriminate].
  intros H. exists a, g1. auto.
Qed.

Lemma bind_run {A B : Type} (m : M A) (k : A -> M B) g a g1 :
  m g = Ok (a, g1) -> bind m k g = k a g1.
Proof. unfold bind. intros ->. reflexivity. Qed.

Lemma ret_Ok {A : Type} (a b : A) g g' :
  ret a g = Ok (b, g') -> b = a /\ g' = g.
Proof. unfold ret. intros H. injection H as -> ->. auto. Qed.

Lemma lift_Ok {A : Type} (o : outcome A) g a g' :
  lift o g = Ok (a, g') -> o = Ok a /\ g' = g.
Proof. unfold lift. destruct o; [|discriminate]. intros H. injection H as -> ->. auto. Qed.

Lemma raise_Ok {A : Type} (e : exn) g (x : A * rng) : raise e g = Ok x -> False.
Proof. unfold raise. discriminate. Qed.

Lemma rand_Ok g u g' :
  rand g = Ok (u, g') -> 0 <= u < 1 /\ (u, g') = random_sample g.
Proof.
  unfold rand. intros H. injection H as H.
  pose proof (random_sample_unit g) as Hu. rewrite H in Hu. simpl in Hu. auto.
Qed.

Lemma rand_total g : exists u g', rand g = Ok (u, g') /\ 0 <= u < 1.
Proof.
  unfold rand. pose proof (random_sample_unit g) as Hu.
  destruct (random_sample g) as [u g']. exists u, g'. auto.
Qed.
Lemma lift_run {A : Type} (o : outcome A) (a : A) (g : rng) :
  o = Ok a -> lift o g = Ok (a, g).
Proof. intros ->. reflexivity. Qed.

Lemma valid_seed_test (s : Z) :
  ((0 <=? s) && (s <=? max_seed))%Z = true <-> valid_seed s.
Proof. unfold valid_seed. rewrite andb_true_iff, !Z.leb_le. tauto. Qed.

Lemma np_seed_run (s : Z) (g : rng) : valid_seed s -> np_seed s g = Ok (tt, seed s).
Proof.
  intros H. unfold np_seed. rewrite (proj2 (valid_seed_test s) H). reflexivity.
Qed.

Lemma np_seed_Ok (s : Z) (g : rng) u g' :
  np_seed s g = Ok (u, g') -> valid_seed s /\ g' = seed s.
Proof.
  unfold np_seed. destruct ((0 <=? s) && (s <=? max_seed))%Z eqn:E; [|discriminate].
  intros H. injection H as _ <-. split; [apply valid_seed_test; exact E | reflexivity].
Qed.

Lemma np_seed_refuses (s : Z) (g : rng) :
  ~ valid_seed s -> np_seed s g = Raise ValueError.
Proof.
  intros H. unfold np_seed.
  destruct ((0 <=? s) && (s <=? max_seed))%Z eqn:E; [|reflexivity].
  apply valid_seed_test in E. contradiction.
Qed.

Lemma valid_seed_dec (s : Z) : valid_seed s \/ ~ valid_seed s.
Proof. unfold valid_seed. lia. Qed.
End MonadFacts.

(** The seed of the script, 42, is one numpy takes. *)
Lemma script_seed_valid : valid_seed 42.
Proof. unfold valid_seed, max_seed. lia. Qed.

Lemma obind_Ok {A B : Type} (m : outcome A) (k : A -> outcome B) b :
  obind m k = Ok b -> exists a, m = Ok a /\ k a = Ok b.
Proof. destruct m; simpl; [|discriminate]. eauto. Qed.

Lemma index_Ok {A : Type} (xs : list A) i x :
  index xs i = Ok x -> nth_error xs i = Some x.
Proof. unfold index. destruct (nth_error xs i); [|discriminate]. congruence. Qed.

Lemma index_In {A : Type} (xs : list A) i x : index xs i = Ok x -> In x xs.
Proof. intros H. apply index_Ok in H. eapply nth_error_In; eauto. Qed.

Lemma index_total {A : Type} (xs : list A) i :
  (i < length xs)%nat -> exists x, index xs i = Ok x.
Proof.
  intros H. unfold index. destruct (nth_error xs i) eqn:E; [eauto|].
  apply nth_error_None in E. lia.
Qed.

Lemma of_option_Ok {A : Type} (o : option A) x : of_option o = Ok x -> o = Some x.
Proof. destruct o; simpl; [|discriminate]. congruence. Qed.

Lemma omap_Ok {A B : Type} (f : A -> outcome B) (xs : list A) (ys : list B) :
  omap f xs = Ok ys -> Forall2 (fun x y => f x = Ok y) xs ys.
Proof.
  revert ys. induction xs as [|x xs IH]; simpl; intros ys H.
  - injection H as <-. constructor.
  - apply obind_Ok in H. destruct H as (y & Hy & H).
    apply obind_Ok in H. destruct H as (ys' & Hys & H).
    injection H as <-. constructor; auto.
Qed.

Lemma omap_total {A B : Type} (f : A -> outcome B) (xs : list A) :
  Forall (fun x => exists y, f x = Ok y) xs -> exists ys, omap f xs = Ok ys.
Proof.
  induction 1 as [|x xs [y Hy] _ [ys Hys]]; simpl.
  - eauto.
  - rewrite Hy. simpl. rewrite Hys. simpl. eauto.
Qed.

(** Take one step of a successful computation apart. *)
Ltac mstep H :=
  first
    [ apply ret_Ok in H; destruct H as [? ?]; subst
    | apply raise_Ok in H; contradiction
    | let a := fresh "a" in
      let g := fresh "g" in
      let H1 := fresh "Hm" in
      apply bind_Ok in H; destruct H as (a & g & H1 & H) ].

(** The same for a bind, naming the value, the state and the first run. *)
Tactic Notation "mbind" hyp(H) "as" simple_intropattern(a) ident(g) ident(H1) :=
  apply bind_Ok in H; destruct H as (a & g & H1 & H).

(** * cilindro_ga.py: the objective *)

Module CilindroObjective.
Import Cilindro.

Lemma r1_pos : 0 < r1.
Proof. unfold r1. lra. Qed.

(** The quotient [r2 / r1] is always finite: [r1] is a positive constant. *)
Lemma radius_ratio (t : R) : fdiv (Fin (r1 + t)) (Fin r1) = Fin ((r1 + t) / r1).
Proof.
  simpl. pose proof r1_pos. rcases; [lra | reflexivity].
Qed.

Lemma radius_ratio_one (t : R) : (r1 + t) / r1 = 1 <-> t = 0.
Proof.
  unfold r1. split; intros H.
  - apply (f_equal (fun x => x * (5 / 10))) in H. field_simplify in H. lra.
  - subst. field.
Qed.

Lemma ln_zero_iff (x : R) : 0 < x -> (ln x = 0 <-> x = 1).
Proof.
  intros Hx. split; intros H.
  - apply ln_inv; [assumption | lra |]. rewrite ln_1. assumption.
  - subst. apply ln_1.
Qed.

Lemma numerator_sign (k : R) :
  (0 < 2 * PI * k * L * dT <-> 0 < k) /\ (2 * PI * k * L * dT < 0 <-> k < 0).
Proof.
  pose proof PI_RGT_0 as Hpi. unfold L, dT.
  assert (H : 2 * PI * k * 2 * 180 = (720 * PI) * k) by ring.
  rewrite H. assert (Hc : 0 < 720 * PI) by lra.
  split; split; intros Hk; nra.
Qed.

(** The heat flow is [+inf] exactly at zero thickness and positive
    conductivity. *)
Lemma heat_flow_PInf (k t : R) : heat_flow k t = PInf <-> t = 0 /\ 0 < k.
Proof.
  unfold heat_flow. rewrite radius_ratio.
  destruct (numerator_sign k) as [Hp Hn].
  pose proof (radius_ratio_one t) as Hone.
  cbn [flog]. rcases; cbn [fdiv]; unfold scaled_inf; rcases;
    try (split; [discriminate | intros [-> Hk]]);
    try (split; [intros _ | reflexivity]);
    try (assert (Hr : (r1 + 0) / r1 = 1) by (apply radius_ratio_one; reflexivity));
    try (rewrite ln_zero_iff in * by assumption);
    try tauto; try lra.
  all: try (rewrite Hr in *; rewrite ?ln_1 in *; try lra; try tauto).
  all: try (exfalso; rewrite ln_zero_iff in * by lra; tauto).
Qed.
End CilindroObjective.

(** The penalty of the specification, [penalty_factor * max(0, violation)^2]. *)
Definition quadratic_penalty (penalty_factor violation : R) : R :=
  penalty_factor * (Rmax 0 violation) ^ 2.

Lemma quadratic_penalty_zero (pf v : R) : v <= 0 -> quadratic_penalty pf v = 0.
Proof.
  intros H. unfold quadratic_penalty, Rmax. destruct (Rle_dec 0 v); [|ring].
  assert (v = 0) by lra. subst. ring.
Qed.

Lemma quadratic_penalty_pos (pf v : R) : 0 < v -> quadratic_penalty pf v = pf * v ^ 2.
Proof.
  intros H. unfold quadratic_penalty, Rmax. destruct (Rle_dec 0 v); [reflexivity | lra].
Qed.

Module CilindroObjectiveFacts.
Import Cilindro CilindroObjective.

Lemma objective_length (ind : list R) (pf : R) (f : npfloat) :
  objective ind pf = Ok f -> length ind = 2%nat.
Proof.
  destruct ind as [|k [|t [|x rest]]]; simpl; try discriminate. reflexivity.
Qed.

Lemma objective_total (ind : list R) (pf : R) :
  length ind = 2%nat -> exists f, objective ind pf = Ok f.
Proof.
  destruct ind as [|k [|t [|x rest]]]; simpl; try discriminate.
  intros _. eexists. reflexivity.
Qed.

(** With a finite heat flow the objective is the thickness plus the two
    quadratic penalties. *)
Lemma objective_finite_flow (k t pf q : R) :
  heat_flow k t = Fin q ->
  objective [k; t] pf =
    Ok (Fin (t + quadratic_penalty pf (q - Q_max)
               + quadratic_penalty pf (k - k_max))).
Proof.
  intros HQ. unfold objective. rewrite HQ. unfold fgtb. cbn.
  rcases; cbn; f_equal; f_equal.
  all: repeat first [ rewrite quadratic_penalty_pos by lra
                    | rewrite quadratic_penalty_zero by lra ].
  all: ring.
Qed.

(** A nan or [-inf] heat flow fails the test [Q > Q_max]: only the
    conductivity penalty is left. *)
Lemma objective_unordered_flow (k t pf : R) :
  heat_flow k t = NaN \/ heat_flow k t = NInf ->
  objective [k; t] pf = Ok (Fin (t + quadratic_penalty pf (k - k_max))).
Proof.
  intros HQ. unfold objective. destruct HQ as [-> | ->]; unfold fgtb; cbn.
  all: rcases; cbn; f_equal; f_equal.
  all: repeat first [ rewrite quadratic_penalty_pos by lra
                    | rewrite quadratic_penalty_zero by lra ].
  all: ring.
Qed.

Lemma objective_infinite_flow (k t pf : R) :
  heat_flow k t = PInf ->
  objective [k; t] pf = Ok (scaled_inf pf true).
Proof.
  intros HQ. unfold objective. rewrite HQ. unfold fgtb. cbn.
  unfold scaled_inf. rcases; cbn; reflexivity.
Qed.

Lemma objective_finite_iff (k t pf : R) :
  (exists x, objective [k; t] pf = Ok (Fin x)) <-> ~ (t = 0 /\ 0 < k).
Proof.
  rewrite <- heat_flow_PInf. split.
  - intros [x Hx] HQ. rewrite (objective_infinite_flow _ _ _ HQ) in Hx.
    unfold scaled_inf in Hx. rcases; discriminate.
  - intros HQ. destruct (heat_flow k t) as [q| | |] eqn:E.
    + rewrite (objective_finite_flow _ _ _ _ E). eauto.
    + congruence.
    + rewrite objective_unordered_flow by auto. eauto.
    + rewrite objective_unordered_flow by auto. eauto.
Qed.

Lemma objective_not_nan (ind : list R) (pf : R) (f : npfloat) :
  pf <> 0 -> objective ind pf = Ok f -> not_nan f.
Proof.
  intros Hpf H. pose proof (objective_length _ _ _ H) as Hlen.
  destruct ind as [|k [|t [|x rest]]]; simpl in Hlen; try discriminate.
  destruct (heat_flow k t) as [q| | |] eqn:E.
  - rewrite (objective_finite_flow _ _ _ _ E) in H. injection H as <-. discriminate.
  - rewrite (objective_infinite_flow _ _ _ E) in H. injection H as <-.
    unfold scaled_inf, not_nan. rcases; try discriminate. lra.
  - rewrite objective_unordered_flow in H by auto. injection H as <-. discriminate.
  - rewrite objective_unordered_flow in H by auto. injection H as <-. discriminate.
Qed.

(** With a positive thickness the heat flow is the finite number of the
    formula. *)
Lemma heat_flow_positive_thickness (k t : R) :
  0 < t ->
  heat_flow k t = Fin (2 * PI * k * L * dT / ln ((r1 + t) / r1)).
Proof.
  intros Ht. unfold heat_flow. rewrite radius_ratio. pose proof r1_pos as Hr.
  assert (Hratio : 1 < (r1 + t) / r1).
  { apply Rmult_lt_reg_r with r1; [assumption|].
    unfold Rdiv. rewrite Rmult_assoc, Rinv_l by lra. lra. }
  assert (Hln : 0 < ln ((r1 + t) / r1)).
  { rewrite <- ln_1. apply ln_increasing; lra. }
  cbn [flog]. rcases; try lra. cbn [fdiv]. rcases; try lra. reflexivity.
Qed.

(** With zero conductivity no heat flows and nothing is penalised. *)
Lemma objective_zero_conductivity (k t pf : R) :
  k = 0 -> 0 < t -> objective [k; t] pf = Ok (Fin t).
Proof.
  intros -> Ht.
  rewrite (objective_finite_flow 0 t pf _ (heat_flow_positive_thickness 0 t Ht)).
  replace (2 * PI * 0 * L * dT / ln ((r1 + t) / r1)) with 0
    by (unfold Rdiv; ring).
  rewrite !quadratic_penalty_zero by (unfold Q_max, k_max; lra).
  do 2 f_equal. ring.
Qed.

End CilindroObjectiveFacts.

(** * placa_plana_ga.py: the fitness *)

Module PlacaPlanaFitness.
Import PlacaPlana.

Definition in_box (ind : individual) : Prop :=
  t_min <= fst ind <= t_max /\ k_min <= snd ind <= k_max.

Lemma box_test (t k : R) :
  negb (Rleb t_min t && Rleb t t_max) || negb (Rleb k_min k && Rleb k k_max) = false
  <-> in_box (t, k).
Proof.
  unfold in_box. simpl. rcases; simpl; split; intros H; try discriminate;
    try reflexivity; lra.
Qed.

(** The denominator of the heat flow, on reals. *)
Definition denominator (k t : R) : R :=
  ln ((r_i + t) / r_i) / k + 1 / (h * (r_i + t)).

Lemma denominator_pos (k t : R) : in_box (t, k) -> 0 < denominator k t.
Proof.
  unfold in_box, denominator, t_min, t_max, k_min, k_max, r_i, h. simpl.
  intros [Ht Hk].
  assert (Hr : 1 < (3 / 100 + t) / (3 / 100)).
  { apply Rmult_lt_reg_r with (3 / 100); [lra|]. field_simplify. lra. }
  assert (Hln : 0 < ln ((3 / 100 + t) / (3 / 100))).
  { rewrite <- ln_1. apply ln_increasing; lra. }
  assert (H1 : 0 < ln ((3 / 100 + t) / (3 / 100)) / k).
  { apply Rdiv_lt_0_compat; lra. }
  assert (H2 : 0 < 1 / (10 * (3 / 100 + t))).
  { apply Rdiv_lt_0_compat; lra. }
  lra.
Qed.

(** Inside the box the heat flow is a finite number. *)
Lemma heat_flow_in_box (k t : R) :
  in_box (t, k) ->
  heat_flow k t = Fin (2 * PI * L * dT / denominator k t).
Proof.
  intros Hbox. pose proof (denominator_pos k t Hbox) as Hden.
  unfold in_box, t_min, t_max, k_min, k_max in Hbox. simpl in Hbox.
  destruct Hbox as [Ht Hk].
  unfold heat_flow. unfold denominator in *.
  assert (Hri : Reqb r_i 0 = false) by (apply Reqb_false; unfold r_i; lra).
  assert (Hr : Rltb 0 ((r_i + t) / r_i) = true).
  { apply Rltb_true. apply Rdiv_lt_0_compat; unfold r_i; lra. }
  assert (Hk0 : Reqb k 0 = false) by (apply Reqb_false; lra).
  assert (Hh : Reqb (h * (r_i + t)) 0 = false).
  { apply Reqb_false. unfold h, r_i. lra. }
  cbn [fdiv flog fadd]. rewrite Hri. cbn [flog]. rewrite Hr.
  cbn [fdiv]. rewrite Hk0, Hh. cbn [fadd fdiv].
  assert (Hd : Reqb (ln ((r_i + t) / r_i) / k + 1 / (h * (r_i + t))) 0 = false).
  { apply Reqb_false. lra. }
  rewrite Hd. reflexivity.
Qed.

Definition base_obj (ind : individual) : R :=
  (fst ind - t_min) / (t_max - t_min) + (snd ind - k_min) / (k_max - k_min).

Lemma fitness_out_of_box (ind : individual) (pf : R) :
  ~ in_box ind -> fitness ind pf = Fin sentinel.
Proof.
  destruct ind as [t k]. intros H. unfold fitness.
  destruct (negb (Rleb t_min t && Rleb t t_max)
            || negb (Rleb k_min k && Rleb k k_max)) eqn:E; [reflexivity|].
  apply box_test in E. contradiction.
Qed.

Lemma fitness_in_box (ind : individual) (pf : R) :
  in_box ind ->
  fitness ind pf =
    Fin (base_obj ind +
         quadratic_penalty pf
           (2 * PI * L * dT / denominator (snd ind) (fst ind) - Q_max)).
Proof.
  destruct ind as [t k]. intros H. unfold fitness.
  rewrite (proj2 (box_test t k) H). rewrite (heat_flow_in_box k t H).
  unfold fgtb, base_obj. cbn.
  rcases; cbn; f_equal.
  all: repeat first [ rewrite quadratic_penalty_pos by lra
                    | rewrite quadratic_penalty_zero by lra ].
  all: ring.
Qed.

Lemma in_box_dec (ind : individual) : in_box ind \/ ~ in_box ind.
Proof.
  destruct ind as [t k].
  destruct (negb (Rleb t_min t && Rleb t t_max)
            || negb (Rleb k_min k && Rleb k k_max)) eqn:E.
  - right. intros H. apply box_test in H. congruence.
  - left. apply box_test. assumption.
Qed.

(** On exact reals, where the penalty product cannot overflow, the
    fitness is a [Fin] for every chromosome and every penalty factor. *)
Lemma fitness_finite (ind : individual) (pf : R) :
  exists x, fitness ind pf = Fin x.
Proof.
  destruct (in_box_dec ind) as [H|H].
  - rewrite (fitness_in_box ind pf H). eauto.
  - rewrite (fitness_out_of_box ind pf H). eauto.
Qed.

Lemma fitness_not_nan (ind : individual) (pf : R) : not_nan (fitness ind pf).
Proof. destruct (fitness_finite ind pf) as [x ->]. discriminate. Qed.

(** Inside the box the heat flow stays between zero and 7820 W: the
    convection term alone keeps the denominator above [1 / 2.3]. *)
Lemma heat_flow_range (k t : R) :
  in_box (t, k) -> 0 < 2 * PI * L * dT / denominator k t <= 7820.
Proof.
  intros Hbox. pose proof (denominator_pos k t Hbox) as Hden.
  unfold in_box, t_min, t_max, k_min, k_max in Hbox. simpl in Hbox.
  destruct Hbox as [Ht Hk].
  pose proof PI_RGT_0 as Hpi. pose proof PI_4 as Hpi4.
  assert (Hnum : 0 < 2 * PI * L * dT <= 3400)
    by (unfold L, dT, T_i, T_inf; lra).
  assert (Hlow : 10 / 23 <= denominator k t).
  { unfold denominator, r_i, h.
    assert (Hr : 1 < (3 / 100 + t) / (3 / 100)).
    { apply Rmult_lt_reg_r with (3 / 100); [lra|]. field_simplify. lra. }
    assert (Hln : 0 < ln ((3 / 100 + t) / (3 / 100))).
    { rewrite <- ln_1. apply ln_increasing; lra. }
    assert (H1 : 0 < ln ((3 / 100 + t) / (3 / 100)) / k)
      by (apply Rdiv_lt_0_compat; lra).
    assert (H2 : 10 / 23 <= 1 / (10 * (3 / 100 + t))).
    { unfold Rdiv. rewrite !Rmult_1_l.
      replace (10 * / 23) with (/ (23 / 10)) by field.
      apply Rinv_le_contravar; lra. }
    lra. }
  assert (Hinv : 0 < / denominator k t <= 23 / 10).
  { split; [apply Rinv_0_lt_compat; assumption|].
    replace (23 / 10) with (/ (10 / 23)) by field.
    apply Rinv_le_contravar; lra. }
  unfold Rdiv. split; nra.
Qed.

Lemma base_obj_range (ind : individual) : in_box ind -> 0 <= base_obj ind <= 2.
Proof.
  destruct ind as [t k]. unfold in_box, base_obj, t_min, t_max, k_min, k_max.
  simpl. intros [Ht Hk].
  assert (0 <= (t - 25 / 1000) / (200 / 1000 - 25 / 1000) <= 1).
  { split.
    - apply Rmult_le_reg_r with (200 / 1000 - 25 / 1000); [lra|]. field_simplify. lra.
    - apply Rmult_le_reg_r with (200 / 1000 - 25 / 1000); [lra|]. field_simplify. lra. }
  assert (0 <= (k - 50 / 1000) / (84 / 1000 - 50 / 1000) <= 1).
  { split.
    - apply Rmult_le_reg_r with (84 / 1000 - 50 / 1000); [lra|]. field_simplify. lra.
    - apply Rmult_le_reg_r with (84 / 1000 - 50 / 1000); [lra|]. field_simplify. lra. }
  lra.
Qed.

(** The penalty of a chromosome of the box is at most [6e7] times the
    penalty factor. *)
Lemma fitness_in_box_range (ind : individual) (pf : R) :
  in_box ind -> 0 <= pf ->
  exists x, fitness ind pf = Fin x /\
            base_obj ind <= x <= base_obj ind + 60000000 * pf.
Proof.
  intros Hbox Hpf. rewrite (fitness_in_box ind pf Hbox).
  destruct ind as [t k]. cbn [fst snd].
  pose proof (heat_flow_range k t Hbox) as HQ.
  set (Q := 2 * PI * L * dT / denominator k t) in *.
  eexists. split; [reflexivity|].
  unfold quadratic_penalty, Rmax, Q_max.
  destruct (Rle_dec 0 (Q - 120)) as [Hv|Hv].
  - assert (Hsq : 0 <= (Q - 120) ^ 2 <= 60000000) by (simpl; nra).
    split; nra.
  - simpl. split; nra.
Qed.

(** Up to a penalty factor of 1e300 the fitness stays below 1e308, which
    binary64 still holds. *)
Lemma fitness_below_overflow (ind : individual) (pf x : R) :
  in_box ind -> pf <= 10 ^ 300 ->
  x <= base_obj ind + 60000000 * pf -> x <= 10 ^ 308.
Proof.
  intros Hbox Hpf Hx. pose proof (base_obj_range ind Hbox) as Hb.
  assert (H300 : 1 <= 10 ^ 300) by (apply pow_R1_Rle; lra).
  replace (10 ^ 308) with (10 ^ 8 * 10 ^ 300)
    by (rewrite <- pow_add; reflexivity).
  nra.
Qed.
End PlacaPlanaFitness.

(** * Facts about the drawing functions *)

Section RandFacts.
Context {RS : RandomSource}.

Lemma uniform_Ok (low high : R) (size : nat) :
  forall g us g',
    uniform low high size g = Ok (us, g') ->
    length us = size /\
    (low <= high -> Forall (fun x => low <= x <= high) us).
Proof.
  induction size as [|n IH]; simpl; intros g us g' H.
  - mstep H. split; [reflexivity | constructor].
  - mstep H. apply rand_Ok in Hm. destruct Hm as [Hu _].
    mstep H. apply IH in Hm. destruct Hm as [Hlen Hall].
    mstep H. split; [simpl; congruence|].
    intros Hlh. constructor; [nra | auto].
Qed.

Lemma uniform_total (low high : R) (size : nat) :
  forall g, exists us g', uniform low high size g = Ok (us, g').
Proof.
  induction size as [|n IH]; simpl; intros g.
  - unfold ret. eauto.
  - destruct (rand_total g) as (u & g1 & Hu & _).
    rewrite (bind_run _ _ _ _ _ Hu).
    destruct (IH g1) as (us & g2 & Hus).
    rewrite (bind_run _ _ _ _ _ Hus). unfold ret. eauto.
Qed.

Lemma random_below_list_Ok (n size : nat) :
  forall g js g',
    random_below_list n size g = Ok (js, g') ->
    length js = size /\ ((0 < n)%nat -> Forall (fun j => (j < n)%nat) js).
Proof.
  induction size as [|s IH]; simpl; intros g js g' H.
  - mstep H. split; [reflexivity | constructor].
  - mstep H. injection Hm as Hm.
    mstep H. apply IH in Hm0. destruct Hm0 as [Hlen Hall].
    mstep H. split; [simpl; congruence|].
    intros Hn. constructor; [|auto].
    pose proof (random_below_range n g Hn) as Hr. rewrite Hm in Hr. assumption.
Qed.

Lemma random_below_list_total (n size : nat) :
  forall g, exists js g', random_below_list n size g = Ok (js, g').
Proof.
  induction size as [|s IH]; simpl; intros g.
  - unfold ret. eauto.
  - unfold bind at 1. destruct (random_below n g) as [i g1].
    destruct (IH g1) as (js & g2 & Hjs).
    rewrite (bind_run _ _ _ _ _ Hjs). unfold ret. eauto.
Qed.

Lemma randint_Ok (high : Z) (size : nat) g js g' :
  randint high size g = Ok (js, g') ->
  (0 < high)%Z /\ length js = size /\
  Forall (fun j => (j < Z.to_nat high)%nat) js.
Proof.
  unfold randint. destruct (Z.leb_spec high 0) as [Hh|Hh]; intros H; [mstep H|].
  apply random_below_list_Ok in H. destruct H as [Hlen Hall].
  split; [assumption|]. split; [assumption|]. apply Hall. lia.
Qed.

Lemma randint_total (high : Z) (size : nat) g :
  (0 < high)%Z -> exists js g', randint high size g = Ok (js, g').
Proof.
  intros H. unfold randint. destruct (Z.leb_spec high 0) as [Hh|Hh]; [lia|].
  apply random_below_list_total.
Qed.

Lemma normal_total (loc scale : R) g :
  0 <= scale -> exists d g', normal loc scale g = Ok (d, g').
Proof.
  intros H. unfold normal. rcases; [lra|].
  unfold bind. destruct (standard_normal g) as [z g1]. unfold ret. eauto.
Qed.
End RandFacts.

(** * Shared facts about histories and minima *)

Lemma Forall2_nth_error_both {A B : Type} (P : A -> B -> Prop) l1 l2 i a b :
  Forall2 P l1 l2 -> nth_error l1 i = Some a -> nth_error l2 i = Some b -> P a b.
Proof.
  intros H. revert i. induction H as [|x y l1 l2 Hxy H IH]; intros i Ha Hb.
  - destruct i; discriminate.
  - destruct i as [|i]; simpl in *.
    + injection Ha as <-. injection Hb as <-. assumption.
    + eapply IH; eauto.
Qed.

(** [m] is the fitness [np.argmin] points at. *)
Definition best_of (fit : list npfloat) (m : npfloat) : Prop :=
  exists i, argmin fit = Some i /\ nth_error fit i = Some m.

Lemma best_of_least fit m :
  Forall not_nan fit -> best_of fit m -> forall f, In f fit -> fle m f.
Proof.
  intros Hnan (i & Hi & Hm) f Hf.
  destruct (argmin_least fit i Hnan Hi) as (v & Hv & Hall).
  rewrite Hm in Hv. injection Hv as <-. auto.
Qed.

(** Pairwise: a later entry is never above an earlier one. *)
Definition descending (l : list npfloat) : Prop :=
  forall i j a b,
    (i < j)%nat -> nth_error l i = Some a -> nth_error l j = Some b -> fle b a.

Lemma descending_snoc (l : list npfloat) (m : npfloat) :
  descending l -> (forall h, In h l -> fle m h) -> descending (l ++ [m]).
Proof.
  intros Hd Hm i j a b Hij Ha Hb.
  assert (Hj : (j < length (l ++ [m]))%nat) by (apply nth_error_Some; congruence).
  rewrite length_app in Hj. simpl in Hj.
  rewrite nth_error_app1 in Ha by lia.
  destruct (Nat.eq_dec j (length l)) as [->|Hne].
  - rewrite nth_error_app2 in Hb by lia. rewrite Nat.sub_diag in Hb.
    injection Hb as <-. apply Hm. eapply nth_error_In; eauto.
  - rewrite nth_error_app1 in Hb by lia. exact (Hd i j a b Hij Ha Hb).
Qed.

Lemma nth_error_snoc_app {A : Type} (l : list A) (x : A) (more : list A) (n : nat) :
  length l = n -> nth_error ((l ++ [x]) ++ more) n = Some x.
Proof.
  intros <-. rewrite nth_error_app1 by (rewrite length_app; simpl; lia).
  rewrite nth_error_app2 by lia. rewrite Nat.sub_diag. reflexivity.
Qed.

(** [l'] is [l] with entries appended. *)
Definition extends {A : Type} (l l' : list A) : Prop := exists more, l' = l ++ more.

Lemma extends_refl {A : Type} (l : list A) : extends l l.
Proof. exists []. symmetry. apply app_nil_r. Qed.

Lemma extends_trans {A : Type} (l1 l2 l3 : list A) :
  extends l1 l2 -> extends l2 l3 -> extends l1 l3.
Proof. intros [m1 ->] [m2 ->]. exists (m1 ++ m2). symmetry. apply app_assoc. Qed.

Lemma extends_snoc {A : Type} (l : list A) (x : A) : extends l (l ++ [x]).
Proof. exists [x]. reflexivity. Qed.

Lemma extends_entry {A : Type} (l l' : list A) (x : A) (n : nat) :
  length l = n -> extends (l ++ [x]) l' -> nth_error l' n = Some x.
Proof. intros Hn [more ->]. apply nth_error_snoc_app. assumption. Qed.


(** * cilindro_ga.py: the engine *)

Module CilindroEngine.
Import Cilindro CilindroObjectiveFacts.

(** Every gene is inside its interval; the chromosome has one gene per
    bound. *)
Definition in_bounds (bs : list (R * R)) (ind : list R) : Prop :=
  Forall2 (fun b x => fst b <= x <= snd b) bs ind.

Definition valid_bounds (bs : list (R * R)) : Prop :=
  Forall (fun b => fst b <= snd b) bs.

Lemma in_bounds_length (bs : list (R * R)) (ind : list R) :
  in_bounds bs ind -> length ind = length bs.
Proof. intros H. symmetry. eapply Forall2_length; eauto. Qed.

Lemma lincomb_length (a b : R) (p q : list R) :
  length p = length q -> length (lincomb a p b q) = length p.
Proof.
  intros H. unfold lincomb. rewrite length_map, length_combine. lia.
Qed.

(** A convex combination of two chromosomes inside the bounds is inside
    the bounds. *)
Lemma lincomb_in_bounds (bs : list (R * R)) (a b : R) (p q : list R) :
  0 <= a -> 0 <= b -> a + b = 1 ->
  in_bounds bs p -> in_bounds bs q -> in_bounds bs (lincomb a p b q).
Proof.
  intros Ha Hb Hab Hp. revert q.
  induction Hp as [|[lo hi] x bs' p' Hx Hp IH]; intros q Hq; inversion Hq; subst.
  - constructor.
  - simpl. constructor; [|apply IH; assumption].
    simpl in *. nra.
Qed.

Section Facts.
Context {RS : RandomSource}.
Variable bounds : list (R * R).
Variables pop_size generations : Z.
Variables crossover_rate mutation_rate mutation_scale penalty_factor : R.

(** *** Initialisation *)

Lemma init_columns_Ok (bs : list (R * R)) :
  forall g cols g',
    init_columns pop_size bs g = Ok (cols, g') ->
    Forall2 (fun b col =>
               length col = Z.to_nat pop_size /\
               (fst b <= snd b -> Forall (fun x => fst b <= x <= snd b) col))
            bs cols.
Proof.
  induction bs as [|[low high] bs IH]; simpl; intros g cols g' H.
  - mstep H. constructor.
  - mstep H. apply uniform_Ok in Hm. mstep H. apply IH in Hm0. mstep H.
    constructor; auto.
Qed.

Lemma init_columns_total (bs : list (R * R)) :
  forall g, exists cols g', init_columns pop_size bs g = Ok (cols, g').
Proof.
  induction bs as [|[low high] bs IH]; simpl; intros g.
  - unfold ret. eauto.
  - destruct (uniform_total low high (Z.to_nat pop_size) g) as (col & g1 & Hc).
    rewrite (bind_run _ _ _ _ _ Hc).
    destruct (IH g1) as (cols & g2 & Hcs).
    rewrite (bind_run _ _ _ _ _ Hcs). unfold ret. eauto.
Qed.

Lemma rows_of_columns_length (n : nat) (cols : list (list R)) :
  length (rows_of_columns n cols) = n.
Proof. unfold rows_of_columns. rewrite length_map, length_seq. reflexivity. Qed.

Lemma rows_of_columns_In (n : nat) (cols : list (list R)) (row : list R) :
  In row (rows_of_columns n cols) ->
  exists j, (j < n)%nat /\ row = map (fun col => nth j col 0) cols.
Proof.
  unfold rows_of_columns. rewrite in_map_iff. intros (j & <- & Hj).
  apply in_seq in Hj. exists j. split; [lia | reflexivity].
Qed.

Lemma initial_population_Ok g pop g' :
  initial_population bounds pop_size g = Ok (pop, g') ->
  (0 <= pop_size)%Z /\
  length pop = Z.to_nat pop_size /\
  Forall (fun ind => length ind = length bounds) pop /\
  (valid_bounds bounds -> Forall (in_bounds bounds) pop).
Proof.
  unfold initial_population.
  destruct (Z.ltb_spec pop_size 0) as [Hn|Hn]; intros H; [mstep H|].
  mstep H. apply init_columns_Ok in Hm. mstep H.
  split; [assumption|]. split; [apply rows_of_columns_length|].
  split.
  - apply Forall_forall. intros row Hrow.
    apply rows_of_columns_In in Hrow. destruct Hrow as (j & _ & ->).
    rewrite length_map. symmetry. eapply Forall2_length; eauto.
  - intros Hv. apply Forall_forall. intros row Hrow.
    apply rows_of_columns_In in Hrow. destruct Hrow as (j & Hj & ->).
    unfold in_bounds, valid_bounds in *. clear - Hm Hv Hj.
    induction Hm as [|b col bs cols [Hlen Hcol] Hm IH]; simpl.
    + constructor.
    + inversion Hv; subst. constructor; [|apply IH; assumption].
      assert (Hall : Forall (fun x => fst b <= x <= snd b) col) by auto.
      rewrite Forall_forall in Hall. apply Hall. apply nth_In. lia.
Qed.

Lemma initial_population_total g :
  (0 <= pop_size)%Z ->
  exists pop g', initial_population bounds pop_size g = Ok (pop, g').
Proof.
  intros H. unfold initial_population.
  destruct (Z.ltb_spec pop_size 0) as [Hn|Hn]; [lia|].
  destruct (init_columns_total bounds g) as (cols & g1 & Hc).
  rewrite (bind_run _ _ _ _ _ Hc). unfold ret. eauto.
Qed.

(** *** Selection *)

(** The parent is the row of one of two drawn indices, the one whose
    fitness is not above the other's. *)
Lemma tournament_selection_Ok population fitness g parent g' :
  tournament_selection pop_size population fitness g = Ok (parent, g') ->
  exists i1 i2 f1 f2 w,
    randint pop_size 2 g = Ok ([i1; i2], g') /\
    (i1 < Z.to_nat pop_size)%nat /\ (i2 < Z.to_nat pop_size)%nat /\
    nth_error fitness i1 = Some f1 /\ nth_error fitness i2 = Some f2 /\
    w = (if fltb f1 f2 then i1 else i2) /\
    nth_error population w = Some parent.
Proof.
  unfold tournament_selection. intros H. mstep H.
  pose proof (randint_Ok _ _ _ _ _ Hm) as (Hpos & Hlen & Hall).
  destruct a as [|i1 [|i2 [|i3 rest]]]; simpl in Hlen; try discriminate.
  inversion Hall as [|? ? Hi1 Hall']; subst. inversion Hall' as [|? ? Hi2 _]; subst.
  mstep H. apply lift_Ok in Hm0. destruct Hm0 as [Hf1 ->].
  mstep H. apply lift_Ok in Hm0. destruct Hm0 as [Hf2 ->].
  apply index_Ok in Hf1, Hf2.
  exists i1, i2, a, a0, (if fltb a a0 then i1 else i2).
  destruct (fltb a a0); apply lift_Ok in H; destruct H as [Hp ->];
    apply index_Ok in Hp; repeat split; auto.
Qed.

Lemma tournament_selection_In population fitness g parent g' :
  tournament_selection pop_size population fitness g = Ok (parent, g') ->
  In parent population.
Proof.
  intros H. apply tournament_selection_Ok in H.
  destruct H as (i1 & i2 & f1 & f2 & w & _ & _ & _ & _ & _ & _ & Hp).
  eapply nth_error_In; eauto.
Qed.

Lemma tournament_selection_total population fitness g :
  (0 < pop_size)%Z ->
  length population = Z.to_nat pop_size ->
  length fitness = Z.to_nat pop_size ->
  exists parent g', tournament_selection pop_size population fitness g = Ok (parent, g').
Proof.
  intros Hpos Hlp Hlf. unfold tournament_selection.
  destruct (randint_total pop_size 2 g Hpos) as (js & g1 & Hjs).
  rewrite (bind_run _ _ _ _ _ Hjs).
  apply randint_Ok in Hjs. destruct Hjs as (_ & Hlen & Hall).
  destruct js as [|i1 [|i2 [|i3 rest]]]; simpl in Hlen; try discriminate.
  inversion Hall as [|? ? Hi1 Hall']; subst. inversion Hall' as [|? ? Hi2 _]; subst.
  destruct (index_total fitness i1) as [f1 Hf1]; [lia|].
  destruct (index_total fitness i2) as [f2 Hf2]; [lia|].
  destruct (index_total population i1) as [p1 Hp1]; [lia|].
  destruct (index_total population i2) as [p2 Hp2]; [lia|].
  unfold bind, lift. rewrite Hf1, Hf2.
  destruct (fltb f1 f2); [rewrite Hp1 | rewrite Hp2]; eauto.
Qed.

(** *** Mutation *)

Lemma mutation_Ok (bs : list (R * R)) :
  forall child g child' g',
    mutation mutation_rate mutation_scale bs child g = Ok (child', g') ->
    length child' = length child /\
    (valid_bounds bs -> in_bounds bs child -> in_bounds bs child').
Proof.
  induction bs as [|[low high] bs IH]; simpl; intros child g child' g' H.
  - mstep H. split; [reflexivity | auto].
  - destruct child as [|x xs]; [mstep H|].
    mstep H. mstep H. mstep H. apply IH in Hm1. destruct Hm1 as [Hlen Hin].
    mstep H. split; [simpl; congruence|].
    intros Hv Hb. inversion Hv as [|? ? Hlh Hv']; subst.
    inversion Hb as [|? ? ? ? Hx Hb']; subst. simpl in *.
    constructor; [|apply Hin; assumption]. simpl.
    destruct (Rltb a mutation_rate).
    + mstep Hm0. mstep Hm0. apply clip_range. assumption.
    + mstep Hm0. assumption.
Qed.

Lemma mutation_length_total (bs : list (R * R)) :
  Forall (fun b => 0 <= mutation_scale * (snd b - fst b)) bs \/ mutation_rate <= 0 ->
  forall child g,
    (length bs <= length child)%nat ->
    exists child' g', mutation mutation_rate mutation_scale bs child g = Ok (child', g').
Proof.
  intros Hs. induction bs as [|[low high] bs IH]; simpl; intros child g Hlen.
  - unfold ret. eauto.
  - destruct child as [|x xs]; simpl in Hlen; [lia|].
    destruct (rand_total g) as (u & g1 & Hu & Hur).
    rewrite (bind_run _ _ _ _ _ Hu).
    assert (Hx : exists x' g2,
               (if Rltb u mutation_rate
                then d <- normal 0 (mutation_scale * (high - low)) ;;
                     ret (clip (x + d) low high)
                else ret x) g1 = Ok (x', g2)).
    { rcases; [|unfold ret; eauto].
      destruct Hs as [Hs|Hs]; [|lra].
      inversion Hs as [|? ? Hsc _]; subst. simpl in Hsc.
      destruct (normal_total 0 (mutation_scale * (high - low)) g1 Hsc)
        as (d & g2 & Hd).
      rewrite (bind_run _ _ _ _ _ Hd). unfold ret. eauto. }
    destruct Hx as (x' & g2 & Hx). rewrite (bind_run _ _ _ _ _ Hx).
    destruct (IH ltac:(destruct Hs as [Hs|Hs];
                       [left; inversion Hs; assumption | right; assumption])
                 xs g2 ltac:(lia)) as (xs' & g3 & Hxs).
    rewrite (bind_run _ _ _ _ _ Hxs). unfold ret. eauto.
Qed.

(** With a mutation rate of zero no gene is touched. *)
Lemma mutation_rate_zero (bs : list (R * R)) :
  mutation_rate <= 0 ->
  forall child g child' g',
    mutation mutation_rate mutation_scale bs child g = Ok (child', g') ->
    child' = child.
Proof.
  intros Hz. induction bs as [|[low high] bs IH]; simpl; intros child g child' g' H.
  - mstep H. reflexivity.
  - destruct child as [|x xs]; [mstep H|].
    mstep H. apply rand_Ok in Hm. destruct Hm as [Hu _].
    mstep H. mstep H. apply IH in Hm0. mstep H.
    rcases; [lra|]. mstep Hm. reflexivity.
Qed.

(** *** The breeding loop *)

Abbreviation breed_loop :=
  (breed bounds pop_size crossover_rate mutation_rate mutation_scale).

(** What the loop appends: children that keep every property [P] of the
    population which blending and mutation preserve; and it stops at
    [pop_size] exactly. *)
Lemma breed_Ok (P : list R -> Prop) population fitness :
  (forall a p q, 0 <= a < 1 -> P p -> P q ->
                 P (lincomb a p (1 - a) q) /\ P (lincomb (1 - a) p a q)) ->
  (forall c g c' g',
      P c -> mutation mutation_rate mutation_scale bounds c g = Ok (c', g') -> P c') ->
  Forall P population ->
  forall fuel new_population g new_population' g',
    breed_loop fuel population fitness new_population g = Ok (new_population', g') ->
    exists children,
      new_population' = new_population ++ children /\
      Forall P children /\
      ((Z.of_nat (length new_population) <= pop_size)%Z ->
       Z.of_nat (length new_population') = pop_size).
Proof.
  intros Hblend Hmut Hpop.
  induction fuel as [|fuel IH]; intros np g np' g' H; simpl in H;
    destruct (Z.ltb_spec (Z.of_nat (length np)) pop_size) as [Hlt|Hge].
  - mstep H.
  - mstep H. exists []. rewrite app_nil_r. repeat split; [constructor | lia].
  - mbind H as p1 g1 Hp1. apply tournament_selection_In in Hp1.
    mbind H as p2 g2 Hp2. apply tournament_selection_In in Hp2.
    rewrite Forall_forall in Hpop.
    pose proof (Hpop _ Hp1) as HP1. pose proof (Hpop _ Hp2) as HP2.
    mbind H as u g3 Hu. apply rand_Ok in Hu. destruct Hu as [Hu _].
    mbind H as [child1 child2] g4 Hcross.
    assert (Hc : P child1 /\ P child2).
    { destruct (Rltb u crossover_rate).
      - mbind Hcross as alpha g5 Ha. apply rand_Ok in Ha. destruct Ha as [Ha _].
        apply ret_Ok in Hcross. destruct Hcross as [Hcc _].
        injection Hcc as -> ->. apply Hblend; assumption.
      - apply ret_Ok in Hcross. destruct Hcross as [Hcc _].
        injection Hcc as -> ->. auto. }
    destruct Hc as [Hc1 Hc2].
    mbind H as c1 g5 Hmut1. pose proof (Hmut _ _ _ _ Hc1 Hmut1) as Hc1'.
    rewrite length_app in H. simpl in H.
    destruct (Z.leb_spec pop_size (Z.of_nat (length np + 1))) as [Hfull|Hroom].
    + apply IH in H. destruct H as (ch & -> & Hch & Hlen).
      exists (c1 :: ch). rewrite <- app_assoc. simpl.
      split; [reflexivity|]. split; [constructor; assumption|].
      intros _. rewrite <- app_assoc in Hlen. simpl in Hlen. apply Hlen.
      rewrite length_app. simpl. lia.
    + mbind H as c2 g6 Hmut2. pose proof (Hmut _ _ _ _ Hc2 Hmut2) as Hc2'.
      apply IH in H. destruct H as (ch & -> & Hch & Hlen).
      exists (c1 :: c2 :: ch). rewrite <- !app_assoc. simpl.
      split; [reflexivity|]. split; [repeat constructor; assumption|].
      intros _. rewrite <- !app_assoc in Hlen. simpl in Hlen. apply Hlen.
      rewrite !length_app. simpl. lia.
- mstep H. exists []. rewrite app_nil_r. repeat split; [constructor | lia].
Qed.

(** The loop never runs out of fuel when it is given one unit per free
    slot, and none of its steps raises. *)
Lemma breed_total population fitness :
  (0 < pop_size)%Z ->
  length population = Z.to_nat pop_size ->
  length fitness = Z.to_nat pop_size ->
  Forall (fun ind => length ind = length bounds) population ->
  Forall (fun b => 0 <= mutation_scale * (snd b - fst b)) bounds \/ mutation_rate <= 0 ->
  forall fuel new_population g,
    (Z.to_nat pop_size - length new_population <= fuel)%nat ->
    exists new_population' g',
      breed_loop fuel population fitness new_population g = Ok (new_population', g').
Proof.
  intros Hpos Hlp Hlf Hlens Hs.
  induction fuel as [|fuel IH]; intros np g Hfuel; simpl;
    destruct (Z.ltb_spec (Z.of_nat (length np)) pop_size) as [Hlt|Hge];
    try (unfold ret; eauto; fail); try lia.
  destruct (tournament_selection_total population fitness g Hpos Hlp Hlf)
    as (p1 & g1 & Hp1).
  rewrite (bind_run _ _ _ _ _ Hp1).
  destruct (tournament_selection_total population fitness g1 Hpos Hlp Hlf)
    as (p2 & g2 & Hp2).
  rewrite (bind_run _ _ _ _ _ Hp2).
  apply tournament_selection_In in Hp1, Hp2.
  rewrite Forall_forall in Hlens.
  pose proof (Hlens _ Hp1) as Hl1. pose proof (Hlens _ Hp2) as Hl2.
  destruct (rand_total g2) as (u & g3 & Hu & _).
  rewrite (bind_run _ _ _ _ _ Hu).
  assert (Hc : exists child1 child2 g4,
             (if Rltb u crossover_rate
              then alpha <- rand ;;
                   ret (lincomb alpha p1 (1 - alpha) p2,
                        lincomb (1 - alpha) p1 alpha p2)
              else ret (p1, p2)) g3 = Ok ((child1, child2), g4) /\
             length child1 = length bounds /\ length child2 = length bounds).
  { destruct (Rltb u crossover_rate).
    - destruct (rand_total g3) as (al & g4 & Hal & _).
      rewrite (bind_run _ _ _ _ _ Hal). unfold ret.
      do 3 eexists. split; [reflexivity|].
      rewrite !lincomb_length by congruence. auto.
    - unfold ret. do 3 eexists. split; [reflexivity|]. auto. }
  destruct Hc as (child1 & child2 & g4 & Hc & Hlc1 & Hlc2).
  rewrite (bind_run _ _ _ _ _ Hc).
  destruct (mutation_length_total bounds Hs child1 g4 ltac:(lia)) as (c1 & g5 & Hc1).
  rewrite (bind_run _ _ _ _ _ Hc1).
  rewrite length_app. simpl.
  destruct (Z.leb_spec pop_size (Z.of_nat (length np + 1))) as [Hfull|Hroom].
  - apply IH. rewrite length_app. simpl. lia.
  - destruct (mutation_length_total bounds Hs child2 g5 ltac:(lia)) as (c2 & g6 & Hc2).
    rewrite (bind_run _ _ _ _ _ Hc2).
    apply IH. rewrite !length_app. simpl. lia.
Qed.

(** *** One generation *)

Abbreviation generation_step :=
  (generation bounds pop_size crossover_rate mutation_rate mutation_scale
              penalty_factor).
Abbreviation generations_loop :=
  (for_generations bounds pop_size crossover_rate mutation_rate mutation_scale
                   penalty_factor).

(** What a generation that ends leaves behind: the elite first, then the
    children of the breeding loop, their fresh fitness, and one more entry
    in every history. *)
Lemma generation_Ok st g st' g' :
  generation_step st g = Ok (st', g') ->
  exists best_idx best_ind best_fit worst k t children,
    argmin (fitness st) = Some best_idx /\
    nth_error (population st) best_idx = Some best_ind /\
    nth_error (fitness st) best_idx = Some best_fit /\
    fmax_list (fitness st) = Some worst /\
    best_ind = [k; t] /\
    breed_loop (Z.to_nat pop_size) (population st) (fitness st) [best_ind] g
      = Ok (best_ind :: children, g') /\
    population st' = best_ind :: children /\
    evaluate penalty_factor (population st') = Ok (fitness st') /\
    best_hist st' = best_hist st ++ [best_fit] /\
    worst_hist st' = worst_hist st ++ [worst] /\
    avg_hist st' = avg_hist st ++ [fmean (fitness st)] /\
    best_t_hist st' = best_t_hist st ++ [t] /\
    best_Q_hist st' = best_Q_hist st ++ [heat_flow k t].
Proof.
  unfold generation. intros H.
  mbind H as best_idx g1 Hidx. apply lift_Ok in Hidx. destruct Hidx as [Hidx ->].
  apply of_option_Ok in Hidx.
  mbind H as best_ind g1 Hind. apply lift_Ok in Hind. destruct Hind as [Hind ->].
  apply index_Ok in Hind.
  mbind H as best_fit g1 Hfit. apply lift_Ok in Hfit. destruct Hfit as [Hfit ->].
  apply index_Ok in Hfit.
  mbind H as worst g1 Hw. apply lift_Ok in Hw. destruct Hw as [Hw ->].
  apply of_option_Ok in Hw.
  destruct best_ind as [|k [|t [|x rest]]];
    try (apply raise_Ok in H; contradiction).
  mbind H as new_population g1 Hbreed.
  mbind H as fitness' g2 Hev. apply lift_Ok in Hev. destruct Hev as [Hev ->].
  apply ret_Ok in H. destruct H as [-> ->].
  destruct (breed_Ok (fun _ => True) (population st) (fitness st)
              ltac:(auto) ltac:(auto)
              ltac:(apply Forall_forall; auto)
              _ _ _ _ _ Hbreed) as (children & Hnp & _ & _).
  simpl in Hnp. subst new_population.
  exists best_idx, [k; t], best_fit, worst, k, t, children. simpl.
  repeat split; auto.
Qed.

(** The fitness vector is the objective of each row, in order. *)
Definition evaluated (st : loop_state) : Prop :=
  evaluate penalty_factor (population st) = Ok (fitness st).

Lemma evaluate_Forall2 pop fit :
  evaluate penalty_factor pop = Ok fit ->
  Forall2 (fun ind f => objective ind penalty_factor = Ok f) pop fit.
Proof. unfold evaluate. apply omap_Ok. Qed.

Lemma evaluate_length pop fit :
  evaluate penalty_factor pop = Ok fit -> length fit = length pop.
Proof. intros H. apply evaluate_Forall2 in H. symmetry. eapply Forall2_length; eauto. Qed.

Lemma evaluate_genes pop fit :
  evaluate penalty_factor pop = Ok fit -> Forall (fun ind => length ind = 2%nat) pop.
Proof.
  intros H. apply evaluate_Forall2 in H.
  induction H; constructor; auto. eapply objective_length; eauto.
Qed.

Lemma evaluate_total pop :
  Forall (fun ind => length ind = 2%nat) pop ->
  exists fit, evaluate penalty_factor pop = Ok fit.
Proof.
  intros H. unfold evaluate. apply omap_total.
  eapply Forall_impl; [|exact H]. intros ind Hl. apply objective_total. assumption.
Qed.

Lemma evaluate_not_nan pop fit :
  penalty_factor <> 0 -> evaluate penalty_factor pop = Ok fit -> Forall not_nan fit.
Proof.
  intros Hpf H. apply evaluate_Forall2 in H.
  induction H; constructor; auto. eapply objective_not_nan; eauto.
Qed.

Lemma generation_evaluated st g st' g' :
  generation_step st g = Ok (st', g') -> evaluated st'.
Proof.
  intros H. apply generation_Ok in H.
  destruct H as (? & ? & ? & ? & ? & ? & ? & H). unfold evaluated. tauto.
Qed.

Abbreviation first_state := (initial_state bounds pop_size penalty_factor).

Lemma initial_state_Ok g st g' :
  first_state g = Ok (st, g') ->
  initial_population bounds pop_size g = Ok (population st, g') /\
  evaluated st /\
  best_hist st = [] /\ worst_hist st = [] /\ avg_hist st = [] /\
  best_t_hist st = [] /\ best_Q_hist st = [].
Proof.
  unfold initial_state. intros H.
  mbind H as pop g1 Hpop.
  mbind H as fit g2 Hfit. apply lift_Ok in Hfit. destruct Hfit as [Hfit ->].
  apply ret_Ok in H. destruct H as [-> ->]. simpl.
  unfold evaluated. simpl. repeat split; auto.
Qed.

(** A property every generation keeps holds after any number of them. *)
Lemma for_generations_invariant (I : loop_state -> Prop) :
  (forall st g st' g', I st -> generation_step st g = Ok (st', g') -> I st') ->
  forall n st g st' g',
    I st -> generations_loop n st g = Ok (st', g') -> I st'.
Proof.
  intros Hstep. induction n as [|n IH]; simpl; intros st g st' g' HI H.
  - apply ret_Ok in H. destruct H as [-> _]. assumption.
  - mbind H as st1 g1 Hgen. eapply IH; [|exact H]. eapply Hstep; eauto.
Qed.

(** *** Invariants of the generation loop *)

(** The population has [pop_size] rows. *)
Definition sized (st : loop_state) : Prop :=
  Z.of_nat (length (population st)) = pop_size.

Lemma generation_sized st g st' g' :
  sized st -> generation_step st g = Ok (st', g') -> sized st'.
Proof.
  unfold sized. intros Hs H. apply generation_Ok in H.
  destruct H as (i & best & bf & w & k & t & children & _ & Hbest & _ & _ & _
                 & Hbreed & Hpop & _).
  rewrite Hpop.
  assert (Hne : (0 < length (population st))%nat).
  { destruct (population st); [destruct i; discriminate | simpl; lia]. }
  destruct (breed_Ok (fun _ => True) (population st) (fitness st)
              ltac:(auto) ltac:(auto) ltac:(apply Forall_forall; auto)
              _ _ _ _ _ Hbreed) as (ch & _ & _ & Hlen).
  apply Hlen. simpl. lia.
Qed.

(** Every row is inside the bounds. *)
Definition bounded (st : loop_state) : Prop :=
  Forall (in_bounds bounds) (population st).

Lemma generation_bounded st g st' g' :
  valid_bounds bounds ->
  bounded st -> generation_step st g = Ok (st', g') -> bounded st'.
Proof.
  unfold bounded. intros Hv Hb H. apply generation_Ok in H.
  destruct H as (i & best & bf & w & k & t & children & _ & Hbest & _ & _ & _
                 & Hbreed & Hpop & _).
  rewrite Hpop.
  assert (Hbest' : in_bounds bounds best).
  { rewrite Forall_forall in Hb. apply Hb. eapply nth_error_In; eauto. }
  destruct (breed_Ok (in_bounds bounds) (population st) (fitness st)) with
    (fuel := Z.to_nat pop_size) (new_population := [best]) (g := g)
    (new_population' := best :: children) (g' := g')
    as (ch & Hch & Hall & _); auto.
  - intros a p q Ha Hp Hq. split; apply lincomb_in_bounds; auto; lra.
  - intros c g0 c' g0' Hc Hm. apply mutation_Ok in Hm. apply Hm; assumption.
  - simpl in Hch. injection Hch as <-. constructor; assumption.
Qed.


(** Elitism: the best fitness of a generation is the fitness of the first
    row of the next one. *)
Lemma generation_elite st g st' g' :
  evaluated st -> generation_step st g = Ok (st', g') ->
  exists m rest,
    best_of (fitness st) m /\
    best_hist st' = best_hist st ++ [m] /\
    fitness st' = m :: rest.
Proof.
  intros Hev H. apply generation_Ok in H.
  destruct H as (i & best & bf & w & k & t & children & Hi & Hbest & Hbf & _ & _
                 & _ & Hpop & Hev' & Hhist & _).
  apply evaluate_Forall2 in Hev.
  pose proof (Forall2_nth_error_both _ _ _ _ _ _ Hev Hbest Hbf) as Hobj.
  apply evaluate_Forall2 in Hev'. rewrite Hpop in Hev'.
  inversion Hev' as [|? f0 ? rest Hobj0 Hrest]; subst.
  simpl in Hobj0. rewrite Hobj in Hobj0. injection Hobj0 as <-.
  exists bf, rest. split; [exists i; auto|]. split; [assumption | congruence].
Qed.


(** Every recorded best is matched or beaten by the current population,
    and the record so far is descending. *)
Definition elitist (st : loop_state) : Prop :=
  (forall h, In h (best_hist st) -> exists f, In f (fitness st) /\ fle f h) /\
  descending (best_hist st).


Lemma generation_elitist st g st' g' :
  penalty_factor <> 0 ->
  evaluated st -> elitist st -> generation_step st g = Ok (st', g') -> elitist st'.
Proof.
  intros Hpf Hev [Hcur Hdesc] H.
  destruct (generation_elite _ _ _ _ Hev H) as (m & rest & Hbest & Hhist & Hfit).
  pose proof (evaluate_not_nan _ _ Hpf Hev) as Hnan.
  pose proof (best_of_least _ _ Hnan Hbest) as Hleast.
  assert (Hmn : not_nan m).
  { destruct Hbest as (i & _ & Hm). rewrite Forall_forall in Hnan.
    apply Hnan. eapply nth_error_In; eauto. }
  assert (Hold : forall h, In h (best_hist st) -> fle m h).
  { intros h Hh. destruct (Hcur h Hh) as (f & Hf & Hfh).
    eapply fle_trans; [apply Hleast; exact Hf | exact Hfh]. }
  split.
  - rewrite Hhist, Hfit. intros h Hh. exists m. split; [left; reflexivity|].
    apply in_app_or in Hh. destruct Hh as [Hh|[<-|[]]]; [auto | apply fle_refl; auto].
  - rewrite Hhist. apply descending_snoc; assumption.
Qed.

(** *** The whole run *)

Abbreviation run :=
  (run_GA bounds pop_size generations crossover_rate mutation_rate mutation_scale
          penalty_factor).

Lemma final_result_Ok st res :
  final_result st = Ok res ->
  exists i,
    argmin (fitness st) = Some i /\
    nth_error (population st) i = Some (best_individual res) /\
    nth_error (fitness st) i = Some (best_fitness res) /\
    res_best_hist res = best_hist st /\
    res_worst_hist res = worst_hist st /\
    res_avg_hist res = avg_hist st /\
    res_best_t_hist res = best_t_hist st /\
    res_best_Q_hist res = best_Q_hist st.
Proof.
  unfold final_result. intros H.
  apply obind_Ok in H. destruct H as (i & Hi & H). apply of_option_Ok in Hi.
  apply obind_Ok in H. destruct H as (ind & Hind & H). apply index_Ok in Hind.
  apply obind_Ok in H. destruct H as (f & Hf & H). apply index_Ok in Hf.
  injection H as <-. simpl. exists i. repeat split; auto.
Qed.

(** The run seeds the generator, builds and scores the first population,
    loops, and reads the result off the last state. *)
Lemma run_GA_Ok s g res g' :
  run s g = Ok (res, g') ->
  exists st0 g1 st,
    first_state (seed s) = Ok (st0, g1) /\
    generations_loop (Z.to_nat generations) st0 g1 = Ok (st, g') /\
    final_result st = Ok res.
Proof.
  unfold run_GA. intros H.
  mbind H as u g0 Hseed. apply np_seed_Ok in Hseed. destruct Hseed as [_ ->].
  mbind H as st0 g1 Hinit. mbind H as st g2 Hloop.
  apply lift_Ok in H. destruct H as [Hres ->].
  exists st0, g1, st. auto.
Qed.

Lemma for_generations_add (n m : nat) :
  forall st g,
    generations_loop (n + m) st g =
    bind (generations_loop n st) (generations_loop m) g.
Proof.
  induction n as [|n IH]; intros st g; simpl.
  - reflexivity.
  - unfold bind. destruct (generation_step st g) as [[st1 g1]|e]; [|reflexivity].
    rewrite IH. reflexivity.
Qed.

(** A state reached after [n] generations leads to the last state in the
    generations that are left. *)
Lemma for_generations_rest (n total : nat) st0 g0 stn gn st g' :
  (n <= total)%nat ->
  generations_loop n st0 g0 = Ok (stn, gn) ->
  generations_loop total st0 g0 = Ok (st, g') ->
  generations_loop (total - n) stn gn = Ok (st, g').
Proof.
  intros Hle Hn Ht.
  replace total with (n + (total - n))%nat in Ht by lia.
  rewrite for_generations_add in Ht. unfold bind in Ht. rewrite Hn in Ht. exact Ht.
Qed.

Lemma for_generations_evaluated n st g st' g' :
  evaluated st -> generations_loop n st g = Ok (st', g') -> evaluated st'.
Proof.
  apply (for_generations_invariant evaluated).
  intros ? ? ? ? _. apply generation_evaluated.
Qed.

(** The best of a later population is not above any fitness of an earlier
    one. *)
Lemma for_generations_best (n : nat) :
  penalty_factor <> 0 ->
  forall st g st' g' m,
    evaluated st ->
    generations_loop n st g = Ok (st', g') ->
    best_of (fitness st') m ->
    forall f, In f (fitness st) -> fle m f.
Proof.
  intros Hpf. induction n as [|n IH]; simpl; intros st g st' g' m Hev H Hm f Hf.
  - apply ret_Ok in H. destruct H as [-> _].
    apply (best_of_least (fitness st) m); auto.
    eapply evaluate_not_nan; eauto.
  - mbind H as st1 g1 Hgen.
    destruct (generation_elite _ _ _ _ Hev Hgen) as (m1 & rest & Hbest & _ & Hfit).
    pose proof (generation_evaluated _ _ _ _ Hgen) as Hev1.
    assert (Hm1 : fle m m1).
    { eapply IH; eauto. rewrite Hfit. left. reflexivity. }
    eapply fle_trans; [exact Hm1|].
    apply (best_of_least (fitness st) m1); auto.
    eapply evaluate_not_nan; eauto.
Qed.

(** Each generation appends one entry to each of the five histories. *)
Definition recorded (n : nat) (st : loop_state) : Prop :=
  length (best_hist st) = n /\ length (worst_hist st) = n /\
  length (avg_hist st) = n /\ length (best_t_hist st) = n /\
  length (best_Q_hist st) = n.

Lemma generation_recorded n st g st' g' :
  recorded n st -> generation_step st g = Ok (st', g') -> recorded (S n) st'.
Proof.
  unfold recorded. intros Hr H. apply generation_Ok in H.
  destruct H as (i & best & bf & w & k & t & children & _ & _ & _ & _ & _
                 & _ & _ & _ & H1 & H2 & H3 & H4 & H5).
  rewrite H1, H2, H3, H4, H5, !length_app. simpl. lia.
Qed.

Lemma for_generations_recorded n :
  forall k st g st' g',
    recorded k st -> generations_loop n st g = Ok (st', g') -> recorded (k + n) st'.
Proof.
  induction n as [|n IH]; simpl; intros k st g st' g' Hr H.
  - apply ret_Ok in H. destruct H as [-> _]. rewrite Nat.add_0_r. assumption.
  - mbind H as st1 g1 Hgen.
    replace (k + S n)%nat with (S k + n)%nat by lia.
    eapply IH; [|exact H]. eapply generation_recorded; eauto.
Qed.

(** *** The run ends with a result *)

(** No mutation can raise: every standard deviation handed to
    [np.random.normal] is non-negative, or no gene is ever mutated. *)
Definition mutable : Prop :=
  Forall (fun b => 0 <= mutation_scale * (snd b - fst b)) bounds \/
  mutation_rate <= 0.


Lemma generation_total st g :
  (0 < pop_size)%Z -> length bounds = 2%nat -> mutable ->
  sized st -> evaluated st ->
  exists st' g', generation_step st g = Ok (st', g').
Proof.
  intros Hpos Hnv Hmut Hsz Hev. unfold sized in Hsz.
  pose proof (evaluate_length _ _ Hev) as Hlen.
  pose proof (evaluate_genes _ _ Hev) as Hgenes.
  destruct (argmin_nonempty (fitness st)) as [i Hi].
  { destruct (fitness st); [simpl in Hlen; lia | discriminate]. }
  pose proof (argmin_bound _ _ Hi) as Hib.
  destruct (index_total (population st) i ltac:(lia)) as [best Hbest].
  destruct (index_total (fitness st) i ltac:(lia)) as [bf Hbf].
  assert (Hw : exists w, fmax_list (fitness st) = Some w).
  { destruct (fitness st); [simpl in Hib; lia | simpl; eauto]. }
  destruct Hw as [w Hw].
  assert (Hb2 : length best = 2%nat).
  { rewrite Forall_forall in Hgenes. apply Hgenes. eapply index_In; eauto. }
  destruct best as [|k [|t [|x rest]]]; simpl in Hb2; try discriminate.
  assert (Hrows : Forall (fun ind => length ind = length bounds) (population st)).
  { rewrite Hnv. assumption. }
  destruct (breed_total (population st) (fitness st) Hpos ltac:(lia) ltac:(lia)
              Hrows Hmut (Z.to_nat pop_size) [[k; t]] g ltac:(simpl; lia))
    as (np & g' & Hbreed).
  destruct (breed_Ok (fun ind => length ind = 2%nat) (population st) (fitness st))
    with (fuel := Z.to_nat pop_size) (new_population := [[k; t]]) (g := g)
         (new_population' := np) (g' := g')
    as (children & Hnp & Hch & _); auto.
  { intros a p q _ Hp Hq. rewrite !lincomb_length by congruence. auto. }
  { intros c g0 c' g0' Hc Hm. apply mutation_Ok in Hm. destruct Hm as [Hm _].
    congruence. }
  destruct (evaluate_total np) as [fit' Hfit'].
  { rewrite Hnp. apply Forall_app. split; [repeat constructor | assumption]. }
  unfold generation.
  rewrite (bind_run _ _ _ _ _ (lift_run _ _ g (f_equal of_option Hi))).
  rewrite (bind_run _ _ _ _ _ (lift_run _ _ g Hbest)).
  rewrite (bind_run _ _ _ _ _ (lift_run _ _ g Hbf)).
  rewrite (bind_run _ _ _ _ _ (lift_run _ _ g (f_equal of_option Hw))).
  rewrite (bind_run _ _ _ _ _ Hbreed).
  rewrite (bind_run _ _ _ _ _ (lift_run _ _ g' Hfit')).
  unfold ret. eauto.
Qed.

Lemma for_generations_total n :
  (0 < pop_size)%Z -> length bounds = 2%nat -> (n = 0%nat \/ mutable) ->
  forall st g,
    sized st -> evaluated st ->
    exists st' g', generations_loop n st g = Ok (st', g').
Proof.
  intros Hpos Hnv Hmut. induction n as [|n IH]; simpl; intros st g Hsz Hev.
  - unfold ret. eauto.
  - destruct Hmut as [Hmut|Hmut]; [discriminate|].
    destruct (generation_total st g Hpos Hnv Hmut Hsz Hev) as (st1 & g1 & Hgen).
    rewrite (bind_run _ _ _ _ _ Hgen).
    apply IH; [auto | eapply generation_sized; eauto
               | eapply generation_evaluated; eauto].
Qed.

Lemma final_result_total st :
  (0 < pop_size)%Z -> sized st -> evaluated st -> exists res, final_result st = Ok res.
Proof.
  intros Hpos Hsz Hev. unfold sized in Hsz.
  pose proof (evaluate_length _ _ Hev) as Hlen.
  destruct (argmin_nonempty (fitness st)) as [i Hi].
  { destruct (fitness st); [simpl in Hlen; lia | discriminate]. }
  pose proof (argmin_bound _ _ Hi) as Hib.
  destruct (index_total (population st) i ltac:(lia)) as [best Hbest].
  destruct (index_total (fitness st) i ltac:(lia)) as [bf Hbf].
  unfold final_result. rewrite Hi. simpl. rewrite Hbest. simpl. rewrite Hbf. simpl.
  eauto.
Qed.

Lemma initial_state_total g :
  (0 <= pop_size)%Z -> length bounds = 2%nat ->
  exists st g', first_state g = Ok (st, g') /\ sized st /\ evaluated st.
Proof.
  intros Hpos Hnv.
  destruct (initial_population_total g Hpos) as (pop & g' & Hpop).
  pose proof (initial_population_Ok _ _ _ Hpop) as (_ & Hlen & Hrows & _).
  destruct (evaluate_total pop) as [fit Hfit].
  { rewrite Hnv in Hrows. assumption. }
  unfold initial_state. rewrite (bind_run _ _ _ _ _ Hpop).
  rewrite (bind_run _ _ _ _ _ (lift_run _ _ g' Hfit)). unfold ret.
  do 2 eexists. split; [reflexivity|]. unfold sized, evaluated. simpl.
  split; [lia | assumption].
Qed.

(** With at least one individual and two bounds the run returns a result,
    whatever the other parameters, as long as no mutation can raise. *)
Lemma run_GA_total s g :
  valid_seed s ->
  (0 < pop_size)%Z -> length bounds = 2%nat ->
  ((generations <= 0)%Z \/ mutable) ->
  exists res g', run s g = Ok (res, g').
Proof.
  intros Hseed Hpos Hnv Hmut.
  destruct (initial_state_total (seed s) ltac:(lia) Hnv) as (st0 & g1 & Hinit & Hsz & Hev).
  destruct (for_generations_total (Z.to_nat generations) Hpos Hnv
              ltac:(destruct Hmut; [left; lia | right; assumption])
              st0 g1 Hsz Hev) as (st & g2 & Hloop).
  destruct (final_result_total st Hpos) as [res Hres].
  { eapply (for_generations_invariant sized); [|exact Hsz|exact Hloop].
    intros ? ? ? ?. apply generation_sized. }
  { eapply for_generations_evaluated; eauto. }
  unfold run_GA. rewrite (bind_run _ _ _ _ _ (np_seed_run s g Hseed)).
  rewrite (bind_run _ _ _ _ _ Hinit). rewrite (bind_run _ _ _ _ _ Hloop).
  rewrite (lift_run _ _ g2 Hres). eauto.
Qed.

(** *** Elitism over the whole run *)

Lemma initial_elitist g st g' :
  first_state g = Ok (st, g') -> elitist st.
Proof.
  intros H. apply initial_state_Ok in H.
  destruct H as (_ & _ & Hh & _). unfold elitist. rewrite Hh. split.
  - intros h [].
  - intros i j a b _ Ha. destruct i; discriminate.
Qed.

Lemma run_GA_elitism s g res g' :
  penalty_factor <> 0 ->
  run s g = Ok (res, g') ->
  descending (res_best_hist res) /\
  (forall h, In h (res_best_hist res) -> fle (best_fitness res) h) /\
  objective (best_individual res) penalty_factor = Ok (best_fitness res) /\
  (forall n st0 g1 stn gn,
      (n <= Z.to_nat generations)%nat ->
      first_state (seed s) = Ok (st0, g1) ->
      generations_loop n st0 g1 = Ok (stn, gn) ->
      forall f, In f (fitness stn) -> fle (best_fitness res) f).
Proof.
  intros Hpf H. apply run_GA_Ok in H. destruct H as (st0 & g1 & st & Hinit & Hloop & Hres).
  pose proof (initial_state_Ok _ _ _ Hinit) as (_ & Hev0 & _).
  pose proof (for_generations_evaluated _ _ _ _ _ Hev0 Hloop) as Hev.
  assert (Hel : elitist st).
  { revert Hloop.
    apply (for_generations_invariant (fun st => evaluated st /\ elitist st)).
    - intros st1 g2 st2 g3 [He1 Hl1] Hgen. split.
      + eapply generation_evaluated; eauto.
      + eapply generation_elitist; eauto.
    - split; [assumption | eapply initial_elitist; eauto]. }
  apply final_result_Ok in Hres.
  destruct Hres as (i & Hi & Hind & Hfit & Hh & _).
  assert (Hbest : best_of (fitness st) (best_fitness res)) by (exists i; auto).
  pose proof (evaluate_not_nan _ _ Hpf Hev) as Hnan.
  pose proof (best_of_least _ _ Hnan Hbest) as Hleast.
  destruct Hel as [Hcur Hdesc]. rewrite Hh.
  split; [assumption|]. split; [|split].
  - intros h Hin. destruct (Hcur h Hin) as (f & Hf & Hfh).
    eapply fle_trans; [apply Hleast; exact Hf | exact Hfh].
  - apply evaluate_Forall2 in Hev.
    exact (Forall2_nth_error_both _ _ _ _ _ _ Hev Hind Hfit).
  - intros n st0' g1' stn gn Hn Hinit' Hn_loop f Hf.
    rewrite Hinit in Hinit'. injection Hinit' as <- <-.
    pose proof (for_generations_rest _ _ _ _ _ _ _ _ Hn Hn_loop Hloop) as Hrest.
    pose proof (for_generations_evaluated _ _ _ _ _ Hev0 Hn_loop) as Hevn.
    exact (for_generations_best _ Hpf _ _ _ _ _ Hevn Hrest Hbest f Hf).
Qed.

(** The next population starts with the row [np.argmin] points at; the
    breeding loop supplies the rest. *)
Lemma generation_carries_best st g st' g' :
  generation_step st g = Ok (st', g') ->
  exists i best children,
    argmin (fitness st) = Some i /\
    nth_error (population st) i = Some best /\
    population st' = best :: children /\
    breed_loop (Z.to_nat pop_size) (population st) (fitness st) [best] g
      = Ok (best :: children, g').
Proof.
  intros H. apply generation_Ok in H.
  destruct H as (i & best & bf & w & k & t & children & Hi & Hbest & _ & _ & _
                 & Hbreed & Hpop & _).
  exists i, best, children. auto.
Qed.

(** *** What the histories hold *)

(** Histories only grow. *)
Definition histories_extend (st st' : loop_state) : Prop :=
  extends (best_hist st) (best_hist st') /\
  extends (worst_hist st) (worst_hist st') /\
  extends (avg_hist st) (avg_hist st') /\
  extends (best_t_hist st) (best_t_hist st') /\
  extends (best_Q_hist st) (best_Q_hist st').

Lemma for_generations_extend n :
  forall st g st' g',
    generations_loop n st g = Ok (st', g') -> histories_extend st st'.
Proof.
  induction n as [|n IH]; simpl; intros st g st' g' H.
  - apply ret_Ok in H. destruct H as [-> _].
    repeat split; apply extends_refl.
  - mbind H as st1 g1 Hgen. apply IH in H.
    apply generation_Ok in Hgen.
    destruct Hgen as (i & best & bf & w & k & t & children & _ & _ & _ & _ & _
                      & _ & _ & _ & H1 & H2 & H3 & H4 & H5).
    destruct H as (E1 & E2 & E3 & E4 & E5).
    rewrite H1 in E1. rewrite H2 in E2. rewrite H3 in E3.
    rewrite H4 in E4. rewrite H5 in E5.
    repeat split; (eapply extends_trans; [apply extends_snoc | eassumption]).
Qed.

(** Entry [n] of every history is the statistics of the population that
    stands after [n] generations, before it is replaced. *)
Lemma history_entry n total st0 g0 stn gn st g' :
  recorded 0 st0 ->
  generations_loop n st0 g0 = Ok (stn, gn) ->
  (n < total)%nat ->
  generations_loop total st0 g0 = Ok (st, g') ->
  exists i m w k t,
    argmin (fitness stn) = Some i /\
    nth_error (fitness stn) i = Some m /\
    nth_error (population stn) i = Some [k; t] /\
    fmax_list (fitness stn) = Some w /\
    nth_error (best_hist st) n = Some m /\
    nth_error (worst_hist st) n = Some w /\
    nth_error (avg_hist st) n = Some (fmean (fitness stn)) /\
    nth_error (best_t_hist st) n = Some t /\
    nth_error (best_Q_hist st) n = Some (heat_flow k t).
Proof.
  intros Hrec Hn Hlt Htotal.
  pose proof (for_generations_recorded n 0 _ _ _ _ Hrec Hn) as (R1 & R2 & R3 & R4 & R5).
  simpl in R1, R2, R3, R4, R5.
  pose proof (for_generations_rest n total _ _ _ _ _ _ ltac:(lia) Hn Htotal) as Hrest.
  destruct (total - n)%nat as [|k'] eqn:Hk; [lia|]. simpl in Hrest.
  mbind Hrest as st1 g1 Hgen.
  apply for_generations_extend in Hrest. destruct Hrest as (E1 & E2 & E3 & E4 & E5).
  apply generation_Ok in Hgen.
  destruct Hgen as (i & best & bf & w & k & t & children & Hi & Hbest & Hbf & Hw & ->
                    & _ & _ & _ & H1 & H2 & H3 & H4 & H5).
  rewrite H1 in E1. rewrite H2 in E2. rewrite H3 in E3.
  rewrite H4 in E4. rewrite H5 in E5.
  exists i, bf, w, k, t.
  split; [exact Hi|]. split; [exact Hbf|]. split; [exact Hbest|].
  split; [exact Hw|].
  split; [exact (extends_entry _ _ _ _ R1 E1)|].
  split; [exact (extends_entry _ _ _ _ R2 E2)|].
  split; [exact (extends_entry _ _ _ _ R3 E3)|].
  split; [exact (extends_entry _ _ _ _ R4 E4)|].
  exact (extends_entry _ _ _ _ R5 E5).
Qed.

(** *** Population sizes below one *)



End Facts.
End CilindroEngine.

(** * placa_plana_ga.py: the engine *)

Module PlacaPlanaEngine.
Import PlacaPlana PlacaPlanaFitness.

Section Facts.
Context {RS : RandomSource}.

(** *** Initialisation *)

Lemma init_population_Ok pop_size g pop g' :
  init_population pop_size g = Ok (pop, g') ->
  (0 <= pop_size)%Z /\
  length pop = Z.to_nat pop_size /\
  Forall in_box pop.
Proof.
  unfold init_population.
  destruct (Z.ltb_spec pop_size 0) as [Hn|Hn]; intros H; [mstep H|].
  mbind H as ts g1 Hts. apply uniform_Ok in Hts. destruct Hts as [Hlt Hts].
  mbind H as ks g2 Hks. apply uniform_Ok in Hks. destruct Hks as [Hlk Hks].
  apply ret_Ok in H. destruct H as [-> ->].
  split; [assumption|].
  split; [etransitivity; [exact (length_combine ts ks) | lia]|].
  assert (Ht : Forall (fun x => t_min <= x <= t_max) ts).
  { apply Hts. unfold t_min, t_max. lra. }
  assert (Hk : Forall (fun x => k_min <= x <= k_max) ks).
  { apply Hks. unfold k_min, k_max. lra. }
  clear - Ht Hk. revert ks Hk.
  induction Ht as [|t ts Hx Ht IH]; intros ks Hk; simpl; [constructor|].
  destruct Hk as [|k ks Hy Hk]; simpl; constructor.
  - split; assumption.
  - apply IH. assumption.
Qed.

Lemma init_population_total pop_size g :
  (0 <= pop_size)%Z -> exists pop g', init_population pop_size g = Ok (pop, g').
Proof.
  intros H. unfold init_population.
  destruct (Z.ltb_spec pop_size 0) as [Hn|Hn]; [lia|].
  destruct (uniform_total t_min t_max (Z.to_nat pop_size) g) as (ts & g1 & Hts).
  rewrite (bind_run _ _ _ _ _ Hts).
  destruct (uniform_total k_min k_max (Z.to_nat pop_size) g1) as (ks & g2 & Hks).
  rewrite (bind_run _ _ _ _ _ Hks). unfold ret. eauto.
Qed.

(** *** Selection *)

(** The parent is the row of the drawn index whose fitness [np.argmin]
    picks among the fitnesses of the drawn indices. *)
Lemma select_Ok pop fitnesses k g parent g' :
  tournament_selection pop fitnesses k g = Ok (parent, g') ->
  exists idxs drawn pos best_idx,
    randint (Z.of_nat (length pop)) k g = Ok (idxs, g') /\
    length idxs = k /\
    Forall (fun j => (j < length pop)%nat) idxs /\
    Forall2 (fun j f => nth_error fitnesses j = Some f) idxs drawn /\
    argmin drawn = Some pos /\
    nth_error idxs pos = Some best_idx /\
    nth_error pop best_idx = Some parent.
Proof.
  unfold tournament_selection. intros H.
  mbind H as idxs g1 Hidx.
  pose proof (randint_Ok _ _ _ _ _ Hidx) as (_ & Hlen & Hall).
  rewrite Nat2Z.id in Hall.
  mbind H as drawn g2 Hdr. apply lift_Ok in Hdr. destruct Hdr as [Hdr ->].
  apply omap_Ok in Hdr.
  mbind H as pos g2 Hpos. apply lift_Ok in Hpos. destruct Hpos as [Hpos ->].
  apply of_option_Ok in Hpos.
  mbind H as best_idx g2 Hbi. apply lift_Ok in Hbi. destruct Hbi as [Hbi ->].
  apply index_Ok in Hbi.
  apply lift_Ok in H. destruct H as [Hp ->]. apply index_Ok in Hp.
  exists idxs, drawn, pos, best_idx. repeat split; auto.
  eapply Forall2_impl; [|exact Hdr]. intros j f Hj. apply index_Ok. assumption.
Qed.

Lemma select_In pop fitnesses k g parent g' :
  tournament_selection pop fitnesses k g = Ok (parent, g') -> In parent pop.
Proof.
  intros H. apply select_Ok in H.
  destruct H as (? & ? & ? & ? & _ & _ & _ & _ & _ & _ & Hp).
  eapply nth_error_In; eauto.
Qed.

Lemma select_total pop fitnesses k g :
  pop <> [] -> length fitnesses = length pop -> (0 < k)%nat ->
  exists parent g', tournament_selection pop fitnesses k g = Ok (parent, g').
Proof.
  intros Hne Hlen Hk. unfold tournament_selection.
  assert (Hpos : (0 < Z.of_nat (length pop))%Z).
  { destruct pop; [congruence | simpl; lia]. }
  destruct (randint_total _ k g Hpos) as (idxs & g1 & Hidx).
  rewrite (bind_run _ _ _ _ _ Hidx).
  apply randint_Ok in Hidx. destruct Hidx as (_ & Hl & Hall).
  rewrite Nat2Z.id in Hall.
  destruct (omap_total (index fitnesses) idxs) as [drawn Hdr].
  { eapply Forall_impl; [|exact Hall]. intros j Hj. simpl in Hj.
    apply index_total. rewrite Hlen. exact Hj. }
  rewrite (bind_run _ _ _ _ _ (lift_run _ _ g1 Hdr)).
  pose proof (omap_Ok _ _ _ Hdr) as Hf2.
  pose proof (Forall2_length Hf2) as Hld.
  destruct (argmin_nonempty drawn) as [pos Hp].
  { destruct drawn; [simpl in Hld; lia | discriminate]. }
  rewrite (bind_run _ _ _ _ _ (lift_run _ _ g1 (f_equal of_option Hp))).
  pose proof (argmin_bound _ _ Hp) as Hpb.
  destruct (index_total idxs pos ltac:(lia)) as [bi Hbi].
  rewrite (bind_run _ _ _ _ _ (lift_run _ _ g1 Hbi)).
  assert (Hbb : (bi < length pop)%nat).
  { rewrite Forall_forall in Hall. apply Hall. eapply index_In; eauto. }
  destruct (index_total pop bi Hbb) as [parent Hpar].
  rewrite (lift_run _ _ g1 Hpar). eauto.
Qed.

(** *** Crossover and mutation *)

Lemma crossover_Ok p1 p2 pc g c1 c2 g' :
  in_box p1 -> in_box p2 ->
  crossover p1 p2 pc g = Ok ((c1, c2), g') -> in_box c1 /\ in_box c2.
Proof.
  unfold crossover, in_box. intros [Ht1 Hk1] [Ht2 Hk2] H.
  mbind H as u g1 Hu.
  destruct (Rltb u pc).
  - mbind H as alpha g2 Ha. apply rand_Ok in Ha. destruct Ha as [Ha _].
    apply ret_Ok in H. destruct H as [Hc _]. injection Hc as -> ->. simpl.
    repeat split; nra.
  - apply ret_Ok in H. destruct H as [Hc _]. injection Hc as -> ->. auto.
Qed.

Lemma crossover_total p1 p2 pc g :
  exists c1 c2 g', crossover p1 p2 pc g = Ok ((c1, c2), g').
Proof.
  unfold crossover.
  destruct (rand_total g) as (u & g1 & Hu & _). rewrite (bind_run _ _ _ _ _ Hu).
  destruct (Rltb u pc).
  - destruct (rand_total g1) as (al & g2 & Hal & _). rewrite (bind_run _ _ _ _ _ Hal).
    unfold ret. eauto.
  - unfold ret. eauto.
Qed.

(** Mutation always ends with the clamp: its result is in the box. *)
Lemma mutate_Ok ind pm st sk g ind' g' :
  mutate ind pm st sk g = Ok (ind', g') -> in_box ind'.
Proof.
  unfold mutate. destruct ind as [t k]. intros H.
  mbind H as u1 g1 Hu1. mbind H as t1 g2 Ht1.
  mbind H as u2 g3 Hu2. mbind H as k1 g4 Hk1.
  apply ret_Ok in H. destruct H as [-> _]. unfold in_box. simpl.
  split; apply clip_range; unfold t_min, t_max, k_min, k_max; lra.
Qed.

Lemma mutate_total ind pm st sk g :
  0 <= st -> 0 <= sk -> exists ind' g', mutate ind pm st sk g = Ok (ind', g').
Proof.
  intros Hst Hsk. unfold mutate. destruct ind as [t k].
  destruct (rand_total g) as (u1 & g1 & Hu1 & _). rewrite (bind_run _ _ _ _ _ Hu1).
  assert (H1 : exists t1 g2,
             (if Rltb u1 pm then d <- normal 0 st ;; ret (t + d) else ret t) g1
             = Ok (t1, g2)).
  { destruct (Rltb u1 pm); [|unfold ret; eauto].
    destruct (normal_total 0 st g1 Hst) as (d & g2 & Hd).
    rewrite (bind_run _ _ _ _ _ Hd). unfold ret. eauto. }
  destruct H1 as (t1 & g2 & H1). rewrite (bind_run _ _ _ _ _ H1).
  destruct (rand_total g2) as (u2 & g3 & Hu2 & _). rewrite (bind_run _ _ _ _ _ Hu2).
  assert (H2 : exists k1 g4,
             (if Rltb u2 pm then d <- normal 0 sk ;; ret (k + d) else ret k) g3
             = Ok (k1, g4)).
  { destruct (Rltb u2 pm); [|unfold ret; eauto].
    destruct (normal_total 0 sk g3 Hsk) as (d & g4 & Hd).
    rewrite (bind_run _ _ _ _ _ Hd). unfold ret. eauto. }
  destruct H2 as (k1 & g4 & H2). rewrite (bind_run _ _ _ _ _ H2).
  unfold ret. eauto.
Qed.

(** With a mutation probability of zero only the clamp is left. *)
Lemma mutate_rate_zero ind pm st sk g ind' g' :
  pm <= 0 ->
  mutate ind pm st sk g = Ok (ind', g') ->
  ind' = (clip (fst ind) t_min t_max, clip (snd ind) k_min k_max).
Proof.
  intros Hz. unfold mutate. destruct ind as [t k]. intros H.
  mbind H as u1 g1 Hu1. apply rand_Ok in Hu1. destruct Hu1 as [Hu1 _].
  mbind H as t1 g2 Ht1.
  mbind H as u2 g3 Hu2. apply rand_Ok in Hu2. destruct Hu2 as [Hu2 _].
  mbind H as k1 g4 Hk1.
  apply ret_Ok in H. destruct H as [-> _]. simpl.
  rcases; try lra.
  apply ret_Ok in Ht1, Hk1. destruct Ht1 as [-> _]. destruct Hk1 as [-> _].
  reflexivity.
Qed.

(** *** The breeding loop *)

Variables pop_size generations : Z.
Variables pc pm penalty_factor : R.

Abbreviation breed_loop := (breed pop_size pc pm).
Abbreviation generation_step := (generation pop_size pc pm penalty_factor).
Abbreviation generations_loop := (for_generations pop_size pc pm penalty_factor).
Abbreviation first_state := (initial_state pop_size penalty_factor).
Abbreviation run := (run_GA pop_size generations pc pm penalty_factor).

(** The loop appends children that are in the box (each one went through
    the clamp of [mutate]) and stops at [pop_size] exactly. *)
Lemma breed_children pop fitnesses :
  forall fuel new_pop g new_pop' g',
    breed_loop fuel pop fitnesses new_pop g = Ok (new_pop', g') ->
    exists children,
      new_pop' = new_pop ++ children /\
      Forall in_box children /\
      ((Z.of_nat (length new_pop) <= pop_size)%Z ->
       Z.of_nat (length new_pop') = pop_size).
Proof.
  induction fuel as [|fuel IH]; intros np g np' g' H; simpl in H;
    destruct (Z.ltb_spec (Z.of_nat (length np)) pop_size) as [Hlt|Hge].
  - mstep H.
  - mstep H. exists []. rewrite app_nil_r. repeat split; [constructor | lia].
  - mbind H as p1 g1 Hp1. mbind H as p2 g2 Hp2.
    mbind H as [c1 c2] g3 Hcross.
    mbind H as c1' g4 Hm1. apply mutate_Ok in Hm1.
    mbind H as c2' g5 Hm2. apply mutate_Ok in Hm2.
    rewrite length_app in H. simpl in H.
    destruct (Z.ltb_spec (Z.of_nat (length np + 1)) pop_size) as [Hroom|Hfull];
      apply IH in H; destruct H as (ch & -> & Hch & Hlen).
    + exists (c1' :: c2' :: ch). rewrite <- !app_assoc. simpl.
      split; [reflexivity|].
      split; [constructor; [assumption | constructor; assumption]|].
      intros _. rewrite <- !app_assoc in Hlen. simpl in Hlen. apply Hlen.
      rewrite !length_app. simpl. lia.
    + exists (c1' :: ch). rewrite <- !app_assoc. simpl.
      split; [reflexivity|]. split; [constructor; assumption|].
      intros _. rewrite <- !app_assoc in Hlen. simpl in Hlen. apply Hlen.
      rewrite !length_app. simpl. lia.
  - mstep H. exists []. rewrite app_nil_r. repeat split; [constructor | lia].
Qed.

Lemma sigma_nonneg : 0 <= sigma_t /\ 0 <= sigma_k.
Proof. unfold sigma_t, sigma_k. lra. Qed.

(** One unit of fuel per free slot is enough, and no step raises. *)
Lemma breed_ends pop fitnesses :
  pop <> [] -> length fitnesses = length pop ->
  forall fuel new_pop g,
    (Z.to_nat pop_size - length new_pop <= fuel)%nat ->
    exists new_pop' g', breed_loop fuel pop fitnesses new_pop g = Ok (new_pop', g').
Proof.
  intros Hne Hlen.
  induction fuel as [|fuel IH]; intros np g Hfuel; simpl;
    destruct (Z.ltb_spec (Z.of_nat (length np)) pop_size) as [Hlt|Hge];
    try (unfold ret; eauto; fail); try lia.
  destruct (select_total pop fitnesses k_tour g Hne Hlen ltac:(unfold k_tour; lia))
    as (p1 & g1 & Hp1).
  rewrite (bind_run _ _ _ _ _ Hp1).
  destruct (select_total pop fitnesses k_tour g1 Hne Hlen ltac:(unfold k_tour; lia))
    as (p2 & g2 & Hp2).
  rewrite (bind_run _ _ _ _ _ Hp2).
  destruct (crossover_total p1 p2 pc g2) as (c1 & c2 & g3 & Hc).
  rewrite (bind_run _ _ _ _ _ Hc).
  destruct sigma_nonneg as [Hst Hsk].
  destruct (mutate_total c1 pm sigma_t sigma_k g3 Hst Hsk) as (c1' & g4 & Hm1).
  rewrite (bind_run _ _ _ _ _ Hm1).
  destruct (mutate_total c2 pm sigma_t sigma_k g4 Hst Hsk) as (c2' & g5 & Hm2).
  rewrite (bind_run _ _ _ _ _ Hm2).
  apply IH. rewrite length_app. simpl.
  destruct (Z.ltb_spec (Z.of_nat (length np + 1)) pop_size);
    rewrite ?length_app; simpl; lia.
Qed.

(** *** One generation *)

(** The fitness vector is the fitness of each row, in order. *)
Definition scored (st : loop_state) : Prop :=
  fitnesses st = evaluate penalty_factor (pop st).

Lemma scored_not_nan st : scored st -> Forall not_nan (fitnesses st).
Proof.
  unfold scored, evaluate. intros ->. apply Forall_forall. intros f Hf.
  apply in_map_iff in Hf. destruct Hf as (ind & <- & _). apply fitness_not_nan.
Qed.

Lemma scored_length st : scored st -> length (fitnesses st) = length (pop st).
Proof. unfold scored, evaluate. intros ->. apply length_map. Qed.

Lemma step_Ok st g st' g' :
  generation_step st g = Ok (st', g') ->
  exists best_idx worst_idx bf wf t k children,
    argmin (fitnesses st) = Some best_idx /\
    argmax (fitnesses st) = Some worst_idx /\
    nth_error (fitnesses st) best_idx = Some bf /\
    nth_error (fitnesses st) worst_idx = Some wf /\
    nth_error (pop st) best_idx = Some (t, k) /\
    breed_loop (Z.to_nat pop_size) (pop st) (fitnesses st) [(t, k)] g
      = Ok ((t, k) :: children, g') /\
    Forall in_box children /\
    pop st' = (t, k) :: children /\
    scored st' /\
    hist st' =
      {| hist_t := hist_t (hist st) ++ [t];
         hist_k := hist_k (hist st) ++ [k];
         hist_Q := hist_Q (hist st) ++ [heat_flow k t];
         best_fit := best_fit (hist st) ++ [bf];
         mean_fit := mean_fit (hist st) ++ [fmean (fitnesses st)];
         worst_fit := worst_fit (hist st) ++ [wf] |}.
Proof.
  unfold generation. intros H.
  mbind H as best_idx g1 Hbi. apply lift_Ok in Hbi. destruct Hbi as [Hbi ->].
  apply of_option_Ok in Hbi.
  mbind H as worst_idx g1 Hwi. apply lift_Ok in Hwi. destruct Hwi as [Hwi ->].
  apply of_option_Ok in Hwi.
  mbind H as bf g1 Hbf. apply lift_Ok in Hbf. destruct Hbf as [Hbf ->].
  apply index_Ok in Hbf.
  mbind H as wf g1 Hwf. apply lift_Ok in Hwf. destruct Hwf as [Hwf ->].
  apply index_Ok in Hwf.
  mbind H as best g1 Hbest. apply lift_Ok in Hbest. destruct Hbest as [Hbest ->].
  apply index_Ok in Hbest. destruct best as [t k].
  mbind H as new_pop g1 Hbreed.
  apply ret_Ok in H. destruct H as [-> ->].
  destruct (breed_children _ _ _ _ _ _ _ Hbreed) as (children & Hnp & Hch & _).
  simpl in Hnp. subst new_pop.
  exists best_idx, worst_idx, bf, wf, t, k, children. simpl.
  unfold scored. simpl. repeat split; auto.
Qed.

Lemma for_generations_keeps (I : loop_state -> Prop) :
  (forall st g st' g', I st -> generation_step st g = Ok (st', g') -> I st') ->
  forall n st g st' g',
    I st -> generations_loop n st g = Ok (st', g') -> I st'.
Proof.
  intros Hstep. induction n as [|n IH]; simpl; intros st g st' g' HI H.
  - apply ret_Ok in H. destruct H as [-> _]. assumption.
  - mbind H as st1 g1 Hgen. eapply IH; [|exact H]. eapply Hstep; eauto.
Qed.

Lemma step_scored st g st' g' :
  generation_step st g = Ok (st', g') -> scored st'.
Proof.
  intros H. apply step_Ok in H.
  destruct H as (? & ? & ? & ? & ? & ? & ? & H). tauto.
Qed.

(** The population has [pop_size] rows. *)
Definition full (st : loop_state) : Prop :=
  Z.of_nat (length (pop st)) = pop_size.

Lemma step_full st g st' g' :
  full st -> generation_step st g = Ok (st', g') -> full st'.
Proof.
  unfold full. intros Hs H. apply step_Ok in H.
  destruct H as (bi & wi & bf & wf & t & k & children & _ & _ & _ & _ & Hbest
                 & Hbreed & _ & Hpop & _).
  rewrite Hpop.
  assert (Hne : (0 < length (pop st))%nat).
  { destruct (pop st); [destruct bi; discriminate | simpl; lia]. }
  destruct (breed_children _ _ _ _ _ _ _ Hbreed) as (ch & _ & _ & Hlen).
  apply Hlen. simpl. lia.
Qed.

(** Every row is inside the box. *)
Definition boxed (st : loop_state) : Prop := Forall in_box (pop st).

Lemma step_boxed st g st' g' :
  boxed st -> generation_step st g = Ok (st', g') -> boxed st'.
Proof.
  unfold boxed. intros Hb H. apply step_Ok in H.
  destruct H as (bi & wi & bf & wf & t & k & children & _ & _ & _ & _ & Hbest
                 & _ & Hch & Hpop & _).
  rewrite Hpop. constructor; [|assumption].
  rewrite Forall_forall in Hb. apply Hb. eapply nth_error_In; eauto.
Qed.

(** *** Elitism *)

Lemma step_elite st g st' g' :
  scored st -> generation_step st g = Ok (st', g') ->
  exists m rest,
    best_of (fitnesses st) m /\
    best_fit (hist st') = best_fit (hist st) ++ [m] /\
    fitnesses st' = m :: rest.
Proof.
  intros Hsc H. apply step_Ok in H.
  destruct H as (bi & wi & bf & wf & t & k & children & Hbi & _ & Hbf & _ & Hbest
                 & _ & _ & Hpop & Hsc' & Hhist).
  unfold scored, evaluate in *.
  assert (Hobj : bf = fitness (t, k) penalty_factor).
  { rewrite Hsc in Hbf. rewrite nth_error_map, Hbest in Hbf. cbn [option_map] in Hbf.
    congruence. }
  exists bf, (map (fun ind => fitness ind penalty_factor) children).
  split; [exists bi; auto|]. split.
  - rewrite Hhist. reflexivity.
  - rewrite Hsc', Hpop. cbn [map]. congruence.
Qed.

(** Every recorded best is matched or beaten by the current population,
    and the record so far is descending. *)
Definition keeps_best (st : loop_state) : Prop :=
  (forall h, In h (best_fit (hist st)) -> exists f, In f (fitnesses st) /\ fle f h) /\
  descending (best_fit (hist st)).

Lemma step_keeps_best st g st' g' :
  scored st -> keeps_best st -> generation_step st g = Ok (st', g') -> keeps_best st'.
Proof.
  intros Hsc [Hcur Hdesc] H.
  destruct (step_elite _ _ _ _ Hsc H) as (m & rest & Hbest & Hhist & Hfit).
  pose proof (scored_not_nan _ Hsc) as Hnan.
  pose proof (best_of_least _ _ Hnan Hbest) as Hleast.
  assert (Hmn : not_nan m).
  { destruct Hbest as (i & _ & Hm). rewrite Forall_forall in Hnan.
    apply Hnan. eapply nth_error_In; eauto. }
  assert (Hold : forall h, In h (best_fit (hist st)) -> fle m h).
  { intros h Hh. destruct (Hcur h Hh) as (f & Hf & Hfh).
    eapply fle_trans; [apply Hleast; exact Hf | exact Hfh]. }
  split.
  - rewrite Hhist, Hfit. intros h Hh. exists m. split; [left; reflexivity|].
    apply in_app_or in Hh. destruct Hh as [Hh|[<-|[]]]; [auto | apply fle_refl; auto].
  - rewrite Hhist. apply descending_snoc; assumption.
Qed.

(** *** The whole run *)

Lemma last_result_Ok st t k Q h :
  final_result st = Ok (t, k, Q, h) ->
  exists i,
    argmin (fitnesses st) = Some i /\
    nth_error (pop st) i = Some (t, k) /\
    Q = heat_flow k t /\
    h = hist st.
Proof.
  unfold final_result. intros H.
  apply obind_Ok in H. destruct H as (i & Hi & H). apply of_option_Ok in Hi.
  apply obind_Ok in H. destruct H as ([t0 k0] & Hind & H). apply index_Ok in Hind.
  injection H as <- <- <- <-. exists i. auto.
Qed.

Lemma run_Ok g res g' :
  run g = Ok (res, g') ->
  exists st0 g1 st,
    first_state g = Ok (st0, g1) /\
    generations_loop (Z.to_nat generations) st0 g1 = Ok (st, g') /\
    final_result st = Ok res.
Proof.
  unfold run_GA. intros H.
  mbind H as st0 g1 Hinit. mbind H as st g2 Hloop.
  apply lift_Ok in H. destruct H as [Hres ->].
  exists st0, g1, st. auto.
Qed.

Lemma first_state_Ok g st g' :
  first_state g = Ok (st, g') ->
  init_population pop_size g = Ok (pop st, g') /\
  scored st /\
  hist st = {| hist_t := []; hist_k := []; hist_Q := [];
               best_fit := []; mean_fit := []; worst_fit := [] |}.
Proof.
  unfold initial_state. intros H.
  mbind H as p g1 Hpop. apply ret_Ok in H. destruct H as [-> ->]. simpl.
  unfold scored. simpl. auto.
Qed.

Lemma generations_add (n m : nat) :
  forall st g,
    generations_loop (n + m) st g =
    bind (generations_loop n st) (generations_loop m) g.
Proof.
  induction n as [|n IH]; intros st g; simpl.
  - reflexivity.
  - unfold bind. destruct (generation_step st g) as [[st1 g1]|e]; [|reflexivity].
    rewrite IH. reflexivity.
Qed.

Lemma generations_rest (n total : nat) st0 g0 stn gn st g' :
  (n <= total)%nat ->
  generations_loop n st0 g0 = Ok (stn, gn) ->
  generations_loop total st0 g0 = Ok (st, g') ->
  generations_loop (total - n) stn gn = Ok (st, g').
Proof.
  intros Hle Hn Ht.
  replace total with (n + (total - n))%nat in Ht by lia.
  rewrite generations_add in Ht. unfold bind in Ht. rewrite Hn in Ht. exact Ht.
Qed.

Lemma generations_scored n st g st' g' :
  scored st -> generations_loop n st g = Ok (st', g') -> scored st'.
Proof.
  apply (for_generations_keeps scored).
  intros ? ? ? ? _. apply step_scored.
Qed.

(** The best of a later population is not above any fitness of an earlier
    one. *)
Lemma generations_best (n : nat) :
  forall st g st' g' m,
    scored st ->
    generations_loop n st g = Ok (st', g') ->
    best_of (fitnesses st') m ->
    forall f, In f (fitnesses st) -> fle m f.
Proof.
  induction n as [|n IH]; simpl; intros st g st' g' m Hsc H Hm f Hf.
  - apply ret_Ok in H. destruct H as [-> _].
    apply (best_of_least (fitnesses st) m); auto. apply scored_not_nan; auto.
  - mbind H as st1 g1 Hgen.
    destruct (step_elite _ _ _ _ Hsc Hgen) as (m1 & rest & Hbest & _ & Hfit).
    pose proof (step_scored _ _ _ _ Hgen) as Hsc1.
    assert (Hm1 : fle m m1).
    { eapply IH; eauto. rewrite Hfit. left. reflexivity. }
    eapply fle_trans; [exact Hm1|].
    apply (best_of_least (fitnesses st) m1); auto. apply scored_not_nan; auto.
Qed.

(** Each generation appends one entry to each of the six histories. *)
Definition logged (n : nat) (h : history) : Prop :=
  length (hist_t h) = n /\ length (hist_k h) = n /\ length (hist_Q h) = n /\
  length (best_fit h) = n /\ length (mean_fit h) = n /\ length (worst_fit h) = n.

Lemma step_logged n st g st' g' :
  logged n (hist st) -> generation_step st g = Ok (st', g') -> logged (S n) (hist st').
Proof.
  unfold logged. intros Hr H. apply step_Ok in H.
  destruct H as (bi & wi & bf & wf & t & k & children & _ & _ & _ & _ & _
                 & _ & _ & _ & _ & Hh).
  rewrite Hh. simpl. rewrite !length_app. simpl. lia.
Qed.

Lemma generations_logged n :
  forall k st g st' g',
    logged k (hist st) -> generations_loop n st g = Ok (st', g') ->
    logged (k + n) (hist st').
Proof.
  induction n as [|n IH]; simpl; intros k st g st' g' Hr H.
  - apply ret_Ok in H. destruct H as [-> _]. rewrite Nat.add_0_r. assumption.
  - mbind H as st1 g1 Hgen.
    replace (k + S n)%nat with (S k + n)%nat by lia.
    eapply IH; [|exact H]. eapply step_logged; eauto.
Qed.

(** *** The run ends with a result *)

Lemma step_total st g :
  (0 < pop_size)%Z -> full st -> scored st ->
  exists st' g', generation_step st g = Ok (st', g').
Proof.
  intros Hpos Hsz Hsc. unfold full in Hsz.
  pose proof (scored_length _ Hsc) as Hlen.
  assert (Hne : fitnesses st <> []).
  { destruct (fitnesses st); [simpl in Hlen; lia | discriminate]. }
  assert (Hpne : pop st <> []).
  { destruct (pop st); [simpl in Hsz; lia | discriminate]. }
  destruct (argmin_nonempty (fitnesses st) Hne) as [bi Hbi].
  pose proof (argmin_bound _ _ Hbi) as Hbb.
  destruct (argmax_nonempty (fitnesses st) Hne) as [wi Hwi].
  pose proof (argmax_bound _ _ Hwi) as Hwb.
  destruct (index_total (fitnesses st) bi Hbb) as [bf Hbf].
  destruct (index_total (fitnesses st) wi Hwb) as [wf Hwf].
  destruct (index_total (pop st) bi ltac:(lia)) as [[t k] Hbest].
  destruct (breed_ends (pop st) (fitnesses st) Hpne Hlen
              (Z.to_nat pop_size) [(t, k)] g ltac:(simpl; lia))
    as (np & g' & Hbreed).
  unfold generation.
  rewrite (bind_run _ _ _ _ _ (lift_run _ _ g (f_equal of_option Hbi))).
  rewrite (bind_run _ _ _ _ _ (lift_run _ _ g (f_equal of_option Hwi))).
  rewrite (bind_run _ _ _ _ _ (lift_run _ _ g Hbf)).
  rewrite (bind_run _ _ _ _ _ (lift_run _ _ g Hwf)).
  rewrite (bind_run _ _ _ _ _ (lift_run _ _ g Hbest)).
  rewrite (bind_run _ _ _ _ _ Hbreed).
  unfold ret. eauto.
Qed.

Lemma generations_total n :
  (0 < pop_size)%Z ->
  forall st g,
    full st -> scored st ->
    exists st' g', generations_loop n st g = Ok (st', g').
Proof.
  intros Hpos. induction n as [|n IH]; simpl; intros st g Hsz Hsc.
  - unfold ret. eauto.
  - destruct (step_total st g Hpos Hsz Hsc) as (st1 & g1 & Hgen).
    rewrite (bind_run _ _ _ _ _ Hgen).
    apply IH; [eapply step_full; eauto | eapply step_scored; eauto].
Qed.

Lemma last_result_total st :
  (0 < pop_size)%Z -> full st -> scored st -> exists res, final_result st = Ok res.
Proof.
  intros Hpos Hsz Hsc. unfold full in Hsz.
  pose proof (scored_length _ Hsc) as Hlen.
  destruct (argmin_nonempty (fitnesses st)) as [i Hi].
  { destruct (fitnesses st); [simpl in Hlen; lia | discriminate]. }
  pose proof (argmin_bound _ _ Hi) as Hib.
  destruct (index_total (pop st) i ltac:(lia)) as [[t k] Hbest].
  unfold final_result. rewrite Hi. simpl. rewrite Hbest. simpl. eauto.
Qed.

Lemma first_state_total g :
  (0 <= pop_size)%Z ->
  exists st g', first_state g = Ok (st, g') /\ full st /\ scored st.
Proof.
  intros Hpos.
  destruct (init_population_total pop_size g Hpos) as (p & g1 & Hpop).
  pose proof (init_population_Ok _ _ _ _ Hpop) as (_ & Hlen & _).
  unfold initial_state. rewrite (bind_run _ _ _ _ _ Hpop). unfold ret.
  do 2 eexists. split; [reflexivity|]. unfold full, scored. simpl.
  split; [lia | reflexivity].
Qed.

(** With at least one individual the run returns a result, whatever the
    generation count and the two probabilities. *)
Lemma run_total g :
  (0 < pop_size)%Z -> exists res g', run g = Ok (res, g').
Proof.
  intros Hpos.
  destruct (first_state_total g ltac:(lia)) as (st0 & g1 & Hinit & Hfull & Hsc).
  destruct (generations_total (Z.to_nat generations) Hpos st0 g1 Hfull Hsc)
    as (st & g2 & Hloop).
  destruct (last_result_total st Hpos) as [res Hres].
  { eapply (for_generations_keeps full); [|exact Hfull|exact Hloop].
    intros ? ? ? ?. apply step_full. }
  { eapply generations_scored; eauto. }
  unfold run_GA.
  rewrite (bind_run _ _ _ _ _ Hinit). rewrite (bind_run _ _ _ _ _ Hloop).
  rewrite (lift_run _ _ g2 Hres). eauto.
Qed.

(** *** Elitism over the whole run *)

Lemma first_keeps_best g st g' :
  first_state g = Ok (st, g') -> keeps_best st.
Proof.
  intros H. apply first_state_Ok in H.
  destruct H as (_ & _ & Hh). unfold keeps_best. rewrite Hh. simpl. split.
  - intros h [].
  - intros i j a b _ Ha. destruct i; discriminate.
Qed.

Lemma run_elitism g t k Q h g' :
  run g = Ok ((t, k, Q, h), g') ->
  descending (best_fit h) /\
  (forall x, In x (best_fit h) -> fle (fitness (t, k) penalty_factor) x) /\
  (forall n st0 g1 stn gn,
      (n <= Z.to_nat generations)%nat ->
      first_state g = Ok (st0, g1) ->
      generations_loop n st0 g1 = Ok (stn, gn) ->
      forall f, In f (fitnesses stn) -> fle (fitness (t, k) penalty_factor) f).
Proof.
  intros H. apply run_Ok in H. destruct H as (st0 & g1 & st & Hinit & Hloop & Hres).
  pose proof (first_state_Ok _ _ _ Hinit) as (_ & Hsc0 & _).
  pose proof (generations_scored _ _ _ _ _ Hsc0 Hloop) as Hsc.
  assert (Hel : keeps_best st).
  { revert Hloop.
    apply (for_generations_keeps (fun st => scored st /\ keeps_best st)).
    - intros st1 g2 st2 g3 [He1 Hl1] Hgen. split.
      + eapply step_scored; eauto.
      + eapply step_keeps_best; eauto.
    - split; [assumption | eapply first_keeps_best; eauto]. }
  apply last_result_Ok in Hres.
  destruct Hres as (i & Hi & Hind & _ & ->).
  assert (Hbest : best_of (fitnesses st) (fitness (t, k) penalty_factor)).
  { exists i. split; [assumption|]. rewrite Hsc. unfold evaluate.
    rewrite nth_error_map, Hind. reflexivity. }
  pose proof (scored_not_nan _ Hsc) as Hnan.
  pose proof (best_of_least _ _ Hnan Hbest) as Hleast.
  destruct Hel as [Hcur Hdesc].
  split; [assumption|]. split.
  - intros x Hin. destruct (Hcur x Hin) as (f & Hf & Hfx).
    eapply fle_trans; [apply Hleast; exact Hf | exact Hfx].
  - intros n st0' g1' stn gn Hn Hinit' Hn_loop f Hf.
    rewrite Hinit in Hinit'. injection Hinit' as <- <-.
    pose proof (generations_rest _ _ _ _ _ _ _ _ Hn Hn_loop Hloop) as Hrest.
    pose proof (generations_scored _ _ _ _ _ Hsc0 Hn_loop) as Hscn.
    exact (generations_best _ _ _ _ _ _ Hscn Hrest Hbest f Hf).
Qed.

(** The next population starts with the row [np.argmin] points at; the
    breeding loop supplies the rest. *)
Lemma step_carries_best st g st' g' :
  generation_step st g = Ok (st', g') ->
  exists i best children,
    argmin (fitnesses st) = Some i /\
    nth_error (pop st) i = Some best /\
    pop st' = best :: children /\
    breed_loop (Z.to_nat pop_size) (pop st) (fitnesses st) [best] g
      = Ok (best :: children, g').
Proof.
  intros H. apply step_Ok in H.
  destruct H as (bi & wi & bf & wf & t & k & children & Hbi & _ & _ & _ & Hbest
                 & Hbreed & _ & Hpop & _).
  exists bi, (t, k), children. auto.
Qed.

(** *** What the histories hold *)

(** Histories only grow. *)
Definition log_extends (h h' : history) : Prop :=
  extends (hist_t h) (hist_t h') /\
  extends (hist_k h) (hist_k h') /\
  extends (hist_Q h) (hist_Q h') /\
  extends (best_fit h) (best_fit h') /\
  extends (mean_fit h) (mean_fit h') /\
  extends (worst_fit h) (worst_fit h').

Lemma generations_extend n :
  forall st g st' g',
    generations_loop n st g = Ok (st', g') -> log_extends (hist st) (hist st').
Proof.
  induction n as [|n IH]; simpl; intros st g st' g' H.
  - apply ret_Ok in H. destruct H as [-> _].
    repeat split; apply extends_refl.
  - mbind H as st1 g1 Hgen. apply IH in H.
    apply step_Ok in Hgen.
    destruct Hgen as (bi & wi & bf & wf & t & k & children & _ & _ & _ & _ & _
                      & _ & _ & _ & _ & Hh).
    rewrite Hh in H. destruct H as (E1 & E2 & E3 & E4 & E5 & E6). simpl in *.
    repeat split; (eapply extends_trans; [apply extends_snoc | eassumption]).
Qed.

(** Entry [n] of every history is the statistics of the population that
    stands after [n] generations, before it is replaced. *)
Lemma log_entry n total st0 g0 stn gn st g' :
  logged 0 (hist st0) ->
  generations_loop n st0 g0 = Ok (stn, gn) ->
  (n < total)%nat ->
  generations_loop total st0 g0 = Ok (st, g') ->
  exists bi wi bf wf t k,
    argmin (fitnesses stn) = Some bi /\
    argmax (fitnesses stn) = Some wi /\
    nth_error (fitnesses stn) bi = Some bf /\
    nth_error (fitnesses stn) wi = Some wf /\
    nth_error (pop stn) bi = Some (t, k) /\
    nth_error (hist_t (hist st)) n = Some t /\
    nth_error (hist_k (hist st)) n = Some k /\
    nth_error (hist_Q (hist st)) n = Some (heat_flow k t) /\
    nth_error (best_fit (hist st)) n = Some bf /\
    nth_error (mean_fit (hist st)) n = Some (fmean (fitnesses stn)) /\
    nth_error (worst_fit (hist st)) n = Some wf.
Proof.
  intros Hrec Hn Hlt Htotal.
  pose proof (generations_logged n 0 _ _ _ _ Hrec Hn) as (R1 & R2 & R3 & R4 & R5 & R6).
  simpl in R1, R2, R3, R4, R5, R6.
  pose proof (generations_rest n total _ _ _ _ _ _ ltac:(lia) Hn Htotal) as Hrest.
  destruct (total - n)%nat as [|k'] eqn:Hk; [lia|]. simpl in Hrest.
  mbind Hrest as st1 g1 Hgen.
  apply generations_extend in Hrest.
  apply step_Ok in Hgen.
  destruct Hgen as (bi & wi & bf & wf & t & k & children & Hbi & Hwi & Hbf & Hwf
                    & Hbest & _ & _ & _ & _ & Hh).
  rewrite Hh in Hrest. destruct Hrest as (E1 & E2 & E3 & E4 & E5 & E6).
  simpl in E1, E2, E3, E4, E5, E6.
  exists bi, wi, bf, wf, t, k.
  split; [exact Hbi|]. split; [exact Hwi|]. split; [exact Hbf|].
  split; [exact Hwf|]. split; [exact Hbest|].
  split; [exact (extends_entry _ _ _ _ R1 E1)|].
  split; [exact (extends_entry _ _ _ _ R2 E2)|].
  split; [exact (extends_entry _ _ _ _ R3 E3)|].
  split; [exact (extends_entry _ _ _ _ R4 E4)|].
  split; [exact (extends_entry _ _ _ _ R5 E5)|].
  exact (extends_entry _ _ _ _ R6 E6).
Qed.

(** *** Population sizes below one *)



End Facts.
End PlacaPlanaEngine.

(** * The specification *)

(** The state of the cilindro run with seed [s] after [n] generations. *)
Definition cilindro_generation {RS : RandomSource}
    (bounds : list (R * R)) (pop_size : Z)
    (crossover_rate mutation_rate mutation_scale penalty_factor : R)
    (s : Z) (n : nat) (st : Cilindro.loop_state) : Prop :=
  exists st0 g1 gn,
    Cilindro.initial_state bounds pop_size penalty_factor (seed s) = Ok (st0, g1) /\
    Cilindro.for_generations bounds pop_size crossover_rate mutation_rate
      mutation_scale penalty_factor n st0 g1 = Ok (st, gn).

(** The state of the placa_plana run started on the generator state [g]
    after [n] generations. *)
Definition placa_generation {RS : RandomSource}
    (pop_size : Z) (pc pm penalty_factor : R)
    (g : rng) (n : nat) (st : PlacaPlana.loop_state) : Prop :=
  exists st0 g1 gn,
    PlacaPlana.initial_state pop_size penalty_factor g = Ok (st0, g1) /\
    PlacaPlana.for_generations pop_size pc pm penalty_factor n st0 g1 = Ok (st, gn).

(** The bounds of the cilindro script: k in [0.02, k_max], t in [0.005, 0.08]. *)
Definition script_bounds : list (R * R) :=
  [(2 / 100, Cilindro.k_max); (5 / 1000, 8 / 100)].

Lemma script_bounds_mutable :
  CilindroEngine.mutable script_bounds (3 / 10) (3 / 10).
Proof.
  left. unfold script_bounds, Cilindro.k_max.
  repeat constructor; simpl; lra.
Qed.

(** A run that reaches its [n]-th generation exists for the script's
    parameters on every random source. *)
Lemma cilindro_generation_exists {RS : RandomSource} (pop_size : Z) (s : Z) (n : nat) :
  (0 < pop_size)%Z ->
  exists st,
    cilindro_generation script_bounds pop_size (8 / 10) (3 / 10) (3 / 10) 10000 s n st.
Proof.
  intros Hpos.
  destruct (CilindroEngine.initial_state_total script_bounds pop_size 10000 (seed s)
              ltac:(lia) eq_refl) as (st0 & g1 & Hinit & Hsz & Hev).
  destruct (CilindroEngine.for_generations_total script_bounds pop_size
              (8 / 10) (3 / 10) (3 / 10) 10000 n Hpos eq_refl
              (or_intror script_bounds_mutable) st0 g1 Hsz Hev) as (st & gn & Hloop).
  exists st, st0, g1, gn. auto.
Qed.

Lemma placa_generation_exists {RS : RandomSource}
    (pop_size : Z) (pc pm pf : R) (g : rng) (n : nat) :
  (0 < pop_size)%Z -> exists st, placa_generation pop_size pc pm pf g n st.
Proof.
  intros Hpos.
  destruct (PlacaPlanaEngine.first_state_total pop_size pf g ltac:(lia))
    as (st0 & g1 & Hinit & Hfull & Hsc).
  destruct (PlacaPlanaEngine.generations_total pop_size pc pm pf n Hpos st0 g1 Hfull Hsc)
    as (st & gn & Hloop).
  exists st, st0, g1, gn. auto.
Qed.

(** C8.  The population has exactly [pop_size] individuals in every
    generation of both programs, odd sizes included: the breeding loop,
    started on the elite alone or on any list no longer than [pop_size],
    appends children until the list has [pop_size] rows exactly, and with a
    single free slot it appends a single child. *)
Theorem population_size_constant :
  (forall (RS : RandomSource) bounds pop_size cr mr ms pf s n st,
      cilindro_generation bounds pop_size cr mr ms pf s n st ->
      Z.of_nat (length (Cilindro.population st)) = pop_size /\
      length (Cilindro.fitness st) = length (Cilindro.population st)) /\
  (forall (RS : RandomSource) pop_size pc pm pf g n st,
      placa_generation pop_size pc pm pf g n st ->
      Z.of_nat (length (PlacaPlana.pop st)) = pop_size /\
      length (PlacaPlana.fitnesses st) = length (PlacaPlana.pop st)) /\
  (forall (RS : RandomSource) bounds pop_size cr mr ms fuel population fitness
          new_population g new_population' g',
      (Z.of_nat (length new_population) <= pop_size)%Z ->
      Cilindro.breed bounds pop_size cr mr ms fuel population fitness new_population g
        = Ok (new_population', g') ->
      exists children,
        new_population' = new_population ++ children /\
        Z.of_nat (length new_population + length children) = pop_size /\
        (Z.of_nat (length new_population) + 1 = pop_size ->
         exists child, children = [child])%Z) /\
  (forall (RS : RandomSource) pop_size pc pm fuel pop fitnesses new_pop g new_pop' g',
      (Z.of_nat (length new_pop) <= pop_size)%Z ->
      PlacaPlana.breed pop_size pc pm fuel pop fitnesses new_pop g = Ok (new_pop', g') ->
      exists children,
        new_pop' = new_pop ++ children /\
        Z.of_nat (length new_pop + length children) = pop_size /\
        (Z.of_nat (length new_pop) + 1 = pop_size ->
         exists child, children = [child])%Z).
Proof.
  assert (Hone : forall (A : Type) (l : list A), length l = 1%nat -> exists x, l = [x]).
  { intros A [|x [|y l]]; simpl; intros H; try discriminate. eauto. }
  split; [|split; [|split]].
  - intros RS bounds pop_size cr mr ms pf s n st (st0 & g1 & gn & Hinit & Hloop).
    apply CilindroEngine.initial_state_Ok in Hinit. destruct Hinit as (Hpop & Hev & _).
    apply CilindroEngine.initial_population_Ok in Hpop.
    destruct Hpop as (Hpos & Hlen & _).
    split.
    + eapply (CilindroEngine.for_generations_invariant bounds pop_size cr mr ms pf
                (CilindroEngine.sized pop_size)); [|..|exact Hloop].
      * intros ? ? ? ?. apply CilindroEngine.generation_sized.
      * unfold CilindroEngine.sized. lia.
    + eapply CilindroEngine.evaluate_length.
      eapply CilindroEngine.for_generations_evaluated; eauto.
  - intros RS pop_size pc pm pf g n st (st0 & g1 & gn & Hinit & Hloop).
    apply PlacaPlanaEngine.first_state_Ok in Hinit. destruct Hinit as (Hpop & Hsc & _).
    apply PlacaPlanaEngine.init_population_Ok in Hpop.
    destruct Hpop as (Hpos & Hlen & _).
    split.
    + eapply (PlacaPlanaEngine.for_generations_keeps pop_size pc pm pf
                (PlacaPlanaEngine.full pop_size)); [|..|exact Hloop].
      * intros ? ? ? ?. apply PlacaPlanaEngine.step_full.
      * unfold PlacaPlanaEngine.full. lia.
    + eapply PlacaPlanaEngine.scored_length.
      eapply PlacaPlanaEngine.generations_scored; eauto.
  - intros RS bounds pop_size cr mr ms fuel population fitness np g np' g' Hle H.
    destruct (CilindroEngine.breed_Ok bounds pop_size cr mr ms (fun _ => True)
                population fitness ltac:(auto) ltac:(auto)
                ltac:(apply Forall_forall; auto) _ _ _ _ _ H)
      as (children & Hnp & _ & Hlen).
    exists children. split; [assumption|]. specialize (Hlen Hle).
    rewrite Hnp, length_app in Hlen. split; [assumption|].
    intros H1. apply Hone. lia.
  - intros RS pop_size pc pm fuel pop fitnesses np g np' g' Hle H.
    destruct (PlacaPlanaEngine.breed_children pop_size pc pm _ _ _ _ _ _ _ H)
      as (children & Hnp & _ & Hlen).
    exists children. split; [assumption|]. specialize (Hlen Hle).
    rewrite Hnp, length_app in Hlen. split; [assumption|].
    intros H1. apply Hone. lia.
Qed.

Lemma population_size_constant_witness :
  (exists st,
     @cilindro_generation steady script_bounds 5 (8 / 10) (3 / 10) (3 / 10) 10000 42 3 st /\
     Z.of_nat (length (Cilindro.population st)) = 5%Z /\
     length (Cilindro.fitness st) = length (Cilindro.population st)) /\
  (exists st,
     @placa_generation steady 5 (9 / 10) (1 / 10) 1000000 0%nat 3 st /\
     Z.of_nat (length (PlacaPlana.pop st)) = 5%Z /\
     length (PlacaPlana.fitnesses st) = length (PlacaPlana.pop st)).
Proof.
  split.
  - destruct (@cilindro_generation_exists steady 5 42 3 ltac:(lia)) as [st Hst].
    exists st. split; [exact Hst|].
    exact (proj1 population_size_constant steady _ _ _ _ _ _ _ _ _ Hst).
  - destruct (@placa_generation_exists steady 5 (9 / 10) (1 / 10) 1000000 0%nat 3
                ltac:(lia)) as [st Hst].
    exists st. split; [exact Hst|].
    exact (proj1 (proj2 population_size_constant) steady _ _ _ _ _ _ _ Hst).
Defined.

(** ** Running the programs on the steady source *)

Lemma unit_sample_half : unit_sample (1 / 2) = 1 / 2.
Proof. unfold unit_sample. rcases; simpl; lra. Qed.

Lemma clip_below (x lo hi : R) : x <= lo -> lo <= hi -> clip x lo hi = lo.
Proof.
  intros H1 H2. unfold clip, Rmin, Rmax.
  destruct (Rle_dec x lo); destruct (Rle_dec _ hi); lra.
Qed.

Lemma clip_above (x lo hi : R) : hi <= x -> lo <= hi -> clip x lo hi = hi.
Proof.
  intros H1 H2. unfold clip, Rmin, Rmax.
  destruct (Rle_dec x lo); destruct (Rle_dec _ hi); lra.
Qed.

(** Settle every comparison of two closed real expressions in the goal. *)
Ltac decide_comparisons :=
  repeat match goal with
  | |- context [Rltb ?a ?b] =>
      first [ rewrite (proj2 (Rltb_true a b)) by lra
            | rewrite (proj2 (Rltb_false a b)) by lra ]
  | |- context [Rleb ?a ?b] =>
      first [ rewrite (proj2 (Rleb_true a b)) by lra
            | rewrite (proj2 (Rleb_false a b)) by lra ]
  end.

(** Run the program text as far as it goes without looking inside a real
    number, a comparison of reals, a clamp or an objective. *)
Ltac run_on :=
  cbv -[Rplus Rmult Rminus Rdiv Ropp Rinv IZR Rlt_dec Rle_dec Req_dec_T ln PI
        unit_sample Rltb Rleb Reqb clip
        Cilindro.objective Cilindro.heat_flow
        PlacaPlana.fitness PlacaPlana.heat_flow fmean].

Lemma script_bounds_valid : CilindroEngine.valid_bounds script_bounds.
Proof.
  unfold CilindroEngine.valid_bounds, script_bounds, Cilindro.k_max.
  repeat constructor; simpl; lra.
Qed.

(** C2.  The claim fails on cilindro_ga.py.  Crossover computes each gene
    of a child as [alpha * parent1 + (1 - alpha) * parent2] in binary64, and
    the sum is rounded: with both parents on a bound the child can land one
    step outside it (above 0.08 for the thickness, below 0.02 for the
    conductivity, with coefficients [np.random.rand()] can return).  The
    gene loop clamps a gene only in the branch that mutates it, so a child
    gene that is not mutated enters the population as crossover left it,
    outside its interval or not.  [mutate] of placa_plana_ga.py does what
    this loop misses: it clamps every child, mutated or not. *)
Theorem blended_genes_leave_the_bounds :
  (Binary64.is_draw 0.109375 = true /\
   Binary64.child1 0.109375 0.08 0.08 = 0.08000000000000002%float /\
   Binary64.child2 0.109375 0.08 0.08 = 0.08000000000000002%float /\
   (0.08 <? 0.08000000000000002)%float = true) /\
  (Binary64.is_draw 0.09375 = true /\
   Binary64.child1 0.09375 0.02 0.02 = 0.019999999999999997%float /\
   Binary64.child2 0.09375 0.02 0.02 = 0.019999999999999997%float /\
   (0.019999999999999997 <? 0.02)%float = true) /\
  (exists g',
     @Cilindro.mutation steady (3 / 10) (3 / 10) script_bounds
       [2 / 100; 9 / 100] 0%nat = Ok ([2 / 100; 9 / 100], g') /\
     ~ CilindroEngine.in_bounds script_bounds [2 / 100; 9 / 100]) /\
  (forall (RS : RandomSource) ind pm sigma_t sigma_k g ind' g',
      PlacaPlana.mutate ind pm sigma_t sigma_k g = Ok (ind', g') ->
      PlacaPlanaFitness.in_box ind').
Proof.
  split; [|split; [|split]].
  - repeat split; vm_compute; reflexivity.
  - repeat split; vm_compute; reflexivity.
  - eexists. split.
    + run_on. rewrite !unit_sample_half. decide_comparisons. run_on. reflexivity.
    + unfold CilindroEngine.in_bounds, script_bounds. intros H.
      inversion H as [|b1 k bs1 ind1 Hk H1]; subst.
      inversion H1 as [|b2 t bs2 ind2 Ht H2]; subst.
      simpl in Ht. lra.
  - intros RS ind pm st sk g ind' g' H.
    exact (PlacaPlanaEngine.mutate_Ok ind pm st sk g ind' g' H).
Qed.

(** Entry [g + 1] is never above entry [g]. *)
Definition nonincreasing (l : list npfloat) : Prop :=
  forall g a b, nth_error l g = Some a -> nth_error l (S g) = Some b -> fle b a.

Lemma descending_nonincreasing (l : list npfloat) : descending l -> nonincreasing l.
Proof. intros H g a b Ha Hb. apply (H g (S g) a b); auto. Qed.

(** C1.  In every run of both programs the recorded best fitness never
    increases from one generation to the next, because the next population
    starts with the row [np.argmin] points at, unmodified; and the best
    fitness of the last population, which belongs to the individual the run
    returns, is not above any fitness of any population of the run nor any
    recorded best.  (cilindro: for a penalty factor other than zero, with
    which no fitness is nan.) *)
Theorem best_fitness_never_increases :
  (forall (RS : RandomSource) bounds pop_size generations cr mr ms pf s g res g',
      pf <> 0 ->
      Cilindro.run_GA bounds pop_size generations cr mr ms pf s g = Ok (res, g') ->
      nonincreasing (Cilindro.res_best_hist res) /\
      (forall h, In h (Cilindro.res_best_hist res) ->
                 fle (Cilindro.best_fitness res) h) /\
      Cilindro.objective (Cilindro.best_individual res) pf
        = Ok (Cilindro.best_fitness res) /\
      (forall n st,
          (n <= Z.to_nat generations)%nat ->
          cilindro_generation bounds pop_size cr mr ms pf s n st ->
          forall f, In f (Cilindro.fitness st) -> fle (Cilindro.best_fitness res) f)) /\
  (forall (RS : RandomSource) pop_size generations pc pm pf g t k Q h g',
      PlacaPlana.run_GA pop_size generations pc pm pf g = Ok ((t, k, Q, h), g') ->
      nonincreasing (PlacaPlana.best_fit h) /\
      (forall x, In x (PlacaPlana.best_fit h) ->
                 fle (PlacaPlana.fitness (t, k) pf) x) /\
      (forall n st,
          (n <= Z.to_nat generations)%nat ->
          placa_generation pop_size pc pm pf g n st ->
          forall f, In f (PlacaPlana.fitnesses st) ->
                    fle (PlacaPlana.fitness (t, k) pf) f)) /\
  (forall (RS : RandomSource) bounds pop_size cr mr ms pf st g st' g',
      Cilindro.generation bounds pop_size cr mr ms pf st g = Ok (st', g') ->
      exists i best children,
        argmin (Cilindro.fitness st) = Some i /\
        nth_error (Cilindro.population st) i = Some best /\
        Cilindro.population st' = best :: children) /\
  (forall (RS : RandomSource) pop_size pc pm pf st g st' g',
      PlacaPlana.generation pop_size pc pm pf st g = Ok (st', g') ->
      exists i best children,
        argmin (PlacaPlana.fitnesses st) = Some i /\
        nth_error (PlacaPlana.pop st) i = Some best /\
        PlacaPlana.pop st' = best :: children).
Proof.
  split; [|split; [|split]].
  - intros RS bounds pop_size generations cr mr ms pf s g res g' Hpf Hrun.
    destruct (CilindroEngine.run_GA_elitism bounds pop_size generations cr mr ms pf
                s g res g' Hpf Hrun) as (Hdesc & Hhist & Hobj & Hall).
    split; [apply descending_nonincreasing; assumption|].
    split; [assumption|]. split; [assumption|].
    intros n st Hn (st0 & g1 & gn & Hinit & Hloop).
    exact (Hall n st0 g1 st gn Hn Hinit Hloop).
  - intros RS pop_size generations pc pm pf g t k Q h g' Hrun.
    destruct (PlacaPlanaEngine.run_elitism pop_size generations pc pm pf
                g t k Q h g' Hrun) as (Hdesc & Hhist & Hall).
    split; [apply descending_nonincreasing; assumption|].
    split; [assumption|].
    intros n st Hn (st0 & g1 & gn & Hinit & Hloop).
    exact (Hall n st0 g1 st gn Hn Hinit Hloop).
  - intros RS bounds pop_size cr mr ms pf st g st' g' Hgen.
    destruct (CilindroEngine.generation_carries_best _ _ _ _ _ _ _ _ _ _ Hgen)
      as (i & best & children & Hi & Hb & Hpop & _).
    exists i, best, children. auto.
  - intros RS pop_size pc pm pf st g st' g' Hgen.
    destruct (PlacaPlanaEngine.step_carries_best _ _ _ _ _ _ _ _ Hgen)
      as (i & best & children & Hi & Hb & Hpop & _).
    exists i, best, children. auto.
Qed.

Lemma best_fitness_never_increases_witness :
  (exists res g',
     @Cilindro.run_GA steady script_bounds 5 3 (8 / 10) (3 / 10) (3 / 10) 10000 42 0%nat
       = Ok (res, g') /\
     nonincreasing (Cilindro.res_best_hist res) /\
     (forall h, In h (Cilindro.res_best_hist res) ->
                fle (Cilindro.best_fitness res) h)) /\
  (exists t k Q h g',
     @PlacaPlana.run_GA steady 5 3 (9 / 10) (1 / 10) 1000000 0%nat
       = Ok ((t, k, Q, h), g') /\
     nonincreasing (PlacaPlana.best_fit h)).
Proof.
  split.
  - destruct (@CilindroEngine.run_GA_total steady script_bounds 5 3
                (8 / 10) (3 / 10) (3 / 10) 10000 42 0%nat
                script_seed_valid ltac:(lia) eq_refl (or_intror script_bounds_mutable))
      as (res & g' & Hrun).
    exists res, g'. split; [exact Hrun|].
    assert (Hpf : 10000 <> 0) by lra.
    destruct (proj1 best_fitness_never_increases steady _ _ _ _ _ _ _ _ _ _ _ Hpf Hrun)
      as (H1 & H2 & _).
    split; assumption.
  - destruct (@PlacaPlanaEngine.run_total steady 5 3 (9 / 10) (1 / 10) 1000000 0%nat
                ltac:(lia)) as ([[[t k] Q] h] & g' & Hrun).
    exists t, k, Q, h, g'. split; [exact Hrun|].
    exact (proj1 (proj1 (proj2 best_fitness_never_increases)
                    steady _ _ _ _ _ _ _ _ _ _ _ Hrun)).
Defined.

(** No conductivity at all, thickness between 1 and 2. *)
Definition tiny_bounds : list (R * R) := [(0, 0); (1, 2)].

(** One generation of two individuals on the steady source: both start at
    thickness 3/2, which is the recorded best; the one child is mutated
    down to the lower bound 1, and it is the best of the last population. *)
Lemma tiny_run :
  exists res g',
    @Cilindro.run_GA steady tiny_bounds 2 1 0 1 1 1 0 0%nat = Ok (res, g') /\
    Cilindro.res_best_hist res = [Fin (3 / 2)] /\
    Cilindro.best_fitness res = Fin 1.
Proof.
  eexists. eexists. split.
  - run_on.
    rewrite !unit_sample_half.
    rewrite !CilindroObjectiveFacts.objective_zero_conductivity by lra.
    run_on. decide_comparisons. run_on.
    rewrite !clip_below by lra.
    rewrite !CilindroObjectiveFacts.objective_zero_conductivity by lra.
    run_on. decide_comparisons. run_on.
    reflexivity.
  - simpl. split; do 2 f_equal; lra.
Qed.

(** C10.  A run of [G] generations returns histories of exactly [G]
    entries; entry [n] holds the statistics of the population that stands
    after [n] generations, before it is replaced; the population left by
    the last replacement is scored and its argmin is the returned
    individual, but nothing is recorded for it; so the returned best
    fitness is not above the last recorded best (cilindro: with a non-zero
    penalty factor), and a run exists where it is strictly below. *)
Theorem history_lags_one_generation :
  (forall (RS : RandomSource) bounds pop_size generations cr mr ms pf s g res g',
      Cilindro.run_GA bounds pop_size generations cr mr ms pf s g = Ok (res, g') ->
      (length (Cilindro.res_best_hist res) = Z.to_nat generations /\
       length (Cilindro.res_worst_hist res) = Z.to_nat generations /\
       length (Cilindro.res_avg_hist res) = Z.to_nat generations /\
       length (Cilindro.res_best_t_hist res) = Z.to_nat generations /\
       length (Cilindro.res_best_Q_hist res) = Z.to_nat generations) /\
      (forall n st,
          (n < Z.to_nat generations)%nat ->
          cilindro_generation bounds pop_size cr mr ms pf s n st ->
          exists i m w k t,
            argmin (Cilindro.fitness st) = Some i /\
            nth_error (Cilindro.fitness st) i = Some m /\
            nth_error (Cilindro.population st) i = Some [k; t] /\
            fmax_list (Cilindro.fitness st) = Some w /\
            nth_error (Cilindro.res_best_hist res) n = Some m /\
            nth_error (Cilindro.res_worst_hist res) n = Some w /\
            nth_error (Cilindro.res_avg_hist res) n
              = Some (fmean (Cilindro.fitness st)) /\
            nth_error (Cilindro.res_best_t_hist res) n = Some t /\
            nth_error (Cilindro.res_best_Q_hist res) n
              = Some (Cilindro.heat_flow k t)) /\
      (exists st i,
          cilindro_generation bounds pop_size cr mr ms pf s (Z.to_nat generations) st /\
          Cilindro.evaluate pf (Cilindro.population st) = Ok (Cilindro.fitness st) /\
          argmin (Cilindro.fitness st) = Some i /\
          nth_error (Cilindro.population st) i = Some (Cilindro.best_individual res) /\
          nth_error (Cilindro.fitness st) i = Some (Cilindro.best_fitness res)) /\
      (pf <> 0 ->
       forall h, In h (Cilindro.res_best_hist res) ->
                 fle (Cilindro.best_fitness res) h)) /\
  (forall (RS : RandomSource) pop_size generations pc pm pf g t_best k_best Q_best h g',
      PlacaPlana.run_GA pop_size generations pc pm pf g
        = Ok ((t_best, k_best, Q_best, h), g') ->
      (length (PlacaPlana.hist_t h) = Z.to_nat generations /\
       length (PlacaPlana.hist_k h) = Z.to_nat generations /\
       length (PlacaPlana.hist_Q h) = Z.to_nat generations /\
       length (PlacaPlana.best_fit h) = Z.to_nat generations /\
       length (PlacaPlana.mean_fit h) = Z.to_nat generations /\
       length (PlacaPlana.worst_fit h) = Z.to_nat generations) /\
      (forall n st,
          (n < Z.to_nat generations)%nat ->
          placa_generation pop_size pc pm pf g n st ->
          exists bi wi bf wf t k,
            argmin (PlacaPlana.fitnesses st) = Some bi /\
            argmax (PlacaPlana.fitnesses st) = Some wi /\
            nth_error (PlacaPlana.fitnesses st) bi = Some bf /\
            nth_error (PlacaPlana.fitnesses st) wi = Some wf /\
            nth_error (PlacaPlana.pop st) bi = Some (t, k) /\
            nth_error (PlacaPlana.hist_t h) n = Some t /\
            nth_error (PlacaPlana.hist_k h) n = Some k /\
            nth_error (PlacaPlana.hist_Q h) n = Some (PlacaPlana.heat_flow k t) /\
            nth_error (PlacaPlana.best_fit h) n = Some bf /\
            nth_error (PlacaPlana.mean_fit h) n
              = Some (fmean (PlacaPlana.fitnesses st)) /\
            nth_error (PlacaPlana.worst_fit h) n = Some wf) /\
      (exists st i,
          placa_generation pop_size pc pm pf g (Z.to_nat generations) st /\
          PlacaPlana.fitnesses st = PlacaPlana.evaluate pf (PlacaPlana.pop st) /\
          argmin (PlacaPlana.fitnesses st) = Some i /\
          nth_error (PlacaPlana.pop st) i = Some (t_best, k_best) /\
          Q_best = PlacaPlana.heat_flow k_best t_best) /\
      (forall x, In x (PlacaPlana.best_fit h) ->
                 fle (PlacaPlana.fitness (t_best, k_best) pf) x)) /\
  (exists res g' last_best,
      @Cilindro.run_GA steady tiny_bounds 2 1 0 1 1 1 0 0%nat = Ok (res, g') /\
      nth_error (Cilindro.res_best_hist res) 0 = Some last_best /\
      length (Cilindro.res_best_hist res) = 1%nat /\
      flt (Cilindro.best_fitness res) last_best).
Proof.
  split; [|split].
  - intros RS bounds pop_size generations cr mr ms pf s g res g' Hrun.
    pose proof Hrun as Hrun'.
    apply CilindroEngine.run_GA_Ok in Hrun.
    destruct Hrun as (st0 & g1 & st & Hinit & Hloop & Hres).
    pose proof (CilindroEngine.initial_state_Ok _ _ _ _ _ _ Hinit)
      as (_ & Hev0 & B1 & B2 & B3 & B4 & B5).
    assert (Hrec0 : CilindroEngine.recorded 0 st0).
    { unfold CilindroEngine.recorded. rewrite B1, B2, B3, B4, B5. auto. }
    pose proof (CilindroEngine.for_generations_recorded bounds pop_size cr mr ms pf
                  _ _ _ _ _ _ Hrec0 Hloop) as Hrec.
    pose proof (CilindroEngine.final_result_Ok _ _ Hres)
      as (i & Hi & Hind & Hfit & E1 & E2 & E3 & E4 & E5).
    split; [|split; [|split]].
    + unfold CilindroEngine.recorded in Hrec. simpl in Hrec.
      rewrite E1, E2, E3, E4, E5. exact Hrec.
    + intros n stn Hn (st0' & g1' & gn & Hinit' & Hn_loop).
      rewrite Hinit in Hinit'. injection Hinit' as <- <-.
      rewrite E1, E2, E3, E4, E5.
      exact (CilindroEngine.history_entry bounds pop_size cr mr ms pf
               n _ _ _ _ _ _ _ Hrec0 Hn_loop Hn Hloop).
    + exists st, i. split; [exists st0, g1, g'; auto|].
      split; [|auto].
      exact (CilindroEngine.for_generations_evaluated bounds pop_size cr mr ms pf
               _ _ _ _ _ Hev0 Hloop).
    + intros Hpf.
      exact (proj1 (proj2 (CilindroEngine.run_GA_elitism bounds pop_size generations
                             cr mr ms pf s g res g' Hpf Hrun'))).
  - intros RS pop_size generations pc pm pf g t_best k_best Q_best h g' Hrun.
    pose proof Hrun as Hrun'.
    apply PlacaPlanaEngine.run_Ok in Hrun.
    destruct Hrun as (st0 & g1 & st & Hinit & Hloop & Hres).
    pose proof (PlacaPlanaEngine.first_state_Ok _ _ _ _ _ Hinit) as (_ & Hsc0 & Hh0).
    assert (Hrec0 : PlacaPlanaEngine.logged 0 (PlacaPlana.hist st0)).
    { rewrite Hh0. unfold PlacaPlanaEngine.logged. simpl. auto 10. }
    pose proof (PlacaPlanaEngine.generations_logged pop_size pc pm pf
                  _ _ _ _ _ _ Hrec0 Hloop) as Hrec.
    pose proof (PlacaPlanaEngine.last_result_Ok _ _ _ _ _ Hres)
      as (i & Hi & Hind & HQ & Hh).
    split; [|split; [|split]].
    + rewrite Hh. exact Hrec.
    + intros n stn Hn (st0' & g1' & gn & Hinit' & Hn_loop).
      rewrite Hinit in Hinit'. injection Hinit' as <- <-.
      rewrite Hh.
      exact (PlacaPlanaEngine.log_entry pop_size pc pm pf
               n _ _ _ _ _ _ _ Hrec0 Hn_loop Hn Hloop).
    + exists st, i. split; [exists st0, g1, g'; auto|].
      split; [|auto].
      exact (PlacaPlanaEngine.generations_scored pop_size pc pm pf
               _ _ _ _ _ Hsc0 Hloop).
    + exact (proj1 (proj2 (PlacaPlanaEngine.run_elitism pop_size generations
                             pc pm pf g t_best k_best Q_best h g' Hrun'))).
  - destruct tiny_run as (res & g' & Hrun & Hhist & Hbest).
    exists res, g', (Fin (3 / 2)). split; [exact Hrun|].
    rewrite Hhist, Hbest. split; [reflexivity|]. split; [reflexivity|].
    unfold flt. simpl. apply Rltb_true. lra.
Qed.

Lemma history_lags_one_generation_witness :
  (exists res g',
     @Cilindro.run_GA steady script_bounds 5 3 (8 / 10) (3 / 10) (3 / 10) 10000 42 0%nat
       = Ok (res, g') /\
     length (Cilindro.res_best_hist res) = 3%nat) /\
  (exists t k Q h g',
     @PlacaPlana.run_GA steady 5 3 (9 / 10) (1 / 10) 1000000 0%nat
       = Ok ((t, k, Q, h), g') /\
     length (PlacaPlana.best_fit h) = 3%nat).
Proof.
  split.
  - destruct (@CilindroEngine.run_GA_total steady script_bounds 5 3
                (8 / 10) (3 / 10) (3 / 10) 10000 42 0%nat
                script_seed_valid ltac:(lia) eq_refl (or_intror script_bounds_mutable))
      as (res & g' & Hrun).
    exists res, g'. split; [exact Hrun|].
    exact (proj1 (proj1 (proj1 history_lags_one_generation
                           steady _ _ _ _ _ _ _ _ _ _ _ Hrun))).
  - destruct (@PlacaPlanaEngine.run_total steady 5 3 (9 / 10) (1 / 10) 1000000 0%nat
                ltac:(lia)) as ([[[t k] Q] h] & g' & Hrun).
    exists t, k, Q, h, g'. split; [exact Hrun|].
    destruct (proj1 (proj1 (proj2 history_lags_one_generation)
                       steady _ _ _ _ _ _ _ _ _ _ _ Hrun))
      as (_ & _ & _ & Hlen & _).
    exact Hlen.
Defined.

(** ** The evaluators *)

(** With a thickness interval that starts above zero, every fitness the
    cilindro engine computes is a finite number. *)
Lemma cilindro_fitness_is_finite {RS : RandomSource}
    bounds pop_size cr mr ms pf s n st :
  CilindroEngine.valid_bounds bounds ->
  (forall b, nth_error bounds 1 = Some b -> 0 < fst b) ->
  cilindro_generation bounds pop_size cr mr ms pf s n st ->
  Forall (fun f => is_finite f = true) (Cilindro.fitness st).
Proof.
  intros Hv Hthick (st0 & g1 & gn & Hinit & Hloop).
  pose proof (CilindroEngine.initial_state_Ok _ _ _ _ _ _ Hinit) as (Hpop & Hev0 & _).
  assert (Hb : CilindroEngine.bounded bounds st).
  { revert Hloop.
    apply (CilindroEngine.for_generations_invariant bounds pop_size cr mr ms pf
             (CilindroEngine.bounded bounds)).
    - intros st1 g2 st2 g3. apply CilindroEngine.generation_bounded. assumption.
    - apply CilindroEngine.initial_population_Ok in Hpop.
      destruct Hpop as (_ & _ & _ & Hin). apply Hin. assumption. }
  pose proof (CilindroEngine.for_generations_evaluated _ _ _ _ _ _ _ _ _ _ _
                Hev0 Hloop) as Hev.
  apply CilindroEngine.evaluate_Forall2 in Hev.
  unfold CilindroEngine.bounded in Hb.
  induction Hev as [|ind f pop fit Hobj _ IH]; [constructor|].
  inversion Hb as [|? ? Hin Hb']; subst. constructor; [|apply IH; assumption].
  pose proof (CilindroObjectiveFacts.objective_length _ _ _ Hobj) as Hlen.
  destruct ind as [|k [|t [|x rest]]]; simpl in Hlen; try discriminate.
  inversion Hin as [|bk k' bs ks Hk Hin1]; subst.
  inversion Hin1 as [|bt t' bs' ts Ht Hin2]; subst.
  specialize (Hthick bt eq_refl).
  destruct (proj2 (CilindroObjectiveFacts.objective_finite_iff k t pf)) as [x Hx].
  { intros [Ht0 _]. lra. }
  rewrite Hx in Hobj. injection Hobj as <-. reflexivity.
Qed.

(** C3, as stated, fails on cilindro_ga.py: at zero thickness and positive
    conductivity the logarithm is zero, the heat flow is [+inf], and with
    the script's penalty factor the objective is [+inf]. *)
Lemma objective_is_infinite_at_zero_thickness :
  Cilindro.objective [1; 0] 10000 = Ok PInf.
Proof.
  rewrite CilindroObjectiveFacts.objective_infinite_flow.
  - unfold scaled_inf. rcases; try reflexivity; lra.
  - apply CilindroObjective.heat_flow_PInf. split; [reflexivity | lra].
Qed.

(** C3, amended.  placa_plana_ga.py: outside the box the fitness is the
    sentinel 1e9; inside the box the heat flow is a finite number between
    zero and 7820 W, and for a penalty factor between zero and 1e300 the
    fitness is a finite number between the base cost and the base cost plus
    [6e7] times the penalty factor, so at most 1e308, which is below the
    largest binary64 number; the fitness is never nan.  The product [(Q - Q_max)**2 * penalty_factor]
    is not guarded, though: with a penalty factor of 1e308 the fitness of
    a design whose heat flow is 295 W is [+inf].  cilindro_ga.py: the
    objective has no guard and no sentinel.  It never raises on a vector of
    two genes, but at zero thickness and positive conductivity it is not a
    finite number for any penalty factor, and [+inf] for a positive one; in
    binary64 the same happens at every thickness that [r1 + t] absorbs, as
    1e-17.  With the bounds and the rates of the script, whose thickness
    starts at 0.005, every fitness the cilindro engine computes is a finite
    number, and so is every fitness of the placa_plana engine with the
    penalty factor 1e6. *)
Theorem evaluator_finiteness :
  (forall ind pf,
      ~ PlacaPlanaFitness.in_box ind ->
      PlacaPlana.fitness ind pf = Fin PlacaPlana.sentinel) /\
  (forall ind pf,
      PlacaPlanaFitness.in_box ind -> 0 <= pf -> pf <= 10 ^ 300 ->
      exists Q x,
        PlacaPlana.heat_flow (snd ind) (fst ind) = Fin Q /\ 0 < Q <= 7820 /\
        PlacaPlana.fitness ind pf = Fin x /\
        PlacaPlanaFitness.base_obj ind <= x
          <= PlacaPlanaFitness.base_obj ind + 60000000 * pf /\
        x <= 10 ^ 308) /\
  (forall ind pf, not_nan (PlacaPlana.fitness ind pf)) /\
  Binary64.penalised 1 295 1e308 = PrimFloat.infinity /\
  (forall k t pf, exists f, Cilindro.objective [k; t] pf = Ok f) /\
  (forall k pf, 0 < k -> ~ exists x, Cilindro.objective [k; 0] pf = Ok (Fin x)) /\
  (forall k pf, 0 < k -> 0 < pf -> Cilindro.objective [k; 0] pf = Ok PInf) /\
  (forall log : Binary64.float -> Binary64.float,
      log 1%float = 0%float ->
      Binary64.objective log 0.05 1e-17 1e4 = PrimFloat.infinity) /\
  (forall (RS : RandomSource) pop_size s n st,
      cilindro_generation script_bounds pop_size (8 / 10) (3 / 10) (3 / 10) 10000 s n st ->
      Forall (fun f => is_finite f = true) (Cilindro.fitness st)) /\
  (forall (RS : RandomSource) pop_size pc pm g n st,
      placa_generation pop_size pc pm 1000000 g n st ->
      Forall (fun f => is_finite f = true) (PlacaPlana.fitnesses st)).
Proof.
  repeat match goal with |- _ /\ _ => split end.
  - intros ind pf Hout. apply PlacaPlanaFitness.fitness_out_of_box. assumption.
  - intros [t k] pf Hin Hpf Hmax.
    destruct (PlacaPlanaFitness.fitness_in_box_range (t, k) pf Hin Hpf)
      as (x & Hx & Hrange).
    exists (2 * PI * PlacaPlana.L * PlacaPlana.dT / PlacaPlanaFitness.denominator k t), x.
    split; [apply PlacaPlanaFitness.heat_flow_in_box; exact Hin|].
    split; [apply PlacaPlanaFitness.heat_flow_range; exact Hin|].
    split; [assumption|]. split; [assumption|].
    apply (PlacaPlanaFitness.fitness_below_overflow (t, k) pf x Hin Hmax).
    apply Hrange.
  - intros ind pf. apply PlacaPlanaFitness.fitness_not_nan.
  - vm_compute. reflexivity.
  - intros k t pf. apply CilindroObjectiveFacts.objective_total. reflexivity.
  - intros k pf Hk Hfin.
    apply (proj1 (CilindroObjectiveFacts.objective_finite_iff k 0 pf) Hfin).
    split; [reflexivity | assumption].
  - intros k pf Hk Hpf.
    rewrite CilindroObjectiveFacts.objective_infinite_flow.
    + unfold scaled_inf. rcases; try reflexivity; lra.
    + apply CilindroObjective.heat_flow_PInf. split; [reflexivity | assumption].
  - intros log Hlog.
    cbv beta zeta delta [Binary64.objective Binary64.heat_flow].
    replace ((Binary64.r1 + 1e-17) / Binary64.r1)%float with 1%float
      by (vm_compute; reflexivity).
    rewrite Hlog. vm_compute. reflexivity.
  - intros RS pop_size s n st Hreach.
    assert (Hthick : forall b, nth_error script_bounds 1 = Some b -> 0 < fst b).
    { intros b Hb. simpl in Hb. injection Hb as <-. simpl. lra. }
    exact (cilindro_fitness_is_finite _ _ _ _ _ _ _ _ _
             script_bounds_valid Hthick Hreach).
  - intros RS pop_size pc pm g n st (st0 & g1 & gn & Hinit & Hloop).
    pose proof (PlacaPlanaEngine.first_state_Ok _ _ _ _ _ Hinit) as (_ & Hsc0 & _).
    pose proof (PlacaPlanaEngine.generations_scored _ _ _ _ _ _ _ _ _ Hsc0 Hloop)
      as Hsc.
    unfold PlacaPlanaEngine.scored, PlacaPlana.evaluate in Hsc. rewrite Hsc.
    apply Forall_forall. intros f Hf. apply in_map_iff in Hf.
    destruct Hf as (ind & <- & _).
    destruct (PlacaPlanaFitness.fitness_finite ind 1000000) as [x ->]. reflexivity.
Qed.

Lemma evaluator_finiteness_witness :
  PlacaPlana.fitness (3 / 10, 6 / 100) 1000000 = Fin PlacaPlana.sentinel /\
  (exists Q x,
     PlacaPlana.heat_flow (6 / 100) (1 / 10) = Fin Q /\ 0 < Q <= 7820 /\
     PlacaPlana.fitness (1 / 10, 6 / 100) 1000000 = Fin x /\
     PlacaPlanaFitness.base_obj (1 / 10, 6 / 100) <= x
       <= PlacaPlanaFitness.base_obj (1 / 10, 6 / 100) + 60000000 * 1000000 /\
     x <= 10 ^ 308) /\
  Cilindro.objective [1; 0] 10000 = Ok PInf /\
  (exists st,
     @cilindro_generation steady script_bounds 5 (8 / 10) (3 / 10) (3 / 10) 10000 42 3 st /\
     Forall (fun f => is_finite f = true) (Cilindro.fitness st)).
Proof.
  destruct evaluator_finiteness
    as (Hout & Hin & _ & _ & _ & _ & Hinf & _ & Hcil & _).
  split; [|split; [|split]].
  - apply Hout. unfold PlacaPlanaFitness.in_box, PlacaPlana.t_max. simpl. lra.
  - apply (Hin (1 / 10, 6 / 100) 1000000).
    + unfold PlacaPlanaFitness.in_box, PlacaPlana.t_min, PlacaPlana.t_max,
        PlacaPlana.k_min, PlacaPlana.k_max. simpl. lra.
    + lra.
    + apply Rle_trans with (10 ^ 6); [lra|]. apply Rle_pow; [lra | lia].
  - apply Hinf; lra.
  - destruct (@cilindro_generation_exists steady 5 42 3 ltac:(lia)) as [st Hst].
    exists st. split; [exact Hst|].
    apply (Hcil steady 5%Z 42%Z 3%nat st). exact Hst.
Defined.

(** C4, as stated, fails on placa_plana_ga.py: outside the box the fitness
    is the constant 1e9.  Two chromosomes that exceed [t_max] by 0.1 and by
    0.2 have the same fitness, and one far outside has a fitness below its
    base cost. *)
Lemma sentinel_ignores_the_violation :
  PlacaPlana.fitness (3 / 10, 6 / 100) 1000000 = Fin PlacaPlana.sentinel /\
  PlacaPlana.fitness (4 / 10, 6 / 100) 1000000 = Fin PlacaPlana.sentinel /\
  0 < 3 / 10 - PlacaPlana.t_max < 4 / 10 - PlacaPlana.t_max /\
  PlacaPlana.fitness (10000000000, 6 / 100) 1000000 = Fin PlacaPlana.sentinel /\
  PlacaPlana.sentinel < PlacaPlanaFitness.base_obj (10000000000, 6 / 100).
Proof.
  assert (Hout : forall t, PlacaPlana.t_max < t ->
                           ~ PlacaPlanaFitness.in_box (t, 6 / 100)).
  { intros t Ht. unfold PlacaPlanaFitness.in_box. simpl. lra. }
  unfold PlacaPlana.t_max in *.
  split; [apply PlacaPlanaFitness.fitness_out_of_box, Hout; lra|].
  split; [apply PlacaPlanaFitness.fitness_out_of_box, Hout; lra|].
  split; [lra|].
  split; [apply PlacaPlanaFitness.fitness_out_of_box, Hout; lra|].
  unfold PlacaPlanaFitness.base_obj, PlacaPlana.sentinel, PlacaPlana.t_min,
    PlacaPlana.t_max, PlacaPlana.k_min, PlacaPlana.k_max. simpl. lra.
Qed.

Lemma quadratic_penalty_nonneg (pf v : R) : 0 <= pf -> 0 <= quadratic_penalty pf v.
Proof.
  intros Hpf. unfold quadratic_penalty. simpl.
  assert (0 <= Rmax 0 v * (Rmax 0 v * 1)) by nra. nra.
Qed.

Lemma quadratic_penalty_monotone (pf v w : R) :
  0 <= pf -> v <= w -> quadratic_penalty pf v <= quadratic_penalty pf w.
Proof.
  intros Hpf Hvw. unfold quadratic_penalty. simpl.
  assert (H0 : 0 <= Rmax 0 v) by apply Rmax_l.
  assert (Hm : Rmax 0 v <= Rmax 0 w).
  { apply Rmax_lub; [apply Rmax_l|].
    apply Rle_trans with w; [assumption | apply Rmax_r]. }
  assert (Rmax 0 v * (Rmax 0 v * 1) <= Rmax 0 w * (Rmax 0 w * 1)) by nra.
  nra.
Qed.

(** C4, amended.  cilindro: with a finite heat flow [Q] the objective is
    the thickness plus [quadratic_penalty] of [Q - Q_max] and of
    [k - k_max] (the formula on exact reals; binary64 rounds each operation
    of it), whatever the bounds are: it is the thickness exactly when
    both constraints hold and never below it.  placa_plana: inside the box
    the fitness is the base cost plus [quadratic_penalty] of [Q - Q_max]:
    the base cost exactly when [Q <= Q_max], never below it otherwise;
    outside the box it is the sentinel 1e9.  The penalty is zero without
    violation, never negative and never decreasing in the violation.
    (Penalty factor not negative throughout.)  None of these orders is
    strict in binary64, where a small penalty is absorbed by the sum: with
    the conductivity one step above [k_max], the thickness 2 and the heat
    constraint met, the objective is the thickness 2 itself, and with a
    heat flow one step above [Q_max] the fitness of a design of base cost
    1 is 1. *)
Theorem penalty_is_quadratic :
  (forall k t pf Q,
      Cilindro.heat_flow k t = Fin Q ->
      Cilindro.objective [k; t] pf =
        Ok (Fin (t + quadratic_penalty pf (Q - Cilindro.Q_max)
                   + quadratic_penalty pf (k - Cilindro.k_max)))) /\
  (forall k t pf Q,
      Cilindro.heat_flow k t = Fin Q ->
      Q <= Cilindro.Q_max -> k <= Cilindro.k_max ->
      Cilindro.objective [k; t] pf = Ok (Fin t)) /\
  (forall k t pf Q,
      Cilindro.heat_flow k t = Fin Q -> 0 <= pf ->
      exists f, Cilindro.objective [k; t] pf = Ok f /\ fle (Fin t) f) /\
  (forall ind pf,
      PlacaPlanaFitness.in_box ind ->
      exists Q,
        PlacaPlana.heat_flow (snd ind) (fst ind) = Fin Q /\
        PlacaPlana.fitness ind pf =
          Fin (PlacaPlanaFitness.base_obj ind
               + quadratic_penalty pf (Q - PlacaPlana.Q_max)) /\
        (Q <= PlacaPlana.Q_max ->
         PlacaPlana.fitness ind pf = Fin (PlacaPlanaFitness.base_obj ind)) /\
        (0 <= pf ->
         fle (Fin (PlacaPlanaFitness.base_obj ind)) (PlacaPlana.fitness ind pf))) /\
  (forall ind pf,
      ~ PlacaPlanaFitness.in_box ind ->
      PlacaPlana.fitness ind pf = Fin PlacaPlana.sentinel) /\
  (forall pf v, v <= 0 -> quadratic_penalty pf v = 0) /\
  (forall pf v, 0 <= pf -> 0 <= quadratic_penalty pf v) /\
  (forall pf v w,
      0 <= pf -> v <= w -> quadratic_penalty pf v <= quadratic_penalty pf w) /\
  ((Binary64.k_max <? 0.08400000000000002)%float = true /\
   forall log : Binary64.float -> Binary64.float,
     (Binary64.Q_max <? Binary64.heat_flow log 0.08400000000000002 2)%float = false ->
     Binary64.objective log 0.08400000000000002 2 1e4 = 2%float) /\
  ((Binary64.Q_max <? 120.00000000000001)%float = true /\
   Binary64.penalised 1 120.00000000000001 1e6 = 1%float).
Proof.
  repeat match goal with |- _ /\ _ => split end.
  - intros k t pf Q HQ. apply CilindroObjectiveFacts.objective_finite_flow. exact HQ.
  - intros k t pf Q HQ Hq Hk.
    rewrite (CilindroObjectiveFacts.objective_finite_flow k t pf Q HQ).
    rewrite !quadratic_penalty_zero by lra. do 2 f_equal. ring.
  - intros k t pf Q HQ Hpf.
    rewrite (CilindroObjectiveFacts.objective_finite_flow k t pf Q HQ).
    eexists. split; [reflexivity|].
    pose proof (quadratic_penalty_nonneg pf (Q - Cilindro.Q_max) Hpf) as H1.
    pose proof (quadratic_penalty_nonneg pf (k - Cilindro.k_max) Hpf) as H2.
    unfold fle. cbn [fleb]. apply Rleb_true. lra.
  - intros [t k] pf Hin. simpl.
    exists (2 * PI * PlacaPlana.L * PlacaPlana.dT / PlacaPlanaFitness.denominator k t).
    pose proof (PlacaPlanaFitness.fitness_in_box (t, k) pf Hin) as Hfit.
    simpl in Hfit.
    split; [apply PlacaPlanaFitness.heat_flow_in_box; exact Hin|].
    split; [exact Hfit|]. split.
    + intros HQ. rewrite Hfit. rewrite quadratic_penalty_zero by lra.
      f_equal. ring.
    + intros Hpf. rewrite Hfit. unfold fle. cbn [fleb]. apply Rleb_true.
      match goal with
      | |- _ <= _ + quadratic_penalty pf ?v =>
          pose proof (quadratic_penalty_nonneg pf v Hpf)
      end. lra.
  - intros ind pf Hout. apply PlacaPlanaFitness.fitness_out_of_box. exact Hout.
  - intros pf v Hv. apply quadratic_penalty_zero. exact Hv.
  - intros pf v Hpf. apply quadratic_penalty_nonneg. exact Hpf.
  - intros pf v w Hpf Hvw. apply quadratic_penalty_monotone; assumption.
  - vm_compute. reflexivity.
  - intros log HQ.
    cbv beta zeta delta [Binary64.objective].
    rewrite HQ. vm_compute. reflexivity.
  - vm_compute. reflexivity.
  - vm_compute. reflexivity.
Qed.

Lemma penalty_is_quadratic_witness :
  Cilindro.objective [0; 1] 10000 = Ok (Fin 1) /\
  (exists f, Cilindro.objective [5 / 100; 5 / 100] 10000 = Ok f /\
             fle (Fin (5 / 100)) f) /\
  quadratic_penalty 10000 (-1) = 0 /\
  0 <= quadratic_penalty 10000 1 /\
  quadratic_penalty 10000 1 <= quadratic_penalty 10000 2.
Proof.
  destruct penalty_is_quadratic
    as (_ & Hfeasible & Hnot_below & _ & _ & Hzero & Hpos & Hinc & _).
  split; [|split; [|split; [|split]]].
  - apply (Hfeasible 0 1 10000 (2 * PI * 0 * Cilindro.L * Cilindro.dT
                                  / ln ((Cilindro.r1 + 1) / Cilindro.r1))).
    + apply CilindroObjectiveFacts.heat_flow_positive_thickness. lra.
    + unfold Cilindro.Q_max, Rdiv. rewrite !Rmult_0_r, !Rmult_0_l. lra.
    + unfold Cilindro.k_max. lra.
  - apply (Hnot_below (5 / 100) (5 / 100) 10000
             (2 * PI * (5 / 100) * Cilindro.L * Cilindro.dT
                / ln ((Cilindro.r1 + 5 / 100) / Cilindro.r1))).
    + apply CilindroObjectiveFacts.heat_flow_positive_thickness. lra.
    + lra.
  - apply Hzero. lra.
  - apply Hpos; lra.
  - apply Hinc; lra.
Defined.

(** ** Mutation at rate zero *)

(** C7, as stated, fails on placa_plana_ga.py: [mutate] ends with the clamp
    whether a gene was perturbed or not, so with [pm = 0] a chromosome
    outside the box is moved onto it. *)
Lemma clamp_moves_an_outside_gene :
  exists ind' g',
    @PlacaPlana.mutate steady (3 / 10, 6 / 100) 0
       PlacaPlana.sigma_t PlacaPlana.sigma_k 0%nat = Ok (ind', g') /\
    ind' = (PlacaPlana.t_max, 6 / 100) /\
    ind' <> (3 / 10, 6 / 100).
Proof.
  eexists. eexists. split; [|split].
  - run_on. rewrite !unit_sample_half. decide_comparisons. run_on. reflexivity.
  - unfold PlacaPlana.t_max. f_equal.
    + apply clip_above; lra.
    + apply clip_id; lra.
  - intros H. injection H as H _. rewrite clip_above in H by lra. lra.
Qed.

(** C7, amended.  With a mutation rate of zero (or below) the gene loop of
    cilindro_ga.py returns every child unchanged, and [mutate] of
    placa_plana_ga.py returns the clamp of the chromosome: unchanged when,
    and only when, the chromosome is inside the box.  Neither raises. *)
Theorem mutation_rate_zero_is_identity :
  (forall (RS : RandomSource) bounds mr ms child g,
      mr <= 0 -> (length bounds <= length child)%nat ->
      exists g', Cilindro.mutation mr ms bounds child g = Ok (child, g')) /\
  (forall (RS : RandomSource) ind pm g,
      pm <= 0 ->
      exists g',
        PlacaPlana.mutate ind pm PlacaPlana.sigma_t PlacaPlana.sigma_k g
          = Ok ((clip (fst ind) PlacaPlana.t_min PlacaPlana.t_max,
                 clip (snd ind) PlacaPlana.k_min PlacaPlana.k_max), g')) /\
  (forall (RS : RandomSource) ind pm g,
      pm <= 0 -> PlacaPlanaFitness.in_box ind ->
      exists g',
        PlacaPlana.mutate ind pm PlacaPlana.sigma_t PlacaPlana.sigma_k g
          = Ok (ind, g')) /\
  (forall (RS : RandomSource) ind pm g g',
      pm <= 0 ->
      PlacaPlana.mutate ind pm PlacaPlana.sigma_t PlacaPlana.sigma_k g = Ok (ind, g') ->
      PlacaPlanaFitness.in_box ind).
Proof.
  assert (Hplaca : forall (RS : RandomSource) ind pm g,
             pm <= 0 ->
             exists g',
               PlacaPlana.mutate ind pm PlacaPlana.sigma_t PlacaPlana.sigma_k g
                 = Ok ((clip (fst ind) PlacaPlana.t_min PlacaPlana.t_max,
                        clip (snd ind) PlacaPlana.k_min PlacaPlana.k_max), g')).
  { intros RS ind pm g Hpm.
    destruct PlacaPlanaEngine.sigma_nonneg as [Hst Hsk].
    destruct (PlacaPlanaEngine.mutate_total ind pm _ _ g Hst Hsk) as (ind' & g' & Hm).
    exists g'. rewrite Hm.
    rewrite (PlacaPlanaEngine.mutate_rate_zero _ _ _ _ _ _ _ Hpm Hm). reflexivity. }
  split; [|split; [|split]].
  - intros RS bounds mr ms child g Hmr Hlen.
    destruct (CilindroEngine.mutation_length_total mr ms bounds (or_intror Hmr)
                child g Hlen) as (child' & g' & Hm).
    exists g'. rewrite Hm.
    rewrite (CilindroEngine.mutation_rate_zero mr ms bounds Hmr _ _ _ _ Hm).
    reflexivity.
  - exact Hplaca.
  - intros RS [t k] pm g Hpm [Ht Hk].
    destruct (Hplaca RS (t, k) pm g Hpm) as [g' Hm]. exists g'. rewrite Hm.
    simpl in *. rewrite !clip_id by assumption. reflexivity.
  - intros RS ind pm g g' Hpm Hm.
    exact (PlacaPlanaEngine.mutate_Ok _ _ _ _ _ _ _ Hm).
Qed.

Lemma mutation_rate_zero_is_identity_witness :
  (exists g', @Cilindro.mutation steady 0 (3 / 10) script_bounds
                [2 / 100; 5 / 1000] 0%nat = Ok ([2 / 100; 5 / 1000], g')) /\
  (exists g', @PlacaPlana.mutate steady (1 / 10, 6 / 100) 0
                PlacaPlana.sigma_t PlacaPlana.sigma_k 0%nat
              = Ok ((1 / 10, 6 / 100), g')).
Proof.
  split.
  - apply (proj1 mutation_rate_zero_is_identity steady); [lra | simpl; lia].
  - apply (proj1 (proj2 (proj2 mutation_rate_zero_is_identity)) steady); [lra|].
    unfold PlacaPlanaFitness.in_box, PlacaPlana.t_min, PlacaPlana.t_max,
      PlacaPlana.k_min, PlacaPlana.k_max. simpl. lra.
Defined.

(** ** Configurations *)





(** The first statement of cilindro's run_GA is [np.random.seed(seed)]: a
    seed numpy refuses ends the run there, whatever the other arguments
    are. *)
Lemma run_GA_refuses_the_seed {RS : RandomSource}
    bounds pop_size generations cr mr ms pf s g :
  ~ valid_seed s ->
  Cilindro.run_GA bounds pop_size generations cr mr ms pf s g = Raise ValueError.
Proof.
  intros Hseed. unfold Cilindro.run_GA. unfold bind at 1.
  rewrite (np_seed_refuses s g Hseed). reflexivity.
Qed.



(** * Facts about selection on references *)

Lemma holds_nth {A : Type} (h : store A) refs rows i r :
  holds h refs rows -> nth_error refs i = Some r ->
  exists v, nth_error rows i = Some v /\ nth_error h r = Some v.
Proof.
  intros H. revert i. induction H as [|r0 v0 refs rows Hrv H IH]; intros i Hi.
  - destruct i; discriminate.
  - destruct i as [|i]; simpl in *.
    + injection Hi as <-. eauto.
    + apply IH. assumption.
Qed.

Section CopyAndViewFacts.
Context {RS : RandomSource}.

(** A copy is a new reference with the same content, and every array that
    was in the store is still there, unchanged. *)
Lemma np_copy_Ok {A : Type} (r : ref) (h : store A) g r' h' g' :
  np_copy r h g = Ok ((r', h'), g') ->
  g' = g /\ r' = length h /\
  (exists v, nth_error h r = Some v /\ h' = h ++ [v] /\ nth_error h' r' = Some v) /\
  (forall q, (q < length h)%nat -> nth_error h' q = nth_error h q).
Proof.
  unfold np_copy. destruct (nth_error h r) as [v|] eqn:Hv; intros H.
  - apply ret_Ok in H. destruct H as [H ->]. injection H as -> ->.
    split; [reflexivity|]. split; [reflexivity|]. split.
    + exists v. split; [reflexivity|]. split; [reflexivity|].
      rewrite nth_error_app2 by lia. rewrite Nat.sub_diag. reflexivity.
    + intros q Hq. apply nth_error_app1. assumption.
  - apply raise_Ok in H. contradiction.
Qed.

(** cilindro: the function returns a view: a reference of the population
    itself, with the store untouched; its content is the parent of the
    value-level function, and the generator is left in the same state. *)
Lemma view_selection_Ok pop_size population rows fitness h g r h' g' :
  holds h population rows ->
  CilindroStore.tournament_selection pop_size population fitness h g
    = Ok ((r, h'), g') ->
  h' = h /\ In r population /\
  exists v,
    nth_error h r = Some v /\
    Cilindro.tournament_selection pop_size rows fitness g = Ok (v, g').
Proof.
  intros Hh H. unfold CilindroStore.tournament_selection in H.
  unfold Cilindro.tournament_selection.
  mbind H as idx g1 Hidx. rewrite (bind_run _ _ _ _ _ Hidx).
  destruct idx as [|i1 [|i2 [|i3 rest]]]; try (apply raise_Ok in H; contradiction).
  mbind H as f1 g2 Hf1. rewrite (bind_run _ _ _ _ _ Hf1).
  mbind H as f2 g3 Hf2. rewrite (bind_run _ _ _ _ _ Hf2).
  apply lift_Ok in Hf1, Hf2. destruct Hf1 as [_ ->]. destruct Hf2 as [_ ->].
  mbind H as r0 g4 Hr. apply ret_Ok in H. destruct H as [H ->].
  injection H as -> ->. split; [reflexivity|].
  destruct (fltb f1 f2); apply lift_Ok in Hr; destruct Hr as [Hr ->];
    apply index_Ok in Hr;
    (split; [eapply nth_error_In; eauto|]);
    destruct (holds_nth _ _ _ _ _ Hh Hr) as (v & Hv & Hhv);
    exists v; (split; [assumption|]);
    unfold lift, index; rewrite Hv; reflexivity.
Qed.

(** cilindro, at the call site: the parent is a new array. *)
Lemma selected_parent_Ok pop_size population rows fitness h g r h' g' :
  holds h population rows ->
  CilindroStore.selected_parent pop_size population fitness h g = Ok ((r, h'), g') ->
  r = length h /\
  (forall q, (q < length h)%nat -> nth_error h' q = nth_error h q) /\
  exists v,
    nth_error h' r = Some v /\
    Cilindro.tournament_selection pop_size rows fitness g = Ok (v, g').
Proof.
  intros Hh H. unfold CilindroStore.selected_parent in H.
  mbind H as [r0 h1] g1 Hsel.
  destruct (view_selection_Ok _ _ _ _ _ _ _ _ _ Hh Hsel) as (-> & _ & v & Hv & Hval).
  apply np_copy_Ok in H. destruct H as (-> & -> & (v' & Hv' & _ & Hnew) & Hframe).
  split; [reflexivity|]. split; [assumption|].
  exists v. rewrite Hv in Hv'. injection Hv' as <-. auto.
Qed.

(** placa_plana: the function itself returns a new array. *)
Lemma copy_selection_Ok pop rows fitnesses k h g r h' g' :
  holds h pop rows ->
  PlacaPlanaStore.tournament_selection pop fitnesses k h g = Ok ((r, h'), g') ->
  r = length h /\
  (forall q, (q < length h)%nat -> nth_error h' q = nth_error h q) /\
  exists v,
    nth_error h' r = Some v /\
    PlacaPlana.tournament_selection rows fitnesses k g = Ok (v, g').
Proof.
  intros Hh H. unfold PlacaPlanaStore.tournament_selection in H.
  unfold PlacaPlana.tournament_selection.
  rewrite <- (Forall2_length Hh).
  mbind H as idxs g1 Hidx. rewrite (bind_run _ _ _ _ _ Hidx).
  mbind H as drawn g2 Hdr. rewrite (bind_run _ _ _ _ _ Hdr).
  mbind H as pos g3 Hpos. rewrite (bind_run _ _ _ _ _ Hpos).
  mbind H as bi g4 Hbi. rewrite (bind_run _ _ _ _ _ Hbi).
  apply lift_Ok in Hdr, Hpos, Hbi.
  destruct Hdr as [_ ->]. destruct Hpos as [_ ->]. destruct Hbi as [_ ->].
  mbind H as r0 g5 Hr. apply lift_Ok in Hr. destruct Hr as [Hr ->].
  apply index_Ok in Hr.
  destruct (holds_nth _ _ _ _ _ Hh Hr) as (v & Hv & Hhv).
  apply np_copy_Ok in H. destruct H as (-> & -> & (v' & Hv' & _ & Hnew) & Hframe).
  split; [reflexivity|]. split; [assumption|].
  exists v. rewrite Hhv in Hv'. injection Hv' as <-.
  split; [assumption|]. unfold lift, index. rewrite Hv. reflexivity.
Qed.

End CopyAndViewFacts.

Lemma holds_valid {A : Type} (h : store A) refs rows :
  holds h refs rows -> ~ In (length h) refs.
Proof.
  intros H Hin. apply In_nth_error in Hin. destruct Hin as [i Hi].
  destruct (holds_nth _ _ _ _ _ H Hi) as (v & _ & Hv).
  assert (length h < length h)%nat; [|lia].
  apply nth_error_Some. congruence.
Qed.

(** C6, as stated, fails on cilindro_ga.py: the closure returns
    [population[i1]] or [population[i2]], a view of a row of the
    population.  On a store of two rows that are the population, it returns
    the reference of the first row and allocates nothing. *)
Lemma cilindro_selection_returns_a_view :
  exists r h' g',
    @CilindroStore.tournament_selection steady 2 [0; 1]%nat [Fin 1; Fin 2]
       [[0; 1]; [0; 2]] 0%nat = Ok ((r, h'), g') /\
    In r [0; 1]%nat /\
    h' = [[0; 1]; [0; 2]].
Proof.
  eexists. eexists. eexists. split; [|split].
  - run_on. decide_comparisons. run_on. reflexivity.
  - left. reflexivity.
  - reflexivity.
Qed.

(** C6, amended.  Both selections draw their indices with one call of
    [np.random.randint(0, pop_size, size)] (two indices in cilindro_ga.py,
    [k_tour] in placa_plana_ga.py; nothing keeps two draws apart) and pick
    the row of a drawn index whose fitness is not above the fitness of any
    drawn index, when no fitness is nan.  Neither writes to an array that
    exists.  placa_plana_ga.py returns a copy; cilindro_ga.py returns a
    view of the winning row and the caller copies it at once
    ([tournament_selection().copy()]), so the parent the engine works on is
    a new array in both. *)
Theorem tournament_selection_picks_the_fittest_drawn :
  (forall (RS : RandomSource) pop_size population fitness g parent g',
      Cilindro.tournament_selection pop_size population fitness g = Ok (parent, g') ->
      exists i1 i2 f1 f2 w fw,
        randint pop_size 2 g = Ok ([i1; i2], g') /\
        (Z.of_nat i1 < pop_size)%Z /\ (Z.of_nat i2 < pop_size)%Z /\
        nth_error fitness i1 = Some f1 /\ nth_error fitness i2 = Some f2 /\
        (w = i1 \/ w = i2) /\
        nth_error population w = Some parent /\
        nth_error fitness w = Some fw /\
        (not_nan f1 -> not_nan f2 -> fle fw f1 /\ fle fw f2)) /\
  (forall (RS : RandomSource) pop fitnesses k g parent g',
      PlacaPlana.tournament_selection pop fitnesses k g = Ok (parent, g') ->
      exists idxs w fw,
        randint (Z.of_nat (length pop)) k g = Ok (idxs, g') /\
        length idxs = k /\
        Forall (fun j => (j < length pop)%nat) idxs /\
        In w idxs /\
        nth_error pop w = Some parent /\
        nth_error fitnesses w = Some fw /\
        (Forall not_nan fitnesses ->
         forall j f, In j idxs -> nth_error fitnesses j = Some f -> fle fw f)) /\
  (forall (RS : RandomSource) pop_size population rows fitness h g r h' g',
      holds h population rows ->
      CilindroStore.tournament_selection pop_size population fitness h g
        = Ok ((r, h'), g') ->
      h' = h /\ In r population /\
      exists v,
        nth_error h r = Some v /\
        Cilindro.tournament_selection pop_size rows fitness g = Ok (v, g')) /\
  (forall (RS : RandomSource) pop_size population rows fitness h g r h' g',
      holds h population rows ->
      CilindroStore.selected_parent pop_size population fitness h g
        = Ok ((r, h'), g') ->
      ~ In r population /\
      (forall q, (q < length h)%nat -> nth_error h' q = nth_error h q) /\
      exists v,
        nth_error h' r = Some v /\
        Cilindro.tournament_selection pop_size rows fitness g = Ok (v, g')) /\
  (forall (RS : RandomSource) pop rows fitnesses k h g r h' g',
      holds h pop rows ->
      PlacaPlanaStore.tournament_selection pop fitnesses k h g = Ok ((r, h'), g') ->
      ~ In r pop /\
      (forall q, (q < length h)%nat -> nth_error h' q = nth_error h q) /\
      exists v,
        nth_error h' r = Some v /\
        PlacaPlana.tournament_selection rows fitnesses k g = Ok (v, g')).
Proof.
  split; [|split; [|split; [|split]]].
  - intros RS pop_size population fitness g parent g' H.
    apply CilindroEngine.tournament_selection_Ok in H.
    destruct H as (i1 & i2 & f1 & f2 & w & Hdraw & Hi1 & Hi2 & Hf1 & Hf2 & Hw & Hp).
    apply randint_Ok in Hdraw as Hrange. destruct Hrange as (Hpos & _ & _).
    exists i1, i2, f1, f2, w, (if fltb f1 f2 then f1 else f2).
    split; [assumption|]. split; [lia|]. split; [lia|].
    split; [assumption|]. split; [assumption|].
    split; [destruct (fltb f1 f2); auto|]. split; [assumption|].
    split; [subst w; destruct (fltb f1 f2); assumption|].
    intros Hn1 Hn2. destruct (fltb f1 f2) eqn:Hlt.
    + split; [apply fle_refl; assumption | apply fltb_fle; assumption].
    + split; [apply fltb_false_fle; assumption | apply fle_refl; assumption].
  - intros RS pop fitnesses k g parent g' H.
    apply PlacaPlanaEngine.select_Ok in H.
    destruct H as (idxs & drawn & pos & w & Hdraw & Hlen & Hrange & Hdrawn & Hpos
                   & Hw & Hp).
    assert (Hfw : exists fw, nth_error drawn pos = Some fw /\
                             nth_error fitnesses w = Some fw).
    { clear - Hdrawn Hw. revert pos Hw.
      induction Hdrawn as [|j f idxs drawn Hjf _ IH]; intros pos Hw.
      - destruct pos; discriminate.
      - destruct pos as [|pos]; simpl in *.
        + injection Hw as <-. eauto.
        + apply IH. assumption. }
    destruct Hfw as (fw & Hfw & Hfitw).
    exists idxs, w, fw.
    split; [assumption|]. split; [assumption|]. split; [assumption|].
    split; [eapply nth_error_In; eauto|]. split; [assumption|].
    split; [assumption|].
    intros Hnan j f Hj Hf.
    assert (Hdn : Forall not_nan drawn).
    { clear - Hdrawn Hnan. rewrite Forall_forall in Hnan.
      induction Hdrawn as [|j f idxs drawn Hjf _ IH]; constructor; auto.
      apply Hnan. eapply nth_error_In; eauto. }
    destruct (argmin_least drawn pos Hdn Hpos) as (v & Hv & Hall).
    rewrite Hfw in Hv. injection Hv as <-. apply Hall.
    clear - Hdrawn Hj Hf.
    induction Hdrawn as [|j0 f0 idxs drawn Hjf _ IH]; [destruct Hj|].
    destruct Hj as [->|Hj]; [left; congruence | right; auto].
  - intros RS pop_size population rows fitness h g r h' g' Hh H.
    exact (view_selection_Ok _ _ _ _ _ _ _ _ _ Hh H).
  - intros RS pop_size population rows fitness h g r h' g' Hh H.
    destruct (selected_parent_Ok _ _ _ _ _ _ _ _ _ Hh H) as (-> & Hframe & Hv).
    split; [eapply holds_valid; eauto|]. split; assumption.
  - intros RS pop rows fitnesses k h g r h' g' Hh H.
    destruct (copy_selection_Ok _ _ _ _ _ _ _ _ _ Hh H) as (-> & Hframe & Hv).
    split; [eapply holds_valid; eauto|]. split; assumption.
Qed.

Lemma steady_selection :
  @Cilindro.tournament_selection steady 2 [[0; 1]; [0; 2]] [Fin 1; Fin 2] 0%nat
    = Ok ([0; 1], 2%nat).
Proof. run_on. decide_comparisons. run_on. reflexivity. Qed.

Lemma steady_selected_parent :
  @CilindroStore.selected_parent steady 2 [0; 1]%nat [Fin 1; Fin 2]
     [[0; 1]; [0; 2]] 0%nat
    = Ok ((2%nat, [[0; 1]; [0; 2]; [0; 1]]), 2%nat).
Proof. run_on. decide_comparisons. run_on. reflexivity. Qed.

Lemma tournament_selection_picks_the_fittest_drawn_witness :
  (exists i1 i2 w fw,
     @randint steady 2 2 0%nat = Ok ([i1; i2], 2%nat) /\
     (w = i1 \/ w = i2) /\
     nth_error [[0; 1]; [0; 2]] w = Some [0; 1] /\
     nth_error [Fin 1; Fin 2] w = Some fw) /\
  ~ In 2%nat [0; 1]%nat.
Proof.
  split.
  - destruct (proj1 tournament_selection_picks_the_fittest_drawn steady
                _ _ _ _ _ _ steady_selection)
      as (i1 & i2 & f1 & f2 & w & fw & H1 & _ & _ & _ & _ & Hw & Hp & Hf & _).
    exists i1, i2, w, fw. auto.
  - assert (Hh : holds [[0; 1]; [0; 2]] [0; 1]%nat [[0; 1]; [0; 2]]).
    { repeat constructor. }
    exact (proj1 (proj1 (proj2 (proj2 (proj2 tournament_selection_picks_the_fittest_drawn)))
                    steady _ _ _ _ _ _ _ _ _ Hh steady_selected_parent)).
Defined.

(** ** Reproducibility *)

Lemma unit_sample_zero : unit_sample 0 = 0.
Proof. unfold unit_sample. rcases; simpl; lra. Qed.

(** C5, as stated, fails on placa_plana_ga.py: its run_GA has no seed and
    seeds nothing, so two calls with the same arguments give different
    results when the generator is in different states.  On a source whose
    first sample is zero and whose later samples are one half, a run of one
    individual and one generation returns the thickness [t_min] from the
    fresh state and another thickness after one draw. *)
Lemma unseeded_run_depends_on_the_generator :
  exists t0 k0 Q0 h0 g0 t1 k1 Q1 h1 g1,
    @PlacaPlana.run_GA drifting 1 1 (9 / 10) (1 / 10) 1000000 0%nat
      = Ok ((t0, k0, Q0, h0), g0) /\
    @PlacaPlana.run_GA drifting 1 1 (9 / 10) (1 / 10) 1000000 1%nat
      = Ok ((t1, k1, Q1, h1), g1) /\
    t0 = PlacaPlana.t_min /\
    t0 <> t1 /\
    PlacaPlana.hist_t h0 <> PlacaPlana.hist_t h1.
Proof.
  do 10 eexists. split; [|split; [|split; [|split]]].
  - run_on. rewrite unit_sample_zero, !unit_sample_half. reflexivity.
  - run_on. rewrite !unit_sample_half. reflexivity.
  - unfold PlacaPlana.t_min. lra.
  - lra.
  - intros H. injection H as H. lra.
Qed.

(** What a run returns: the value or the exception, without the state the
    generator is left in. *)
Definition returned {RS : RandomSource} {A : Type} (o : outcome (A * rng)) : outcome A :=
  match o with
  | Ok (a, _) => Ok a
  | Raise e => Raise e
  end.

Section Streams.
(** Two generators, and a relation between their states under which both
    hand out the same draws: two executions that read the same stream. *)
Variables RS1 RS2 : RandomSource.
Variable same : @rng RS1 -> @rng RS2 -> Prop.

Definition same_draws : Prop :=
  forall g1 g2,
    same g1 g2 ->
    (fst (random_sample g1) = fst (random_sample g2) /\
     same (snd (random_sample g1)) (snd (random_sample g2))) /\
    (forall n,
        fst (random_below n g1) = fst (random_below n g2) /\
        same (snd (random_below n g1)) (snd (random_below n g2))) /\
    (fst (standard_normal g1) = fst (standard_normal g2) /\
     same (snd (standard_normal g1)) (snd (standard_normal g2))).

(** The same value and related states, or the same exception. *)
Definition same_outcome {A : Type}
    (o1 : outcome (A * @rng RS1)) (o2 : outcome (A * @rng RS2)) : Prop :=
  match o1, o2 with
  | Ok (a1, g1), Ok (a2, g2) => a1 = a2 /\ same g1 g2
  | Raise e1, Raise e2 => e1 = e2
  | _, _ => False
  end.

Definition agree {A : Type} (m1 : @M RS1 A) (m2 : @M RS2 A) : Prop :=
  forall g1 g2, same g1 g2 -> same_outcome (m1 g1) (m2 g2).

Lemma same_outcome_returned {A : Type}
    (o1 : outcome (A * @rng RS1)) (o2 : outcome (A * @rng RS2)) :
  same_outcome o1 o2 -> returned o1 = returned o2.
Proof.
  destruct o1 as [[a1 g1]|e1], o2 as [[a2 g2]|e2]; simpl; try contradiction.
  - intros [-> _]. reflexivity.
  - intros ->. reflexivity.
Qed.

Lemma agree_ret {A : Type} (a : A) : agree (ret a) (ret a).
Proof. intros g1 g2 H. simpl. auto. Qed.

Lemma agree_raise {A : Type} (e : exn) : agree (@raise RS1 A e) (@raise RS2 A e).
Proof. intros g1 g2 H. reflexivity. Qed.

Lemma agree_lift {A : Type} (o : outcome A) : agree (lift o) (lift o).
Proof. intros g1 g2 H. unfold lift. destruct o; simpl; auto. Qed.

Lemma agree_bind {A B : Type} (m1 : @M RS1 A) (m2 : @M RS2 A)
    (k1 : A -> @M RS1 B) (k2 : A -> @M RS2 B) :
  agree m1 m2 -> (forall a, agree (k1 a) (k2 a)) -> agree (bind m1 k1) (bind m2 k2).
Proof.
  intros Hm Hk g1 g2 H. unfold bind. specialize (Hm g1 g2 H).
  destruct (m1 g1) as [[a1 h1]|e1], (m2 g2) as [[a2 h2]|e2];
    simpl in Hm; try contradiction.
  - destruct Hm as [-> Hh]. apply Hk. assumption.
  - exact Hm.
Qed.

Hypothesis Hdraws : same_draws.

Lemma agree_rand : agree (@rand RS1) (@rand RS2).
Proof.
  intros g1 g2 H. unfold rand. destruct (Hdraws g1 g2 H) as ((Hv & Hs) & _).
  destruct (random_sample g1), (random_sample g2). simpl in *. auto.
Qed.

Lemma agree_below (n : nat) :
  agree (fun g => Ok (@random_below RS1 n g)) (fun g => Ok (@random_below RS2 n g)).
Proof.
  intros g1 g2 H. destruct (Hdraws g1 g2 H) as (_ & Hb & _).
  destruct (Hb n) as [Hv Hs].
  destruct (random_below n g1), (random_below n g2). simpl in *. auto.
Qed.

Lemma agree_standard_normal :
  agree (fun g => Ok (@standard_normal RS1 g)) (fun g => Ok (@standard_normal RS2 g)).
Proof.
  intros g1 g2 H. destruct (Hdraws g1 g2 H) as (_ & _ & Hv & Hs).
  destruct (standard_normal g1), (standard_normal g2). simpl in *. auto.
Qed.

(** Follow the structure of two computations that differ in the generator
    only. *)
Ltac agree_step :=
  first
    [ apply agree_ret
    | apply agree_raise
    | apply agree_lift
    | apply agree_rand
    | apply agree_below
    | apply agree_standard_normal
    | assumption
    | apply agree_bind; [|intros ?]
    | match goal with
      | |- agree (if ?b then _ else _) (if ?b then _ else _) => destruct b
      | |- agree (match ?x with _ => _ end) (match ?x with _ => _ end) => destruct x
      end ].

Ltac agree_all := repeat agree_step.

Lemma agree_uniform (low high : R) (size : nat) :
  agree (@uniform RS1 low high size) (@uniform RS2 low high size).
Proof. induction size as [|n IH]; simpl; agree_all. Qed.

Lemma agree_random_below_list (n size : nat) :
  agree (@random_below_list RS1 n size) (@random_below_list RS2 n size).
Proof. induction size as [|k IH]; simpl; agree_all. Qed.

Lemma agree_randint (high : Z) (size : nat) :
  agree (@randint RS1 high size) (@randint RS2 high size).
Proof. unfold randint. agree_all. apply agree_random_below_list. Qed.

Lemma agree_normal (loc scale : R) :
  agree (@normal RS1 loc scale) (@normal RS2 loc scale).
Proof. unfold normal. agree_all. Qed.

(** *** cilindro_ga.py *)

Lemma agree_init_columns (pop_size : Z) (bs : list (R * R)) :
  agree (@Cilindro.init_columns RS1 pop_size bs) (@Cilindro.init_columns RS2 pop_size bs).
Proof.
  induction bs as [|[low high] bs IH]; simpl; agree_all. apply agree_uniform.
Qed.

Lemma agree_initial_population bounds pop_size :
  agree (@Cilindro.initial_population RS1 bounds pop_size)
        (@Cilindro.initial_population RS2 bounds pop_size).
Proof.
  unfold Cilindro.initial_population. agree_all. apply agree_init_columns.
Qed.

Lemma agree_cilindro_selection pop_size population fitness :
  agree (@Cilindro.tournament_selection RS1 pop_size population fitness)
        (@Cilindro.tournament_selection RS2 pop_size population fitness).
Proof.
  unfold Cilindro.tournament_selection.
  apply agree_bind; [apply agree_randint|]. intros idx. agree_all.
Qed.

Lemma agree_mutation mr ms (bs : list (R * R)) :
  forall child,
    agree (@Cilindro.mutation RS1 mr ms bs child) (@Cilindro.mutation RS2 mr ms bs child).
Proof.
  induction bs as [|[low high] bs IH]; intros child; simpl; [apply agree_ret|].
  destruct child as [|x xs]; [apply agree_raise|].
  apply agree_bind; [apply agree_rand|]. intros u.
  apply agree_bind.
  - destruct (Rltb u mr); [|apply agree_ret].
    apply agree_bind; [apply agree_normal|]. intros d. apply agree_ret.
  - intros x'. apply agree_bind; [apply IH|]. intros xs'. apply agree_ret.
Qed.

Lemma agree_cilindro_breed bounds pop_size cr mr ms population fitness :
  forall fuel new_population,
    agree (@Cilindro.breed RS1 bounds pop_size cr mr ms fuel population fitness
             new_population)
          (@Cilindro.breed RS2 bounds pop_size cr mr ms fuel population fitness
             new_population).
Proof.
  induction fuel as [|fuel IH]; intros np; simpl;
    destruct (Z.of_nat (length np) <? pop_size)%Z;
    try apply agree_ret; try apply agree_raise.
  apply agree_bind; [apply agree_cilindro_selection|]. intros p1.
  apply agree_bind; [apply agree_cilindro_selection|]. intros p2.
  apply agree_bind; [apply agree_rand|]. intros u.
  apply agree_bind.
  - destruct (Rltb u cr); [|apply agree_ret].
    apply agree_bind; [apply agree_rand|]. intros alpha. apply agree_ret.
  - intros [c1 c2].
    apply agree_bind; [apply agree_mutation|]. intros c1'.
    destruct (pop_size <=? Z.of_nat (length (np ++ [c1'])))%Z; [apply IH|].
    apply agree_bind; [apply agree_mutation|]. intros c2'. apply IH.
Qed.

Lemma agree_cilindro_generation bounds pop_size cr mr ms pf st :
  agree (@Cilindro.generation RS1 bounds pop_size cr mr ms pf st)
        (@Cilindro.generation RS2 bounds pop_size cr mr ms pf st).
Proof.
  unfold Cilindro.generation.
  apply agree_bind; [apply agree_lift|]. intros best_idx.
  apply agree_bind; [apply agree_lift|]. intros best_ind.
  apply agree_bind; [apply agree_lift|]. intros best_fit.
  apply agree_bind; [apply agree_lift|]. intros worst.
  destruct best_ind as [|k [|t [|x rest]]]; try apply agree_raise.
  apply agree_bind; [apply agree_cilindro_breed|]. intros np.
  apply agree_bind; [apply agree_lift|]. intros fit. apply agree_ret.
Qed.

Lemma agree_cilindro_generations bounds pop_size cr mr ms pf (n : nat) :
  forall st,
    agree (@Cilindro.for_generations RS1 bounds pop_size cr mr ms pf n st)
          (@Cilindro.for_generations RS2 bounds pop_size cr mr ms pf n st).
Proof.
  induction n as [|n IH]; intros st; simpl; [apply agree_ret|].
  apply agree_bind; [apply agree_cilindro_generation|]. intros st'. apply IH.
Qed.

Lemma agree_cilindro_initial_state bounds pop_size pf :
  agree (@Cilindro.initial_state RS1 bounds pop_size pf)
        (@Cilindro.initial_state RS2 bounds pop_size pf).
Proof.
  unfold Cilindro.initial_state.
  apply agree_bind; [apply agree_initial_population|]. intros pop.
  apply agree_bind; [apply agree_lift|]. intros fit. apply agree_ret.
Qed.

(** A seeded run reads nothing but the stream of its seed. *)
Lemma cilindro_run_reads_the_stream bounds pop_size generations cr mr ms pf s g1 g2 :
  same (@seed RS1 s) (@seed RS2 s) ->
  returned (@Cilindro.run_GA RS1 bounds pop_size generations cr mr ms pf s g1) =
  returned (@Cilindro.run_GA RS2 bounds pop_size generations cr mr ms pf s g2).
Proof.
  intros Hseed.
  destruct (valid_seed_dec s) as [Hs|Hs].
  - unfold Cilindro.run_GA.
    rewrite (bind_run _ _ _ _ _ (@np_seed_run RS1 s g1 Hs)).
    rewrite (bind_run _ _ _ _ _ (@np_seed_run RS2 s g2 Hs)).
    apply same_outcome_returned.
    apply (agree_bind _ _ _ _ (agree_cilindro_initial_state bounds pop_size pf));
      [|exact Hseed].
    intros st0.
    apply agree_bind; [apply agree_cilindro_generations|]. intros st.
    apply agree_lift.
  - rewrite (@run_GA_refuses_the_seed RS1), (@run_GA_refuses_the_seed RS2)
      by assumption.
    reflexivity.
Qed.

(** *** placa_plana_ga.py *)

Lemma agree_init_population pop_size :
  agree (@PlacaPlana.init_population RS1 pop_size)
        (@PlacaPlana.init_population RS2 pop_size).
Proof.
  unfold PlacaPlana.init_population.
  destruct (pop_size <? 0)%Z; [apply agree_raise|].
  apply agree_bind; [apply agree_uniform|]. intros ts.
  apply agree_bind; [apply agree_uniform|]. intros ks. apply agree_ret.
Qed.

Lemma agree_placa_selection pop fitnesses k :
  agree (@PlacaPlana.tournament_selection RS1 pop fitnesses k)
        (@PlacaPlana.tournament_selection RS2 pop fitnesses k).
Proof.
  unfold PlacaPlana.tournament_selection.
  apply agree_bind; [apply agree_randint|]. intros idxs. agree_all.
Qed.

Lemma agree_crossover p1 p2 pc :
  agree (@PlacaPlana.crossover RS1 p1 p2 pc) (@PlacaPlana.crossover RS2 p1 p2 pc).
Proof. unfold PlacaPlana.crossover. agree_all. Qed.

Lemma agree_mutate ind pm st sk :
  agree (@PlacaPlana.mutate RS1 ind pm st sk) (@PlacaPlana.mutate RS2 ind pm st sk).
Proof.
  unfold PlacaPlana.mutate. destruct ind as [t k].
  apply agree_bind; [apply agree_rand|]. intros u.
  apply agree_bind.
  - destruct (Rltb u pm); [|apply agree_ret].
    apply agree_bind; [apply agree_normal|]. intros d. apply agree_ret.
  - intros t'. apply agree_bind; [apply agree_rand|]. intros u'.
    apply agree_bind.
    + destruct (Rltb u' pm); [|apply agree_ret].
      apply agree_bind; [apply agree_normal|]. intros d. apply agree_ret.
    + intros k'. apply agree_ret.
Qed.

Lemma agree_placa_breed pop_size pc pm pop fitnesses :
  forall fuel new_pop,
    agree (@PlacaPlana.breed RS1 pop_size pc pm fuel pop fitnesses new_pop)
          (@PlacaPlana.breed RS2 pop_size pc pm fuel pop fitnesses new_pop).
Proof.
  induction fuel as [|fuel IH]; intros np; simpl;
    destruct (Z.of_nat (length np) <? pop_size)%Z;
    try apply agree_ret; try apply agree_raise.
  apply agree_bind; [apply agree_placa_selection|]. intros p1.
  apply agree_bind; [apply agree_placa_selection|]. intros p2.
  apply agree_bind; [apply agree_crossover|]. intros [c1 c2].
  apply agree_bind; [apply agree_mutate|]. intros c1'.
  apply agree_bind; [apply agree_mutate|]. intros c2'.
  apply IH.
Qed.

Lemma agree_placa_generation pop_size pc pm pf st :
  agree (@PlacaPlana.generation RS1 pop_size pc pm pf st)
        (@PlacaPlana.generation RS2 pop_size pc pm pf st).
Proof.
  unfold PlacaPlana.generation.
  apply agree_bind; [apply agree_lift|]. intros best_idx.
  apply agree_bind; [apply agree_lift|]. intros worst_idx.
  apply agree_bind; [apply agree_lift|]. intros best_fit.
  apply agree_bind; [apply agree_lift|]. intros worst_fit.
  apply agree_bind; [apply agree_lift|]. intros [t k].
  apply agree_bind; [apply agree_placa_breed|]. intros np. apply agree_ret.
Qed.

Lemma agree_placa_generations pop_size pc pm pf (n : nat) :
  forall st,
    agree (@PlacaPlana.for_generations RS1 pop_size pc pm pf n st)
          (@PlacaPlana.for_generations RS2 pop_size pc pm pf n st).
Proof.
  induction n as [|n IH]; intros st; simpl; [apply agree_ret|].
  apply agree_bind; [apply agree_placa_generation|]. intros st'. apply IH.
Qed.

(** An unseeded run reads the stream of the state it is started in. *)
Lemma placa_run_reads_the_stream pop_size generations pc pm pf g1 g2 :
  same g1 g2 ->
  returned (@PlacaPlana.run_GA RS1 pop_size generations pc pm pf g1) =
  returned (@PlacaPlana.run_GA RS2 pop_size generations pc pm pf g2).
Proof.
  intros H. apply same_outcome_returned. revert g1 g2 H.
  change (agree (@PlacaPlana.run_GA RS1 pop_size generations pc pm pf)
                (@PlacaPlana.run_GA RS2 pop_size generations pc pm pf)).
  unfold PlacaPlana.run_GA, PlacaPlana.initial_state.
  apply agree_bind.
  - apply agree_bind; [apply agree_init_population|]. intros pop. apply agree_ret.
  - intros st0. apply agree_bind; [apply agree_placa_generations|]. intros st.
    apply agree_lift.
Qed.

End Streams.

(** [steady] and [drifting] differ in their first sample only: from any
    state past the first they hand out the same draws. *)
Definition past_the_first (g1 g2 : nat) : Prop := g1 = g2 /\ (1 <= g1)%nat.

Lemma steady_and_drifting_agree : same_draws steady drifting past_the_first.
Proof.
  intros g1 g2 [-> Hpos]. destruct g2 as [|n]; [lia|].
  unfold past_the_first. simpl. repeat split; lia.
Qed.

(** C5, amended.  cilindro_ga.py: run_GA starts by [np.random.seed(seed)],
    so the outcome of a run (result, histories and the state the generator
    is left in, or the exception) does not depend on the state the
    process-wide generator is in at the call; and every draw of the run
    (initial population, tournament indices, crossover test and
    coefficient, mutation test and perturbation) is read from the stream of
    that seed and from nothing else: two executions whose generators hand
    out the same draws from the seeded state, whatever the generators are,
    return the same result and histories, or raise the same exception.
    placa_plana_ga.py: run_GA takes no seed and seeds nothing; it reads the
    stream of the state the generator is in at the call, so two executions
    return the same only when started on states with the same stream, as
    when the caller seeds the generator first. *)
Theorem runs_are_reproducible_from_the_seed :
  (forall (RS : RandomSource) bounds pop_size generations cr mr ms pf s g1 g2,
      Cilindro.run_GA bounds pop_size generations cr mr ms pf s g1 =
      Cilindro.run_GA bounds pop_size generations cr mr ms pf s g2) /\
  (forall (RS1 RS2 : RandomSource) (same : @rng RS1 -> @rng RS2 -> Prop)
          bounds pop_size generations cr mr ms pf s g1 g2,
      same_draws RS1 RS2 same ->
      same (@seed RS1 s) (@seed RS2 s) ->
      returned (@Cilindro.run_GA RS1 bounds pop_size generations cr mr ms pf s g1) =
      returned (@Cilindro.run_GA RS2 bounds pop_size generations cr mr ms pf s g2)) /\
  (forall (RS1 RS2 : RandomSource) (same : @rng RS1 -> @rng RS2 -> Prop)
          pop_size generations pc pm pf g1 g2,
      same_draws RS1 RS2 same ->
      same g1 g2 ->
      returned (@PlacaPlana.run_GA RS1 pop_size generations pc pm pf g1) =
      returned (@PlacaPlana.run_GA RS2 pop_size generations pc pm pf g2)) /\
  (forall (RS : RandomSource) pop_size generations pc pm pf s g1 g2,
      (_ <- np_seed s ;; PlacaPlana.run_GA pop_size generations pc pm pf) g1 =
      (_ <- np_seed s ;; PlacaPlana.run_GA pop_size generations pc pm pf) g2).
Proof.
  split; [|split; [|split]].
  - intros RS bounds pop_size generations cr mr ms pf s g1 g2.
    destruct (valid_seed_dec s) as [Hs|Hs].
    + unfold Cilindro.run_GA.
      rewrite (bind_run _ _ _ _ _ (np_seed_run s g1 Hs)).
      rewrite (bind_run _ _ _ _ _ (np_seed_run s g2 Hs)). reflexivity.
    + rewrite !run_GA_refuses_the_seed by assumption. reflexivity.
  - intros RS1 RS2 same bounds pop_size generations cr mr ms pf s g1 g2 Hdraws Hseed.
    apply (cilindro_run_reads_the_stream RS1 RS2 same Hdraws). exact Hseed.
  - intros RS1 RS2 same pop_size generations pc pm pf g1 g2 Hdraws Hsame.
    apply (placa_run_reads_the_stream RS1 RS2 same Hdraws). exact Hsame.
  - intros RS pop_size generations pc pm pf s g1 g2.
    destruct (valid_seed_dec s) as [Hs|Hs].
    + rewrite (bind_run _ _ _ _ _ (np_seed_run s g1 Hs)).
      rewrite (bind_run _ _ _ _ _ (np_seed_run s g2 Hs)). reflexivity.
    + unfold bind. rewrite (np_seed_refuses s g1 Hs), (np_seed_refuses s g2 Hs).
      reflexivity.
Qed.

Lemma runs_are_reproducible_from_the_seed_witness :
  returned (@Cilindro.run_GA steady script_bounds 5 3 (8 / 10) (3 / 10) (3 / 10)
              10000 42 0%nat) =
  returned (@Cilindro.run_GA drifting script_bounds 5 3 (8 / 10) (3 / 10) (3 / 10)
              10000 42 7%nat) /\
  returned (@PlacaPlana.run_GA steady 5 3 (9 / 10) (1 / 10) 1000000 4%nat) =
  returned (@PlacaPlana.run_GA drifting 5 3 (9 / 10) (1 / 10) 1000000 4%nat).
Proof.
  destruct runs_are_reproducible_from_the_seed as (_ & Hc & Hp & _).
  split.
  - apply (Hc steady drifting past_the_first); [exact steady_and_drifting_agree|].
    split; [reflexivity | simpl; lia].
  - apply (Hp steady drifting past_the_first); [exact steady_and_drifting_agree|].
    split; [reflexivity | lia].
Defined.

(** * Further properties of the heat-flow formulas *)

(** [ln (1 + x) < x] and [1 - 1 / x <= ln x]: the two tangent bounds of the
    logarithm. *)
Lemma ln_below (x : R) : 0 < x -> ln (1 + x) < x.
Proof.
  intros Hx. rewrite <- (ln_exp x) at 2.
  apply ln_increasing; [lra|]. apply exp_ineq1. lra.
Qed.

Lemma ln_above (x : R) : 0 < x -> 1 - / x <= ln x.
Proof.
  intros Hx. pose proof (exp_ineq1_le (- ln x)) as H.
  rewrite exp_Ropp, exp_ln in H by assumption. lra.
Qed.

Lemma ln_quotient (x y : R) : 0 < x -> 0 < y -> ln (x / y) = ln x - ln y.
Proof.
  intros Hx Hy. unfold Rdiv.
  rewrite ln_mult by (try apply Rinv_0_lt_compat; assumption).
  rewrite ln_Rinv by assumption. ring.
Qed.

(** A quotient of positive numbers grows with the numerator and falls with
    the divisor. *)
Lemma quotient_monotone (a b c d : R) :
  0 < a -> a <= b -> 0 < c -> c <= d ->
  0 < a / d <= b / c /\ (a < b \/ c < d -> a / d < b / c).
Proof.
  intros Ha Hab Hc Hcd.
  assert (Hd : 0 < d) by lra. assert (Hb : 0 < b) by lra.
  assert (Hid : 0 < / d) by (apply Rinv_0_lt_compat; assumption).
  assert (Hic : 0 < / c) by (apply Rinv_0_lt_compat; assumption).
  assert (Hinv : / d <= / c) by (apply Rinv_le_contravar; assumption).
  unfold Rdiv. split; [split; nra|].
  intros [Hlt|Hlt].
  - nra.
  - assert (/ d < / c) by (apply Rinv_lt_contravar; nra). nra.
Qed.

Module CilindroHeatFlow.
Import Cilindro CilindroObjective CilindroObjectiveFacts.

Lemma radius_ratio_eq (t : R) : (r1 + t) / r1 = 1 + 2 * t.
Proof. unfold r1. field. Qed.

Lemma ln_ratio_pos (t : R) : 0 < t -> 0 < ln ((r1 + t) / r1).
Proof.
  intros Ht. rewrite radius_ratio_eq, <- ln_1. apply ln_increasing; lra.
Qed.

Lemma ln_ratio_le (t1 t2 : R) :
  0 < t1 -> t1 <= t2 -> ln ((r1 + t1) / r1) <= ln ((r1 + t2) / r1).
Proof.
  intros H1 H12. rewrite !radius_ratio_eq.
  destruct (Req_dec_T t1 t2) as [->|Hne]; [lra|].
  left. apply ln_increasing; lra.
Qed.

Lemma ln_ratio_lt (t1 t2 : R) :
  0 < t1 -> t1 < t2 -> ln ((r1 + t1) / r1) < ln ((r1 + t2) / r1).
Proof.
  intros H1 H12. rewrite !radius_ratio_eq. apply ln_increasing; lra.
Qed.

Lemma numerator_eq (k : R) : 2 * PI * k * L * dT = 720 * PI * k.
Proof. unfold L, dT. ring. Qed.




(** The heat constraint, solved for the logarithm. *)
Lemma heat_constraint_iff (k t : R) :
  0 < t ->
  (fle (heat_flow k t) (Fin Q_max) <-> 6 * PI * k <= ln ((r1 + t) / r1)).
Proof.
  intros Ht. pose proof (ln_ratio_pos t Ht) as Hln.
  rewrite (heat_flow_positive_thickness k t Ht), numerator_eq.
  unfold fle. cbn [fleb]. rewrite Rleb_true. unfold Q_max.
  split; intros H.
  - apply (Rmult_le_compat_r (ln ((r1 + t) / r1))) in H; [|lra].
    unfold Rdiv in H. rewrite Rmult_assoc, Rinv_l in H by lra. lra.
  - apply (Rmult_le_reg_r (ln ((r1 + t) / r1))); [assumption|].
    unfold Rdiv. rewrite Rmult_assoc, Rinv_l by lra. lra.
Qed.

End CilindroHeatFlow.

Module CilindroFlow.
Import Cilindro CilindroObjective CilindroObjectiveFacts CilindroHeatFlow.

(** X1.  [heat_flow] of cilindro_ga.py, for a positive conductivity and a
    positive thickness, is a positive finite number that grows with the
    conductivity and falls with the thickness: a better insulator or a
    thicker layer never lets more heat through, and a strictly better or
    strictly thicker one lets strictly less through. *)
Theorem heat_flow_monotone (k1 k2 t1 t2 : R) :
  0 < k1 -> k1 <= k2 -> 0 < t1 -> t1 <= t2 ->
  exists qa qb,
    heat_flow k1 t2 = Fin qa /\ heat_flow k2 t1 = Fin qb /\
    0 < qa <= qb /\ (k1 < k2 \/ t1 < t2 -> qa < qb).
Proof.
  intros Hk1 Hk Ht1 Ht.
  rewrite (heat_flow_positive_thickness k1 t2) by lra.
  rewrite (heat_flow_positive_thickness k2 t1) by lra.
  rewrite !numerator_eq.
  pose proof PI_RGT_0 as Hpi.
  pose proof (ln_ratio_pos t1 Ht1) as Hl1.
  pose proof (ln_ratio_le t1 t2 Ht1 Ht) as Hl.
  destruct (quotient_monotone (720 * PI * k1) (720 * PI * k2)
              (ln ((r1 + t1) / r1)) (ln ((r1 + t2) / r1)))
    as [Hle Hlt]; try assumption; try nra.
  do 2 eexists. split; [reflexivity|]. split; [reflexivity|].
  split; [exact Hle|].
  intros [Hs|Hs]; apply Hlt.
  - left. nra.
  - right. apply ln_ratio_lt; assumption.
Qed.

Lemma heat_flow_monotone_witness :
  exists qa qb,
    heat_flow 1 2 = Fin qa /\ heat_flow 2 1 = Fin qb /\
    0 < qa <= qb /\ (1 < 2 \/ 1 < 2 -> qa < qb).
Proof. apply (heat_flow_monotone 1 2 1 2); lra. Defined.






(** X4.  The heat constraint of cilindro_ga.py in closed form: for a
    positive conductivity and thickness, [Q <= Q_max] holds exactly when
    [6 * pi * k <= ln ((r1 + t) / r1)], and then the thickness is more than
    nine times the conductivity. *)
Theorem heat_constraint_closed_form (k t : R) :
  0 < k -> 0 < t ->
  (fle (heat_flow k t) (Fin Q_max) <-> 6 * PI * k <= ln ((r1 + t) / r1)) /\
  (fle (heat_flow k t) (Fin Q_max) -> 9 * k < t).
Proof.
  intros Hk Ht. split; [apply heat_constraint_iff; assumption|].
  intros H. apply heat_constraint_iff in H; [|assumption].
  pose proof (ln_below (2 * t) ltac:(lra)) as Hb.
  rewrite radius_ratio_eq in H.
  pose proof PI2_3_2 as Hpi3.
  assert (3 < PI) by lra. nra.
Qed.

Lemma heat_constraint_closed_form_witness :
  (fle (heat_flow (1 / 100) 1) (Fin Q_max)
   <-> 6 * PI * (1 / 100) <= ln ((r1 + 1) / r1)) /\
  (fle (heat_flow (1 / 100) 1) (Fin Q_max) -> 9 * (1 / 100) < 1).
Proof. apply (heat_constraint_closed_form (1 / 100) 1); lra. Defined.

End CilindroFlow.

(** * cilindro_ga.py: the script *)

Module CilindroScriptFacts.
Import Cilindro CilindroObjectiveFacts CilindroEngine CilindroHeatFlow CilindroScript.

Lemma script_design (ind : list R) :
  in_bounds script_bounds ind ->
  exists k t, ind = [k; t] /\ 2 / 100 <= k <= k_max /\ 5 / 1000 <= t <= 8 / 100.
Proof.
  unfold in_bounds, script_bounds. intros H.
  inversion H as [|b1 k bs1 ind1 Hk H1]; subst.
  inversion H1 as [|b2 t bs2 ind2 Ht H2]; subst.
  inversion H2; subst. simpl in Hk, Ht. exists k, t. auto.
Qed.

(** The design a run returns is a row of its last population, so it is
    inside the bounds when these are ordered. *)
Lemma returned_design_in_bounds {RS : RandomSource}
    bounds pop_size generations cr mr ms pf s g res g' :
  valid_bounds bounds ->
  run_GA bounds pop_size generations cr mr ms pf s g = Ok (res, g') ->
  in_bounds bounds (best_individual res).
Proof.
  intros Hvalid Hrun.
  destruct (run_GA_Ok _ _ _ _ _ _ _ _ _ _ _ Hrun) as (st0 & g1 & st & Hinit & Hloop & Hfin).
  destruct (initial_state_Ok _ _ _ _ _ _ Hinit) as (Hpop & _).
  destruct (initial_population_Ok _ _ _ _ _ Hpop) as (_ & _ & _ & Hbox).
  assert (Hb : bounded bounds st).
  { apply (for_generations_invariant bounds pop_size cr mr ms pf (bounded bounds)
             (fun st g st' g' => generation_bounded bounds pop_size cr mr ms pf
                                   st g st' g' Hvalid)
             _ _ _ _ _ (Hbox Hvalid) Hloop). }
  destruct (final_result_Ok _ _ Hfin) as (i & _ & Hi & _).
  unfold bounded in Hb. rewrite Forall_forall in Hb.
  apply Hb. eapply nth_error_In; eauto.
Qed.

(** Every design of the script's box lets more than [Q_max] through. *)
Lemma script_flow_exceeds (k t : R) :
  2 / 100 <= k <= k_max -> 5 / 1000 <= t <= 8 / 100 ->
  exists q, heat_flow k t = Fin q /\ Q_max < q.
Proof.
  intros Hk Ht. assert (Ht0 : 0 < t) by lra.
  pose proof (heat_flow_positive_thickness k t Ht0) as HQ.
  exists (2 * PI * k * L * dT / ln ((r1 + t) / r1)).
  split; [assumption|].
  destruct (Rlt_dec Q_max (2 * PI * k * L * dT / ln ((r1 + t) / r1)))
    as [Hlt|Hge]; [assumption|exfalso].
  assert (Hfle : fle (heat_flow k t) (Fin Q_max)).
  { rewrite HQ. unfold fle. cbn [fleb]. apply Rleb_true. lra. }
  apply heat_constraint_iff in Hfle; [|assumption].
  pose proof (ln_below (2 * t) ltac:(lra)) as Hb.
  rewrite radius_ratio_eq in Hfle.
  pose proof PI2_3_2 as Hpi3. nra.
Qed.

(** X5.  With the bounds of the script no design meets the heat constraint:
    for every [k] in [[0.02, k_max]] and [t] in [[0.005, 0.08]] the heat flow
    is a finite number above [Q_max], so the objective of every individual
    the engine can hold is the thickness plus a positive heat penalty and no
    conductivity penalty. *)
Theorem script_box_is_infeasible (ind : list R) (pf : R) :
  in_bounds script_bounds ind ->
  exists k t q,
    ind = [k; t] /\ heat_flow k t = Fin q /\ Q_max < q /\
    objective ind pf = Ok (Fin (t + pf * (q - Q_max) ^ 2)).
Proof.
  intros Hin. destruct (script_design ind Hin) as (k & t & -> & Hk & Ht).
  destruct (script_flow_exceeds k t Hk Ht) as (q & HQ & Hq).
  exists k, t, q.
  split; [reflexivity|]. split; [assumption|]. split; [assumption|].
  rewrite (objective_finite_flow k t pf _ HQ).
  rewrite quadratic_penalty_pos by lra.
  rewrite quadratic_penalty_zero by lra.
  do 2 f_equal. ring.
Qed.

Lemma script_box_is_infeasible_witness :
  exists k t q,
    [5 / 100; 5 / 100] = [k; t] /\ heat_flow k t = Fin q /\ Q_max < q /\
    objective [5 / 100; 5 / 100] 10000 = Ok (Fin (t + 10000 * (q - Q_max) ^ 2)).
Proof.
  apply (script_box_is_infeasible [5 / 100; 5 / 100] 10000).
  unfold in_bounds, script_bounds, k_max.
  repeat constructor; simpl; lra.
Defined.

(** The verdict does not hang on the last digit of a gene: every design
    with a conductivity of at least 0.019 and a thickness up to 0.09 lets
    more than [Q_max] through. *)
Lemma flow_exceeds_around_the_box (k t : R) :
  19 / 1000 <= k -> 0 < t <= 9 / 100 ->
  exists q, heat_flow k t = Fin q /\ Q_max < q.
Proof.
  intros Hk Ht. assert (Ht0 : 0 < t) by lra.
  pose proof (heat_flow_positive_thickness k t Ht0) as HQ.
  exists (2 * PI * k * L * dT / ln ((r1 + t) / r1)).
  split; [assumption|].
  destruct (Rlt_dec Q_max (2 * PI * k * L * dT / ln ((r1 + t) / r1)))
    as [Hlt|Hge]; [assumption|exfalso].
  assert (Hfle : fle (heat_flow k t) (Fin Q_max)).
  { rewrite HQ. unfold fle. cbn [fleb]. apply Rleb_true. lra. }
  apply heat_constraint_iff in Hfle; [|assumption].
  pose proof (ln_below (2 * t) ltac:(lra)) as Hb.
  rewrite radius_ratio_eq in Hfle.
  pose proof PI2_3_2 as Hpi3. nra.
Qed.

(** X6.  The script always reports the constraint as violated.  Whatever
    the generator draws, [__main__] runs to its report, the heat flow of
    the reported design is a finite number above [Q_max], and the verdict
    printed is [VIOLADA].  The margin is wide: the same holds of every
    design within a thousandth of the script's bounds. *)
Theorem main_reports_a_violation (RS : RandomSource) (g : rng) :
  (exists rep g',
     main g = Ok (rep, g') /\
     restricao rep = VIOLADA /\
     exists q, best_Q rep = Fin q /\ Q_max < q) /\
  (forall k t,
     19 / 1000 <= k -> 0 < t <= 9 / 100 ->
     exists q, heat_flow k t = Fin q /\ Q_max < q).
Proof.
  split; [|exact flow_exceeds_around_the_box].
  assert (Hvalid : valid_bounds script_bounds).
  { unfold script_bounds, k_max. repeat constructor; simpl; lra. }
  assert (Hmut : mutable script_bounds (3 / 10) (3 / 10)).
  { left. unfold script_bounds, k_max. repeat constructor; simpl; lra. }
  destruct (run_GA_total script_bounds 50 100 (8 / 10) (3 / 10) (3 / 10) 10000
              42 g script_seed_valid ltac:(lia) eq_refl (or_intror Hmut)) as (res & g' & Hrun).
  pose proof (returned_design_in_bounds _ _ _ _ _ _ _ _ _ _ _ Hvalid Hrun) as Hin.
  destruct (script_design _ Hin) as (k & t & Hind & Hk & Ht).
  destruct (script_flow_exceeds k t Hk Ht) as (q & HQ & Hq).
  unfold main. fold script_bounds.
  rewrite (bind_run _ _ _ _ _ Hrun). rewrite Hind.
  eexists. eexists. split; [reflexivity|].
  cbn [restricao best_Q best_k best_t].
  rewrite HQ. cbn [fleb].
  assert (Hnle : Rleb q Q_max = false) by (apply Rleb_false; assumption).
  rewrite Hnle. split; [reflexivity|]. eauto.
Qed.

End CilindroScriptFacts.

(** * cilindro_ga.py: further properties of the engine *)

Module CilindroRun.
Import Cilindro CilindroObjectiveFacts CilindroEngine.




End CilindroRun.

(** * placa_plana_ga.py: the heat flow and the ranking of the fitness *)

Module PlacaPlanaFlow.
Import PlacaPlana PlacaPlanaFitness.

Lemma numerator_pos : 0 < 2 * PI * L * dT.
Proof. pose proof PI_RGT_0. unfold L, dT, T_i, T_inf. lra. Qed.

(** A better conductor lowers the resistance. *)
Lemma denominator_falls_with_k (k1 k2 t : R) :
  0 < k1 -> k1 <= k2 -> 0 < t ->
  denominator k2 t <= denominator k1 t /\
  (k1 < k2 -> denominator k2 t < denominator k1 t).
Proof.
  intros Hk1 Hk Ht. unfold denominator.
  assert (Hln : 0 < ln ((r_i + t) / r_i)).
  { rewrite <- ln_1. apply ln_increasing; [lra|].
    unfold r_i. apply Rmult_lt_reg_r with (3 / 100); [lra|]. field_simplify. lra. }
  assert (Hi2 : 0 < / k2) by (apply Rinv_0_lt_compat; lra).
  assert (Hi : / k2 <= / k1) by (apply Rinv_le_contravar; lra).
  unfold Rdiv at 1 3. unfold Rdiv at 2 4. split.
  - nra.
  - intros Hlt. assert (/ k2 < / k1) by (apply Rinv_lt_contravar; nra). nra.
Qed.

(** Every radius of the box is beyond the critical radius [k / h], so a
    thicker layer raises the resistance. *)
Lemma denominator_grows_with_t (k t1 t2 : R) :
  0 < k <= k_max -> t_min <= t1 -> t1 <= t2 ->
  denominator k t1 <= denominator k t2 /\
  (t1 < t2 -> denominator k t1 < denominator k t2).
Proof.
  unfold k_max, t_min. intros Hk H1 H12.
  set (a := r_i + t1). set (b := r_i + t2).
  assert (Ha : 55 / 1000 <= a) by (unfold a, r_i; lra).
  assert (Hab : a <= b) by (unfold a, b; lra).
  assert (Hri : 0 < r_i) by (unfold r_i; lra).
  assert (Hlog : (b - a) / b <= ln b - ln a).
  { pose proof (ln_above (b / a)) as H.
    rewrite ln_quotient in H by lra.
    replace (1 - / (b / a)) with ((b - a) / b) in H by (field; lra).
    apply H. apply Rdiv_lt_0_compat; lra. }
  assert (Hdiff : denominator k t2 - denominator k t1
                  = (ln b - ln a) / k - (b - a) * / (h * a * b)).
  { unfold denominator. fold a b. rewrite !ln_quotient by lra.
    unfold h. field. lra. }
  assert (Hik : 0 < / k) by (apply Rinv_0_lt_compat; lra).
  assert (Hib : 0 < / b) by (apply Rinv_0_lt_compat; lra).
  assert (Hinv : / (h * a * b) < / (b * k)).
  { assert (Hbk : 0 < b * k) by (apply Rmult_lt_0_compat; lra).
    assert (Hgap : 0 < b * (h * a - k))
      by (apply Rmult_lt_0_compat; unfold h; lra).
    apply Rinv_lt_contravar; [apply Rmult_lt_0_compat|]; nra. }
  assert (Hmid : (b - a) * / (b * k) <= (ln b - ln a) / k).
  { replace ((b - a) * / (b * k)) with ((b - a) / b * / k) by (field; lra).
    unfold Rdiv at 2. apply Rmult_le_compat_r; lra. }
  split.
  - assert ((b - a) * / (h * a * b) <= (b - a) * / (b * k))
      by (apply Rmult_le_compat_l; lra).
    lra.
  - intros Hlt.
    assert ((b - a) * / (h * a * b) < (b - a) * / (b * k))
      by (apply Rmult_lt_compat_l; [unfold a, b; lra | exact Hinv]).
    lra.
Qed.

(** X8.  [heat_flow] of placa_plana_ga.py inside the search box is a
    positive finite number that grows with the conductivity and falls with
    the thickness: the box lies beyond the critical radius of insulation,
    so more insulation never raises the heat loss there. *)
Theorem heat_flow_monotone_in_box (k1 k2 t1 t2 : R) :
  in_box (t1, k2) -> in_box (t2, k1) -> k1 <= k2 -> t1 <= t2 ->
  exists qa qb,
    heat_flow k1 t2 = Fin qa /\ heat_flow k2 t1 = Fin qb /\
    0 < qa <= qb /\ (k1 < k2 \/ t1 < t2 -> qa < qb).
Proof.
  intros [Ht1 Hk2] [Ht2 Hk1] Hk Ht. simpl in Ht1, Hk2, Ht2, Hk1.
  assert (Hb12 : in_box (t2, k1)) by (split; assumption).
  assert (Hb21 : in_box (t1, k2)) by (split; assumption).
  assert (Hb11 : in_box (t1, k1)) by (split; simpl; lra).
  rewrite (heat_flow_in_box k1 t2 Hb12), (heat_flow_in_box k2 t1 Hb21).
  pose proof (denominator_pos k2 t1 Hb21) as Hd21.
  pose proof numerator_pos as Hnum.
  unfold t_min, t_max, k_min, k_max in *.
  destruct (denominator_falls_with_k k1 k2 t1) as [Hfk Hfk']; try lra.
  destruct (denominator_grows_with_t k1 t1 t2) as [Hgt Hgt'];
    unfold t_min, k_max; try lra.
  destruct (quotient_monotone (2 * PI * L * dT) (2 * PI * L * dT)
              (denominator k2 t1) (denominator k1 t2)) as [Hle Hlt]; try lra.
  do 2 eexists. split; [reflexivity|]. split; [reflexivity|].
  split; [exact Hle|].
  intros [Hs|Hs]; apply Hlt; right.
  - specialize (Hfk' Hs). lra.
  - specialize (Hgt' Hs). lra.
Qed.

Lemma heat_flow_monotone_in_box_witness :
  exists qa qb,
    heat_flow (5 / 100) (2 / 10) = Fin qa /\ heat_flow (8 / 100) (1 / 10) = Fin qb /\
    0 < qa <= qb /\ (5 / 100 < 8 / 100 \/ 1 / 10 < 2 / 10 -> qa < qb).
Proof.
  apply (heat_flow_monotone_in_box (5 / 100) (8 / 100) (1 / 10) (2 / 10));
    unfold in_box, t_min, t_max, k_min, k_max; simpl; lra.
Defined.

(** The thinnest layer of the best conductor lets more than 217 W through. *)
Lemma hottest_corner :
  217 < 2 * PI * L * dT / denominator k_max t_min.
Proof.
  assert (Hbox : in_box (t_min, k_max)).
  { unfold in_box, t_min, t_max, k_min, k_max. simpl. lra. }
  pose proof (denominator_pos _ _ Hbox) as Hd.
  assert (Hup : denominator k_max t_min < 1174 / 100).
  { unfold denominator, r_i, t_min, k_max, h.
    replace ((3 / 100 + 25 / 1000) / (3 / 100)) with (1 + 5 / 6) by field.
    pose proof (ln_below (5 / 6) ltac:(lra)) as Hln.
    assert (ln (1 + 5 / 6) / (84 / 1000) < (5 / 6) / (84 / 1000)).
    { unfold Rdiv at 1 4. apply Rmult_lt_compat_r; [|assumption].
      apply Rinv_0_lt_compat. lra. }
    lra. }
  pose proof PI2_3_2 as Hpi.
  apply Rmult_lt_reg_r with (denominator k_max t_min); [assumption|].
  unfold Rdiv. rewrite Rmult_assoc, Rinv_l by lra.
  unfold L, dT, T_i, T_inf. nra.
Qed.

(** X9.  How [fitness] of placa_plana_ga.py ranks designs, for a penalty
    factor that is not negative.  Inside the box the normalised cost
    [base_obj] is a number of [[0, 2]] and the fitness is not below it
    (it is [+inf] when the penalty overflows in binary64, which the order
    allows); a design of the box that meets the heat constraint scores
    its cost exactly and therefore below the sentinel of a design outside
    the box.  The sentinel is not the worst score: with the default factor
    [1e6] the corner [(t_min, k_max)] of the box scores above [1e9]. *)
Theorem fitness_ranking :
  (forall ind pf, in_box ind -> 0 <= pf ->
     0 <= base_obj ind <= 2 /\
     fle (Fin (base_obj ind)) (fitness ind pf)) /\
  (forall ind out pf,
     in_box ind -> fle (heat_flow (snd ind) (fst ind)) (Fin Q_max) -> ~ in_box out ->
     fitness ind pf = Fin (base_obj ind) /\
     flt (fitness ind pf) (fitness out pf)) /\
  (exists ind out,
     in_box ind /\ ~ in_box out /\
     flt (fitness out 1000000) (fitness ind 1000000)).
Proof.
  split; [|split].
  - intros ind pf Hbox Hpf. split; [apply base_obj_range; assumption|].
    rewrite (fitness_in_box ind pf Hbox).
    unfold fle. cbn [fleb]. apply Rleb_true.
    unfold quadratic_penalty.
    assert (0 <= pf * Rmax 0 (2 * PI * L * dT / denominator (snd ind) (fst ind) - Q_max) ^ 2).
    { apply Rmult_le_pos; [assumption | apply pow2_ge_0]. }
    lra.
  - intros ind out pf Hbox Hq Hout.
    pose proof (base_obj_range ind Hbox) as Hrange.
    assert (Hfit : fitness ind pf = Fin (base_obj ind)).
    { rewrite (fitness_in_box ind pf Hbox).
      destruct ind as [t k]. simpl in *.
      rewrite (heat_flow_in_box k t Hbox) in Hq.
      unfold fle in Hq. cbn [fleb] in Hq. apply Rleb_true in Hq.
      rewrite quadratic_penalty_zero by lra. f_equal. ring. }
    split; [assumption|].
    rewrite Hfit, (fitness_out_of_box out pf Hout).
    unfold flt. cbn [fltb]. apply Rltb_true. unfold sentinel. lra.
  - exists (t_min, k_max), (0, 0).
    assert (Hbox : in_box (t_min, k_max)).
    { unfold in_box, t_min, t_max, k_min, k_max. simpl. lra. }
    assert (Hout : ~ in_box (0, 0)).
    { unfold in_box, t_min. simpl. lra. }
    split; [assumption|]. split; [assumption|].
    rewrite (fitness_in_box _ 1000000 Hbox), (fitness_out_of_box _ 1000000 Hout).
    pose proof (base_obj_range _ Hbox) as Hrange.
    pose proof hottest_corner as Hhot.
    cbn [fst snd].
    rewrite quadratic_penalty_pos by (unfold Q_max; lra).
    unfold flt. cbn [fltb]. apply Rltb_true. unfold sentinel, Q_max.
    set (q := 2 * PI * L * dT / denominator k_max t_min) in *.
    assert (97 * 97 < (q - 120) ^ 2) by (simpl; nra).
    lra.
Qed.

End PlacaPlanaFlow.

(** * placa_plana_ga.py: further properties of the operators *)

Module PlacaPlanaOperators.
Import PlacaPlana PlacaPlanaFitness PlacaPlanaEngine.

(** X10.  [tournament_selection] of placa_plana_ga.py, for a fitness array
    as long as the population: on an empty population or with a
    tournament of size zero it ends in a [ValueError] ([randint] refuses
    the empty range, [argmin] the empty draw); in every other case it
    returns an individual of the population. *)
Theorem tournament_selection_outcome {RS : RandomSource}
    (pop : list individual) (fitnesses : list npfloat) (k : nat) (g : rng) :
  length fitnesses = length pop ->
  (pop = [] \/ k = 0%nat -> tournament_selection pop fitnesses k g = Raise ValueError) /\
  (pop <> [] -> (0 < k)%nat ->
   exists parent g',
     tournament_selection pop fitnesses k g = Ok (parent, g') /\ In parent pop).
Proof.
  intros Hlen. split.
  - intros Hedge. unfold tournament_selection, randint.
    destruct (Z.leb_spec (Z.of_nat (length pop)) 0) as [Hempty|Hsome].
    + reflexivity.
    + destruct Hedge as [-> | ->]; [simpl in Hsome; lia|]. reflexivity.
  - intros Hne Hk.
    destruct (select_total pop fitnesses k g Hne Hlen Hk) as (parent & g' & Hsel).
    exists parent, g'. split; [assumption|].
    exact (select_In _ _ _ _ _ _ Hsel).
Qed.

Lemma tournament_selection_outcome_witness :
  exists parent g',
    @tournament_selection steady [(1 / 10, 6 / 100)] [Fin 1] 3 0%nat = Ok (parent, g') /\
    In parent [(1 / 10, 6 / 100)].
Proof.
  apply (@tournament_selection_outcome steady [(1 / 10, 6 / 100)] [Fin 1] 3%nat 0%nat
           eq_refl); [discriminate | lia].
Defined.

Lemma crossover_cases {RS : RandomSource} (p1 p2 : individual) (pc : R) g c1 c2 g' :
  crossover p1 p2 pc g = Ok ((c1, c2), g') ->
  (c1 = p1 /\ c2 = p2 /\ ~ fst (random_sample g) < pc) \/
  (exists alpha,
     0 <= alpha < 1 /\ fst (random_sample g) < pc /\
     c1 = (alpha * fst p1 + (1 - alpha) * fst p2,
           alpha * snd p1 + (1 - alpha) * snd p2) /\
     c2 = (alpha * fst p2 + (1 - alpha) * fst p1,
           alpha * snd p2 + (1 - alpha) * snd p1)).
Proof.
  intros H. unfold crossover in H.
  mbind H as u g1 Hu. apply rand_Ok in Hu. destruct Hu as [_ Hu].
  apply (f_equal fst) in Hu. simpl in Hu. rewrite <- Hu.
  destruct (Rltb u pc) eqn:E.
  - apply Rltb_true in E. right.
    mbind H as alpha g2 Ha. apply rand_Ok in Ha. destruct Ha as [Ha _].
    apply ret_Ok in H. destruct H as [Hc _]. injection Hc as -> ->.
    exists alpha. auto.
  - apply Rltb_false in E. left.
    apply ret_Ok in H. destruct H as [Hc _]. injection Hc as -> ->.
    repeat split. lra.
Qed.

End PlacaPlanaOperators.

(** * Facts about maxima *)

Lemma argmax_scan_greatest (l : list npfloat) (ip : list npfloat) :
  forall mp max_ind i,
    Forall not_nan l ->
    nth_error l max_ind = Some mp ->
    (forall j, nth_error ip j = nth_error l (i + j)) ->
    exists v, nth_error l (argmax_scan mp max_ind i ip) = Some v /\
              fle mp v /\ forall y, In y ip -> fle y v.
Proof.
  induction ip as [|x rest IH]; intros mp max_ind i Hnan Hmp Hsuf; simpl.
  - exists mp. split; [assumption|]. split.
    + apply fle_refl. rewrite Forall_forall in Hnan. apply Hnan.
      eapply nth_error_In; eauto.
    + intros y [].
  - assert (Hmpn : not_nan mp).
    { rewrite Forall_forall in Hnan. apply Hnan. eapply nth_error_In; eauto. }
    assert (Hx : nth_error l i = Some x).
    { specialize (Hsuf 0%nat). simpl in Hsuf. rewrite Nat.add_0_r in Hsuf. auto. }
    assert (Hxn : not_nan x).
    { rewrite Forall_forall in Hnan. apply Hnan. eapply nth_error_In; eauto. }
    assert (Hrest : forall j, nth_error rest j = nth_error l (S i + j)).
    { intros j. specialize (Hsuf (S j)). simpl in Hsuf.
      rewrite Hsuf. f_equal. lia. }
    rewrite (is_nan_false mp Hmpn).
    destruct (fleb x mp) eqn:Hle; simpl.
    + destruct (IH mp max_ind (S i) Hnan Hmp Hrest) as (v & Hv & Hvm & Hall).
      exists v. split; [assumption|]. split; [assumption|].
      intros y [<-|Hy]; [eapply fle_trans; eauto | auto].
    + pose proof (fle_total x mp Hxn Hmpn Hle) as Hxm.
      destruct (IH x i (S i) Hnan Hx Hrest) as (v & Hv & Hvx & Hall).
      exists v. split; [assumption|]. split; [eapply fle_trans; eauto|].
      intros y [<-|Hy]; auto.
Qed.

(** On an array without nan, [np.argmax] points at a greatest element. *)
Lemma argmax_greatest (l : list npfloat) (r : nat) :
  Forall not_nan l -> argmax l = Some r ->
  exists v, nth_error l r = Some v /\ forall y, In y l -> fle y v.
Proof.
  destruct l as [|x rest]; simpl; [discriminate|].
  intros Hnan H. injection H as <-.
  destruct (argmax_scan_greatest (x :: rest) rest x 0%nat 1%nat Hnan eq_refl)
    as (v & Hv & Hvx & Hall).
  { intros j. reflexivity. }
  exists v. split; [assumption|].
  intros y [<-|Hy]; auto.
Qed.

Lemma fmaximum_cases (a b : npfloat) :
  not_nan a -> not_nan b ->
  (fmaximum a b = a /\ fle b a) \/ (fmaximum a b = b /\ fle a b).
Proof.
  intros Ha Hb. unfold fmaximum, fgeb.
  rewrite (is_nan_false a Ha), (is_nan_false b Hb).
  destruct (fleb b a) eqn:E.
  - left. auto.
  - right. split; [reflexivity|]. apply fle_total; assumption.
Qed.

Lemma fold_fmaximum_greatest (rest : list npfloat) :
  forall x,
    not_nan x -> Forall not_nan rest ->
    (fold_left fmaximum rest x = x \/ In (fold_left fmaximum rest x) rest) /\
    fle x (fold_left fmaximum rest x) /\
    forall y, In y rest -> fle y (fold_left fmaximum rest x).
Proof.
  induction rest as [|y rest IH]; intros x Hx Hrest; simpl.
  - split; [auto|]. split; [apply fle_refl; assumption | intros y []].
  - inversion Hrest as [|y' l' Hy Hrest']; subst.
    destruct (fmaximum_cases x y Hx Hy) as [[-> Hle]|[-> Hle]].
    + destruct (IH x Hx Hrest') as (Hin & Hxw & Hall).
      split; [destruct Hin; auto|]. split; [assumption|].
      intros z [<-|Hz]; [eapply fle_trans; eauto | auto].
    + destruct (IH y Hy Hrest') as (Hin & Hyw & Hall).
      split; [destruct Hin; auto|]. split; [eapply fle_trans; eauto|].
      intros z [<-|Hz]; auto.
Qed.

(** On an array without nan, [arr.max()] is an element of the array that
    no element exceeds. *)
Lemma fmax_list_greatest (l : list npfloat) (w : npfloat) :
  Forall not_nan l -> fmax_list l = Some w ->
  In w l /\ forall y, In y l -> fle y w.
Proof.
  destruct l as [|x rest]; simpl; [discriminate|].
  intros Hnan H. injection H as <-.
  inversion Hnan as [|x' l' Hx Hrest]; subst.
  destruct (fold_fmaximum_greatest rest x Hx Hrest) as (Hin & Hxw & Hall).
  split; [destruct Hin as [->|Hin]; auto|].
  intros y [<-|Hy]; auto.
Qed.

(** * The best and the worst a generation records *)

Module CilindroStatistics.
Import Cilindro CilindroObjectiveFacts CilindroEngine.

(** X12.  In every generation of a run of cilindro_ga.py with a penalty
    factor other than zero, the recorded best and the recorded worst are
    the least and the greatest fitness of the population of that
    generation: both are fitnesses of it, every fitness of it lies between
    them, and so the best is not above the worst ([+inf] included, which
    the objective returns at zero thickness). *)
Theorem statistics_are_ordered {RS : RandomSource}
    (bounds : list (R * R)) (pop_size generations : Z)
    (cr mr ms pf : R) (s : Z) (g : rng) (res : result) (g' : rng) :
  pf <> 0 ->
  run_GA bounds pop_size generations cr mr ms pf s g = Ok (res, g') ->
  forall n b w,
    nth_error (res_best_hist res) n = Some b ->
    nth_error (res_worst_hist res) n = Some w ->
    fle b w /\
    exists st,
      cilindro_generation bounds pop_size cr mr ms pf s n st /\
      In b (fitness st) /\ In w (fitness st) /\
      forall f, In f (fitness st) -> fle b f /\ fle f w.
Proof.
  intros Hpf Hrun n b w Hb Hw.
  destruct (run_GA_Ok _ _ _ _ _ _ _ _ _ _ _ Hrun)
    as (st0 & g1 & st & Hinit & Hloop & Hfin).
  destruct (initial_state_Ok _ _ _ _ _ _ Hinit)
    as (_ & Hev0 & Hb0 & Hw0 & Ha0 & Ht0 & HQ0).
  assert (Hrec0 : recorded 0 st0).
  { unfold recorded. rewrite Hb0, Hw0, Ha0, Ht0, HQ0. simpl. auto. }
  pose proof (for_generations_recorded _ _ _ _ _ _ _ _ _ _ _ _ Hrec0 Hloop) as Hrec.
  destruct (final_result_Ok _ _ Hfin) as (_ & _ & _ & _ & Hrb & Hrw & _).
  rewrite Hrb in Hb. rewrite Hrw in Hw.
  assert (Hn : (n < Z.to_nat generations)%nat).
  { destruct Hrec as (Hlen & _). simpl in Hlen. rewrite <- Hlen.
    apply nth_error_Some. congruence. }
  pose proof Hloop as Hsplit.
  replace (Z.to_nat generations) with (n + (Z.to_nat generations - n))%nat
    in Hsplit by lia.
  rewrite for_generations_add in Hsplit.
  apply bind_Ok in Hsplit. destruct Hsplit as (stn & gn & Hstn & _).
  destruct (history_entry _ _ _ _ _ _ _ _ _ _ _ _ _ _ Hrec0 Hstn Hn Hloop)
    as (i & m & w' & k & t & Hi & Hm & _ & Hmax & Hbn & Hwn & _).
  rewrite Hb in Hbn. injection Hbn as <-.
  rewrite Hw in Hwn. injection Hwn as <-.
  pose proof (for_generations_evaluated _ _ _ _ _ _ _ _ _ _ _ Hev0 Hstn) as Hevn.
  pose proof (evaluate_not_nan _ _ _ Hpf Hevn) as Hnan.
  destruct (argmin_least _ _ Hnan Hi) as (v & Hv & Hleast).
  rewrite Hm in Hv. injection Hv as <-.
  destruct (fmax_list_greatest _ _ Hnan Hmax) as [Hin Hgreatest].
  split; [apply Hleast; assumption|].
  exists stn. split; [exists st0, g1, gn; split; assumption|].
  split; [eapply nth_error_In; eauto|]. split; [assumption|].
  intros f Hf. split; [apply Hleast | apply Hgreatest]; assumption.
Qed.

Lemma statistics_are_ordered_witness :
  exists res g',
    @run_GA steady script_bounds 4 3 (8 / 10) (3 / 10) (3 / 10) 10000 42 0%nat
      = Ok (res, g') /\
    forall n b w,
      nth_error (res_best_hist res) n = Some b ->
      nth_error (res_worst_hist res) n = Some w ->
      fle b w /\
      exists st,
        @cilindro_generation steady script_bounds 4 (8 / 10) (3 / 10) (3 / 10)
          10000 42 n st /\
        In b (fitness st) /\ In w (fitness st) /\
        forall f, In f (fitness st) -> fle b f /\ fle f w.
Proof.
  destruct (@run_GA_total steady script_bounds 4 3 (8 / 10) (3 / 10) (3 / 10) 10000
              42 0%nat script_seed_valid ltac:(lia) eq_refl (or_intror script_bounds_mutable))
    as (res & g' & Hrun).
  exists res, g'. split; [exact Hrun|].
  exact (@statistics_are_ordered steady script_bounds 4 3 (8 / 10) (3 / 10) (3 / 10)
           10000 42 0%nat res g' ltac:(lra) Hrun).
Defined.

End CilindroStatistics.

Module PlacaPlanaStatistics.
Import PlacaPlana PlacaPlanaFitness PlacaPlanaEngine.

(** X13.  In every generation of a run of placa_plana_ga.py the recorded
    best and the recorded worst are the least and the greatest fitness of
    the population of that generation: both are fitnesses of it, every
    fitness of it lies between them, and so [best_fit <= worst_fit],
    whatever the penalty factor and the rates are. *)
Theorem fitness_statistics_are_ordered {RS : RandomSource}
    (pop_size generations : Z) (pc pm pf : R) (g : rng)
    (t k : R) (Q : npfloat) (h : history) (g' : rng) :
  run_GA pop_size generations pc pm pf g = Ok ((t, k, Q, h), g') ->
  forall n b w,
    nth_error (best_fit h) n = Some b ->
    nth_error (worst_fit h) n = Some w ->
    fle b w /\
    exists st,
      placa_generation pop_size pc pm pf g n st /\
      In b (fitnesses st) /\ In w (fitnesses st) /\
      forall f, In f (fitnesses st) -> fle b f /\ fle f w.
Proof.
  intros Hrun n b w Hb Hw.
  destruct (run_Ok _ _ _ _ _ _ _ _ Hrun) as (st0 & g1 & st & Hinit & Hloop & Hfin).
  destruct (first_state_Ok _ _ _ _ _ Hinit) as (_ & Hsc0 & Hh0).
  assert (Hlog0 : logged 0 (hist st0)).
  { rewrite Hh0. unfold logged. simpl. auto 6. }
  pose proof (generations_logged _ _ _ _ _ _ _ _ _ _ Hlog0 Hloop) as Hlog.
  destruct (last_result_Ok _ _ _ _ _ Hfin) as (_ & _ & _ & _ & Hh).
  subst h.
  assert (Hn : (n < Z.to_nat generations)%nat).
  { destruct Hlog as (_ & _ & _ & Hlen & _). simpl in Hlen. rewrite <- Hlen.
    apply nth_error_Some. congruence. }
  pose proof Hloop as Hsplit.
  replace (Z.to_nat generations) with (n + (Z.to_nat generations - n))%nat
    in Hsplit by lia.
  rewrite generations_add in Hsplit.
  apply bind_Ok in Hsplit. destruct Hsplit as (stn & gn & Hstn & _).
  destruct (log_entry _ _ _ _ _ _ _ _ _ _ _ _ Hlog0 Hstn Hn Hloop)
    as (bi & wi & bf & wf & tn & kn & Hbi & Hwi & Hbf & Hwf & _ & _ & _ & _
        & Hbn & _ & Hwn).
  rewrite Hb in Hbn. injection Hbn as <-.
  rewrite Hw in Hwn. injection Hwn as <-.
  pose proof (generations_scored _ _ _ _ _ _ _ _ _ Hsc0 Hstn) as Hscn.
  pose proof (scored_not_nan _ _ Hscn) as Hnan.
  destruct (argmin_least _ _ Hnan Hbi) as (v & Hv & Hleast).
  rewrite Hbf in Hv. injection Hv as <-.
  destruct (argmax_greatest _ _ Hnan Hwi) as (v & Hv & Hgreatest).
  rewrite Hwf in Hv. injection Hv as <-.
  assert (Hinb : In b (fitnesses stn)) by (eapply nth_error_In; eauto).
  assert (Hinw : In w (fitnesses stn)) by (eapply nth_error_In; eauto).
  split; [apply Hleast; assumption|].
  exists stn. split; [exists st0, g1, gn; split; assumption|].
  split; [assumption|]. split; [assumption|].
  intros f Hf. split; [apply Hleast | apply Hgreatest]; assumption.
Qed.

Lemma fitness_statistics_are_ordered_witness :
  exists t k Q h g',
    @run_GA steady 4 3 (9 / 10) (1 / 10) 1000000 0%nat = Ok ((t, k, Q, h), g') /\
    forall n b w,
      nth_error (best_fit h) n = Some b ->
      nth_error (worst_fit h) n = Some w ->
      fle b w /\
      exists st,
        @placa_generation steady 4 (9 / 10) (1 / 10) 1000000 0%nat n st /\
        In b (fitnesses st) /\ In w (fitnesses st) /\
        forall f, In f (fitnesses st) -> fle b f /\ fle f w.
Proof.
  destruct (@run_total steady 4 3 (9 / 10) (1 / 10) 1000000 0%nat ltac:(lia))
    as ([[[t k] Q] h] & g' & Hrun).
  exists t, k, Q, h, g'. split; [exact Hrun|].
  exact (@fitness_statistics_are_ordered steady _ _ _ _ _ _ _ _ _ _ _ Hrun).
Defined.

End PlacaPlanaStatistics.

(** * Runs that only select, and populations of one *)

Lemma Forall2_In_left {A B : Type} (P : A -> B -> Prop) l1 l2 a :
  Forall2 P l1 l2 -> In a l1 -> exists b, In b l2 /\ P a b.
Proof.
  induction 1 as [|x y l1 l2 Hxy _ IH]; intros Hin; [destruct Hin|].
  destruct Hin as [->|Hin].
  - exists y. split; [left; reflexivity | assumption].
  - destruct (IH Hin) as (b & Hb & HP). exists b. split; [right|]; assumption.
Qed.

Module CilindroSelection.
Import Cilindro CilindroObjectiveFacts CilindroEngine.

(** Without crossover and mutation the loop appends copies of selected
    parents. *)
Lemma breed_selects {RS : RandomSource}
    (bounds : list (R * R)) (pop_size : Z) (cr mr ms : R)
    (population : list (list R)) (fitness : list npfloat) :
  cr <= 0 -> mr <= 0 ->
  forall fuel np g np' g',
    breed bounds pop_size cr mr ms fuel population fitness np g = Ok (np', g') ->
    exists children,
      np' = np ++ children /\ Forall (fun c => In c population) children.
Proof.
  intros Hcr Hmr.
  induction fuel as [|fuel IH]; intros np g np' g' H; simpl in H;
    destruct (Z.ltb_spec (Z.of_nat (length np)) pop_size) as [Hlt|Hge].
  - mstep H.
  - mstep H. exists []. rewrite app_nil_r. split; [reflexivity | constructor].
  - mbind H as p1 g1 Hp1. apply tournament_selection_In in Hp1.
    mbind H as p2 g2 Hp2. apply tournament_selection_In in Hp2.
    mbind H as u g3 Hu. apply rand_Ok in Hu. destruct Hu as [Hu _].
    assert (E : Rltb u cr = false) by (apply Rltb_false; lra).
    rewrite E in H.
    mbind H as [child1 child2] g4 Hcross.
    apply ret_Ok in Hcross. destruct Hcross as [Hcc _]. injection Hcc as -> ->.
    mbind H as c1 g5 Hmut1.
    apply (mutation_rate_zero mr ms bounds Hmr) in Hmut1. subst c1.
    rewrite length_app in H. simpl in H.
    destruct (Z.leb_spec pop_size (Z.of_nat (length np + 1))) as [Hfull|Hroom].
    + apply IH in H. destruct H as (ch & -> & Hch).
      exists (p1 :: ch). rewrite <- app_assoc. simpl.
      split; [reflexivity | constructor; assumption].
    + mbind H as c2 g6 Hmut2.
      apply (mutation_rate_zero mr ms bounds Hmr) in Hmut2. subst c2.
      apply IH in H. destruct H as (ch & -> & Hch).
      exists (p1 :: p2 :: ch). rewrite <- !app_assoc. simpl.
      split; [reflexivity | repeat constructor; assumption].
  - mstep H. exists []. rewrite app_nil_r. split; [reflexivity | constructor].
Qed.

Lemma generation_selects {RS : RandomSource}
    (bounds : list (R * R)) (pop_size : Z) (cr mr ms pf : R) st g st' g' :
  cr <= 0 -> mr <= 0 ->
  generation bounds pop_size cr mr ms pf st g = Ok (st', g') ->
  incl (population st') (population st).
Proof.
  intros Hcr Hmr H.
  destruct (generation_carries_best _ _ _ _ _ _ _ _ _ _ H)
    as (i & best & children & _ & Hbest & Hpop & Hbreed).
  destruct (breed_selects _ _ _ _ _ _ _ Hcr Hmr _ _ _ _ _ Hbreed) as (ch & Hch & Hall).
  simpl in Hch. injection Hch as ->.
  rewrite Hpop. intros x [<-|Hx].
  - eapply nth_error_In; eauto.
  - rewrite Forall_forall in Hall. auto.
Qed.

(** X14.  With a crossover rate and a mutation rate that are not positive,
    a run of cilindro_ga.py only selects: no individual is ever created, so
    the design it returns is an individual of the initial population, and
    its fitness is the least fitness of the initial population. *)
Theorem run_without_variation {RS : RandomSource}
    (bounds : list (R * R)) (pop_size generations : Z)
    (cr mr ms pf : R) (s : Z) (g : rng) (res : result) (g' : rng) :
  cr <= 0 -> mr <= 0 -> pf <> 0 ->
  run_GA bounds pop_size generations cr mr ms pf s g = Ok (res, g') ->
  exists st0 g1,
    initial_state bounds pop_size pf (seed s) = Ok (st0, g1) /\
    In (best_individual res) (population st0) /\
    In (best_fitness res) (fitness st0) /\
    forall f, In f (fitness st0) -> fle (best_fitness res) f.
Proof.
  intros Hcr Hmr Hpf Hrun.
  destruct (run_GA_Ok _ _ _ _ _ _ _ _ _ _ _ Hrun)
    as (st0 & g1 & st & Hinit & Hloop & Hfin).
  exists st0, g1. split; [assumption|].
  assert (Hincl : incl (population st) (population st0)).
  { apply (for_generations_invariant bounds pop_size cr mr ms pf
             (fun x => incl (population x) (population st0)))
      with (n := Z.to_nat generations) (st := st0) (g := g1) (g' := g');
      [|apply incl_refl | assumption].
    intros x gx x' gx' Hx Hstep.
    eapply incl_tran; [|exact Hx].
    exact (generation_selects _ _ _ _ _ _ _ _ _ _ Hcr Hmr Hstep). }
  destruct (final_result_Ok _ _ Hfin) as (i & _ & Hi & _).
  assert (Hin : In (best_individual res) (population st0)).
  { apply Hincl. eapply nth_error_In; eauto. }
  destruct (run_GA_elitism _ _ _ _ _ _ _ _ _ _ _ Hpf Hrun) as (_ & _ & Hobj & Hall).
  destruct (initial_state_Ok _ _ _ _ _ _ Hinit) as (_ & Hev0 & _).
  split; [assumption|]. split.
  - destruct (Forall2_In_left _ _ _ _ (evaluate_Forall2 _ _ _ Hev0) Hin)
      as (f & Hf & Hof).
    rewrite Hobj in Hof. injection Hof as <-. assumption.
  - exact (Hall 0%nat st0 g1 st0 g1 (Nat.le_0_l _) Hinit eq_refl).
Qed.

Lemma run_without_variation_witness :
  exists res g' st0 g1,
    @run_GA steady script_bounds 4 3 0 0 (3 / 10) 10000 42 0%nat = Ok (res, g') /\
    @initial_state steady script_bounds 4 10000 (@seed steady 42) = Ok (st0, g1) /\
    In (best_individual res) (population st0).
Proof.
  destruct (@run_GA_total steady script_bounds 4 3 0 0 (3 / 10) 10000
              42 0%nat script_seed_valid ltac:(lia) eq_refl (or_intror (or_intror (Rle_refl 0))))
    as (res & g' & Hrun).
  destruct (@run_without_variation steady script_bounds 4 3 0 0 (3 / 10) 10000
              42 0%nat res g' ltac:(lra) ltac:(lra) ltac:(lra) Hrun)
    as (st0 & g1 & Hinit & Hin & _).
  exists res, g', st0, g1. auto.
Defined.

(** X15.  With a population of one, a generation of cilindro_ga.py breeds
    nothing and draws nothing: the elite fills the new population, the
    loop [while len(new_population) < pop_size] is not entered, and the
    population, its fitness and the state of the generator are left as they
    were. *)
Theorem single_individual_generation {RS : RandomSource}
    (bounds : list (R * R)) (cr mr ms pf : R) st g st' g' :
  sized 1 st -> evaluated pf st ->
  generation bounds 1 cr mr ms pf st g = Ok (st', g') ->
  g' = g /\ population st' = population st /\ fitness st' = fitness st.
Proof.
  intros Hsz Hev H.
  destruct (generation_Ok _ _ _ _ _ _ _ _ _ _ H)
    as (best_idx & best_ind & best_fit & worst & k & t & children
        & Hi & Hbest & _ & _ & _ & Hbreed & Hpop & Hev' & _).
  change (Z.to_nat 1) with 1%nat in Hbreed. simpl in Hbreed.
  apply ret_Ok in Hbreed. destruct Hbreed as [Hnew ->].
  injection Hnew as ->.
  unfold sized in Hsz. unfold evaluated in Hev.
  destruct (population st) as [|x [|y rest]] eqn:Hp; simpl in Hsz; try lia.
  assert (Hx : best_ind = x).
  { destruct best_idx as [|[|j]]; simpl in Hbest; congruence. }
  subst best_ind.
  split; [reflexivity|]. split; [assumption|].
  rewrite Hpop in Hev'. rewrite Hev in Hev'. injection Hev' as ->. reflexivity.
Qed.

Lemma single_individual_generation_witness :
  exists st g st' g',
    @generation steady script_bounds 1 (8 / 10) (3 / 10) (3 / 10) 10000 st g
      = Ok (st', g') /\
    g' = g /\ population st' = population st /\ fitness st' = fitness st.
Proof.
  destruct (@initial_state_total steady script_bounds 1 10000 0%nat ltac:(lia) eq_refl)
    as (st & g & Hinit & Hsz & Hev).
  destruct (@generation_total steady script_bounds 1 (8 / 10) (3 / 10) (3 / 10) 10000
              st g ltac:(lia) eq_refl script_bounds_mutable Hsz Hev)
    as (st' & g' & Hstep).
  exists st, g, st', g'. split; [exact Hstep|].
  exact (@single_individual_generation steady _ _ _ _ _ _ _ _ _ Hsz Hev Hstep).
Defined.

End CilindroSelection.

Module PlacaPlanaSelection.
Import PlacaPlana PlacaPlanaFitness PlacaPlanaEngine PlacaPlanaOperators.

Lemma crossover_rate_zero {RS : RandomSource} (p1 p2 : individual) (pc : R) g c1 c2 g' :
  pc <= 0 -> crossover p1 p2 pc g = Ok ((c1, c2), g') -> c1 = p1 /\ c2 = p2.
Proof.
  intros Hpc H. pose proof (random_sample_unit g) as Hunit.
  destruct (crossover_cases _ _ _ _ _ _ _ H) as [(-> & -> & _) | (alpha & _ & Hu & _)].
  - auto.
  - lra.
Qed.

Lemma mutate_in_box_rate_zero {RS : RandomSource} (ind : individual) (pm : R) g ind' g' :
  pm <= 0 -> in_box ind ->
  mutate ind pm sigma_t sigma_k g = Ok (ind', g') -> ind' = ind.
Proof.
  intros Hpm [Ht Hk] H. apply (mutate_rate_zero _ _ _ _ _ _ _ Hpm) in H.
  rewrite H, !clip_id by assumption. destruct ind. reflexivity.
Qed.

(** Without crossover and mutation the loop appends copies of selected
    parents. *)
Lemma breed_picks {RS : RandomSource} (pop_size : Z) (pc pm : R)
    (pop : list individual) (fitnesses : list npfloat) :
  pc <= 0 -> pm <= 0 -> Forall in_box pop ->
  forall fuel np g np' g',
    breed pop_size pc pm fuel pop fitnesses np g = Ok (np', g') ->
    exists children, np' = np ++ children /\ Forall (fun c => In c pop) children.
Proof.
  intros Hpc Hpm Hbox. rewrite Forall_forall in Hbox.
  induction fuel as [|fuel IH]; intros np g np' g' H; simpl in H;
    destruct (Z.ltb_spec (Z.of_nat (length np)) pop_size) as [Hlt|Hge].
  - mstep H.
  - mstep H. exists []. rewrite app_nil_r. split; [reflexivity | constructor].
  - mbind H as p1 g1 Hp1. apply select_In in Hp1.
    mbind H as p2 g2 Hp2. apply select_In in Hp2.
    mbind H as [c1 c2] g3 Hcross.
    destruct (crossover_rate_zero _ _ _ _ _ _ _ Hpc Hcross) as [-> ->].
    mbind H as c1' g4 Hm1.
    apply (mutate_in_box_rate_zero _ _ _ _ _ Hpm (Hbox _ Hp1)) in Hm1. subst c1'.
    mbind H as c2' g5 Hm2.
    apply (mutate_in_box_rate_zero _ _ _ _ _ Hpm (Hbox _ Hp2)) in Hm2. subst c2'.
    rewrite length_app in H. simpl in H.
    destruct (Z.ltb_spec (Z.of_nat (length np + 1)) pop_size) as [Hroom|Hfull];
      apply IH in H; destruct H as (ch & -> & Hch).
    + exists (p1 :: p2 :: ch). rewrite <- !app_assoc. simpl.
      split; [reflexivity | repeat constructor; assumption].
    + exists (p1 :: ch). rewrite <- !app_assoc. simpl.
      split; [reflexivity | constructor; assumption].
  - mstep H. exists []. rewrite app_nil_r. split; [reflexivity | constructor].
Qed.

Lemma step_picks {RS : RandomSource} (pop_size : Z) (pc pm pf : R) st g st' g' :
  pc <= 0 -> pm <= 0 -> boxed st ->
  generation pop_size pc pm pf st g = Ok (st', g') ->
  incl (pop st') (pop st).
Proof.
  intros Hpc Hpm Hbox H.
  destruct (step_carries_best _ _ _ _ _ _ _ _ H)
    as (i & best & children & _ & Hbest & Hpop & Hbreed).
  destruct (breed_picks _ _ _ _ _ Hpc Hpm Hbox _ _ _ _ _ Hbreed) as (ch & Hch & Hall).
  simpl in Hch. injection Hch as ->.
  rewrite Hpop. intros x [<-|Hx].
  - eapply nth_error_In; eauto.
  - rewrite Forall_forall in Hall. auto.
Qed.

(** X16.  With a crossover probability and a mutation probability that
    are not positive, a run of placa_plana_ga.py only selects: the design
    it returns is an individual of the initial population, and no
    individual of the initial population has a lower fitness. *)
Theorem run_only_selects {RS : RandomSource}
    (pop_size generations : Z) (pc pm pf : R) (g : rng)
    (t k : R) (Q : npfloat) (h : history) (g' : rng) :
  pc <= 0 -> pm <= 0 ->
  run_GA pop_size generations pc pm pf g = Ok ((t, k, Q, h), g') ->
  exists st0 g1,
    initial_state pop_size pf g = Ok (st0, g1) /\
    In (t, k) (pop st0) /\
    forall ind, In ind (pop st0) -> fle (fitness (t, k) pf) (fitness ind pf).
Proof.
  intros Hpc Hpm Hrun.
  destruct (run_Ok _ _ _ _ _ _ _ _ Hrun) as (st0 & g1 & st & Hinit & Hloop & Hfin).
  exists st0, g1. split; [assumption|].
  destruct (first_state_Ok _ _ _ _ _ Hinit) as (Hpop0 & Hsc0 & _).
  destruct (init_population_Ok _ _ _ _ Hpop0) as (_ & _ & Hbox0).
  assert (Hinv : boxed st /\ incl (pop st) (pop st0)).
  { apply (for_generations_keeps pop_size pc pm pf
             (fun x => boxed x /\ incl (pop x) (pop st0)))
      with (n := Z.to_nat generations) (st := st0) (g := g1) (g' := g');
      [|split; [exact Hbox0 | apply incl_refl] | assumption].
    intros x gx x' gx' [Hbx Hx] Hstep. split.
    - exact (step_boxed _ _ _ _ _ _ _ _ Hbx Hstep).
    - eapply incl_tran; [|exact Hx].
      exact (step_picks _ _ _ _ _ _ _ _ Hpc Hpm Hbx Hstep). }
  destruct Hinv as [_ Hincl].
  destruct (last_result_Ok _ _ _ _ _ Hfin) as (i & _ & Hi & _).
  split.
  - apply Hincl. eapply nth_error_In; eauto.
  - intros ind Hind.
    destruct (run_elitism _ _ _ _ _ _ _ _ _ _ _ Hrun) as (_ & _ & Hall).
    apply (Hall 0%nat st0 g1 st0 g1 (Nat.le_0_l _) Hinit eq_refl).
    unfold scored in Hsc0. rewrite Hsc0. unfold evaluate.
    apply in_map_iff. exists ind. auto.
Qed.

Lemma run_only_selects_witness :
  exists t k Q h g' st0 g1,
    @run_GA steady 4 3 0 0 1000000 0%nat = Ok ((t, k, Q, h), g') /\
    @initial_state steady 4 1000000 0%nat = Ok (st0, g1) /\
    In (t, k) (pop st0).
Proof.
  destruct (@run_total steady 4 3 0 0 1000000 0%nat ltac:(lia))
    as ([[[t k] Q] h] & g' & Hrun).
  destruct (@run_only_selects steady 4 3 0 0 1000000 0%nat t k Q h g'
              ltac:(lra) ltac:(lra) Hrun)
    as (st0 & g1 & Hinit & Hin & _).
  exists t, k, Q, h, g', st0, g1. auto.
Defined.

(** X17.  With a population of one, a generation of placa_plana_ga.py
    breeds nothing and draws nothing: the population, its fitness and the
    state of the generator are left as they were. *)
Theorem single_individual_step {RS : RandomSource} (pc pm pf : R) st g st' g' :
  full 1 st -> scored pf st ->
  generation 1 pc pm pf st g = Ok (st', g') ->
  g' = g /\ pop st' = pop st /\ fitnesses st' = fitnesses st.
Proof.
  intros Hfull Hsc H.
  destruct (step_Ok _ _ _ _ _ _ _ _ H)
    as (best_idx & worst_idx & bf & wf & t & k & children
        & Hi & _ & _ & _ & Hbest & Hbreed & _ & Hpop & Hsc' & _).
  change (Z.to_nat 1) with 1%nat in Hbreed. simpl in Hbreed.
  apply ret_Ok in Hbreed. destruct Hbreed as [Hnew ->].
  injection Hnew as ->.
  unfold full in Hfull. unfold scored in Hsc, Hsc'.
  destruct (pop st) as [|x [|y rest]] eqn:Hp; simpl in Hfull; try lia.
  assert (Hx : (t, k) = x).
  { destruct best_idx as [|[|j]]; simpl in Hbest; try discriminate.
    injection Hbest as <-. reflexivity. }
  split; [reflexivity|]. split; [rewrite Hpop, Hx; reflexivity|].
  rewrite Hsc, Hsc', Hpop, Hx. reflexivity.
Qed.

Lemma single_individual_step_witness :
  exists st g st' g',
    @generation steady 1 (9 / 10) (1 / 10) 1000000 st g = Ok (st', g') /\
    g' = g /\ pop st' = pop st /\ fitnesses st' = fitnesses st.
Proof.
  destruct (@first_state_total steady 1 1000000 0%nat ltac:(lia))
    as (st & g & Hinit & Hfull & Hsc).
  destruct (@step_total steady 1 (9 / 10) (1 / 10) 1000000 st g ltac:(lia) Hfull Hsc)
    as (st' & g' & Hstep).
  exists st, g, st', g'. split; [exact Hstep|].
  exact (@single_individual_step steady _ _ _ _ _ _ _ Hfull Hsc Hstep).
Defined.

End PlacaPlanaSelection.
